(** * LL(k) table generator of darglint's parser generator

    A shallow embedding of
    [bin/parser_generator/parser_generator/generators.py]:
    the [LLTableGenerator] class (grammar table, FIRST_k, FOLLOW_k,
    derivation search, table assembly) and [generate_parser].

    Python strings are byte strings here (UTF-8), so the one-character
    symbol epsilon is the two-byte string it is encoded as; equality,
    [startswith], [endswith] and the removal of an ASCII character are
    the same on both views.  Python sets and dicts are lists in
    iteration order; exceptions and running forever are results of an
    error monad; generators are the lists of what they yield.

    The file [generators.py] imports the BNF parser, [Grammar],
    [SubProduction], [FirstSet], [FollowSet], [gen_cache] and the
    module [symbols], which are not part of the sources at hand.  They
    are parameters of the sections below, or definitions after the
    specification of the repository; each such definition says so. *)

From Stdlib Require Import String Ascii List Arith Bool Lia PeanoNat.
From Stdlib Require Import DecimalString.
Import ListNotations.
Open Scope string_scope.
Open Scope list_scope.

Set Implicit Arguments.

(* ================================================================== *)
(** * Exceptions and results *)

Definition Production := (string * list string)%type.

(** A lookahead as the tables hold it: a bare string or a tuple. *)
Inductive lookahead :=
| LStr (s : string)
| LTup (t : list string).

Inductive exn :=
| KeyError (key : string)
| IndexError
| StopIteration
| AssertFailed (msg : string)
| AmbiguousGrammar (nonterm : string) (term : lookahead)
                   (productions : list Production)
| Exception (msg : string).

(** [Timeout] is a run the fuel of the model did not let finish. *)
Inductive result (A : Type) :=
| Ok (a : A)
| Raise (e : exn)
| Timeout.

Arguments Ok {A} a.
Arguments Raise {A} e.
Arguments Timeout {A}.

Definition bind {A B} (m : result A) (f : A -> result B) : result B :=
  match m with
  | Ok a => f a
  | Raise e => Raise e
  | Timeout => Timeout
  end.

Notation "x <- m ;; k" := (bind m (fun x => k))
  (at level 61, m at next level, right associativity).
Notation "' p <- m ;; k" := (bind m (fun q => let p := q in k))
  (at level 61, p pattern, m at next level, right associativity).

(** [for x in xs: acc = f(acc, x)] with exceptions. *)
Fixpoint foldM {A B} (f : B -> A -> result B) (xs : list A) (acc : B)
  : result B :=
  match xs with
  | [] => Ok acc
  | x :: xs' => acc' <- f acc x ;; foldM f xs' acc'
  end.

Fixpoint mapM {A B} (f : A -> result B) (xs : list A) : result (list B) :=
  match xs with
  | [] => Ok []
  | x :: xs' => y <- f x ;; ys <- mapM f xs' ;; Ok (y :: ys)
  end.

(* ================================================================== *)
(** * Strings *)

Definition dquote : ascii := "034"%char.
Definition backslash : ascii := "\"%char.
Definition newline : ascii := "010"%char.
Definition nl : string := String newline EmptyString.
Definition dq : string := String dquote EmptyString.

(** A terminal as the grammar writes it, in double quotes. *)
Definition quoted (s : string) : string := (dq ++ s ++ dq)%string.

Definition epsilon : string := "ε".

Definition startswith_char (c : ascii) (s : string) : bool :=
  match s with
  | EmptyString => false
  | String a _ => Ascii.eqb a c
  end.

Fixpoint endswith_char (c : ascii) (s : string) : bool :=
  match s with
  | EmptyString => false
  | String a EmptyString => Ascii.eqb a c
  | String _ s' => endswith_char c s'
  end.

(** [s.replace(old, new)] for a one-character [old]. *)
Fixpoint replace_char (old : ascii) (new : string) (s : string) : string :=
  match s with
  | EmptyString => EmptyString
  | String a s' =>
      if Ascii.eqb a old then new ++ replace_char old new s'
      else String a (replace_char old new s')
  end.

(** The characters of [s] that are not [c], in order: what the
    specification calls [s] with the character removed. *)
Fixpoint without_char (c : ascii) (s : string) : string :=
  match s with
  | EmptyString => EmptyString
  | String a s' =>
      if Ascii.eqb a c then without_char c s'
      else String a (without_char c s')
  end.

Fixpoint occurs (c : ascii) (s : string) : bool :=
  match s with
  | EmptyString => false
  | String a s' => Ascii.eqb a c || occurs c s'
  end.

Fixpoint join (sep : string) (parts : list string) : string :=
  match parts with
  | [] => EmptyString
  | [p] => p
  | p :: ps => p ++ sep ++ join sep ps
  end.

(* ================================================================== *)
(** * Symbol classification *)

(** [LLTableGenerator._is_term]. *)
Definition _is_term (symbol : string) : bool :=
  startswith_char dquote symbol && endswith_char dquote symbol.

(** Modelled from the spec: the module [symbols] ([is_term],
    [is_epsilon], [is_nonterm]) is not part of the sources at hand.
    Terminals are literals in double quotes, epsilon is the
    one-character symbol, and every other symbol is a nonterminal. *)
Definition is_term (symbol : string) : bool := _is_term symbol.
Definition is_epsilon (symbol : string) : bool := String.eqb symbol epsilon.
Definition is_nonterm (symbol : string) : bool :=
  negb (is_term symbol || is_epsilon symbol).

(* ================================================================== *)
(** * The grammar AST and the production table *)

(** Modelled from the spec: the node kinds of the AST that
    [bnf_to_cnf.parser] produces. *)
Inductive NodeType :=
| GRAMMAR | PRODUCTION | SYMBOL | EXPRESSION | SEQUENCE | TERMINAL | START.

Definition NodeType_eqb (a b : NodeType) : bool :=
  match a, b with
  | GRAMMAR, GRAMMAR | PRODUCTION, PRODUCTION | SYMBOL, SYMBOL
  | EXPRESSION, EXPRESSION | SEQUENCE, SEQUENCE | TERMINAL, TERMINAL
  | START, START => true
  | _, _ => false
  end.

#[local] Unset Elimination Schemes.
Inductive Node :=
| mkNode (node_type : NodeType) (value : string) (children : list Node).

#[local] Set Elimination Schemes.

Definition node_type (n : Node) : NodeType :=
  let 'mkNode t _ _ := n in t.
Definition value (n : Node) : string :=
  let 'mkNode _ v _ := n in v.
Definition children (n : Node) : list Node :=
  let 'mkNode _ _ c := n in c.

(** [LLTableGenerator._normalize_terminal_value]. *)
Definition _normalize_terminal_value (value : string) : string :=
  replace_char backslash EmptyString value.

(** The body of the innermost loops of [LLTableGenerator.table]: the
    right-hand side read off the children of one SEQUENCE node. *)
Fixpoint sequence_rhs (cs : list Node) : list string :=
  match cs with
  | [] => []
  | child :: cs' =>
      match node_type child with
      | SYMBOL => value child :: sequence_rhs cs'
      | TERMINAL => _normalize_terminal_value (value child) :: sequence_rhs cs'
      | _ => sequence_rhs cs'
      end
  end.

Section Table.

(** [Node.filter], a traversal of the tree that yields the nodes a
    predicate accepts; it belongs to the absent BNF parser. *)
Variable node_filter : (Node -> bool) -> Node -> list Node.

Definition is_kind (t : NodeType) (n : Node) : bool :=
  NodeType_eqb (node_type n) t.

Definition production_rows (production : Node) : result (list Production) :=
  match children production with
  | [] => Raise IndexError
  | first :: _ =>
      if NodeType_eqb (node_type first) SYMBOL then
        let lhs := value first in
        Ok (flat_map
              (fun expression =>
                 map (fun sequence => (lhs, sequence_rhs (children sequence)))
                     (node_filter (is_kind SEQUENCE) expression))
              (node_filter (is_kind EXPRESSION) production))
      else Raise (AssertFailed "production.children[0].node_type == NodeType.SYMBOL")
  end.

(** [LLTableGenerator.table]. *)
Definition table (bnf : Node) : result (list Production) :=
  rows <- mapM production_rows (node_filter (is_kind PRODUCTION) bnf) ;;
  Ok (concat rows).

End Table.

(* ================================================================== *)
(** * Dictionaries in insertion order *)

Section Dict.
Variables (K V : Type) (eqb : K -> K -> bool).

Definition dict := list (K * V).

Fixpoint dict_get (k : K) (d : dict) : option V :=
  match d with
  | [] => None
  | (k', v) :: d' => if eqb k' k then Some v else dict_get k d'
  end.

(** [d[k] = v]: an existing key keeps its place, a new one goes last. *)
Fixpoint dict_set (k : K) (v : V) (d : dict) : dict :=
  match d with
  | [] => [(k, v)]
  | (k', v') :: d' =>
      if eqb k' k then (k', v) :: d' else (k', v') :: dict_set k v d'
  end.

Definition dict_mem (k : K) (d : dict) : bool :=
  match dict_get k d with Some _ => true | None => false end.
End Dict.

Fixpoint list_eqb {A} (eqb : A -> A -> bool) (l1 l2 : list A) : bool :=
  match l1, l2 with
  | [], [] => true
  | a :: l1', b :: l2' => eqb a b && list_eqb eqb l1' l2'
  | _, _ => false
  end.

Definition lookahead_eqb (a b : lookahead) : bool :=
  match a, b with
  | LStr s, LStr t => String.eqb s t
  | LTup s, LTup t => list_eqb String.eqb s t
  | _, _ => false
  end.

Definition is_nil {A} (l : list A) : bool :=
  match l with [] => true | _ => false end.

(* ================================================================== *)
(** * Derivation search and table assembly *)

Definition item := (list string * list string)%type.

(** One turn of the body of the [while queue] loop of [_matches]. *)
Inductive action :=
| Next (pushed : list item)
| Ret (answer : bool).

(** The inner loop of [_matches] that consumes terminal symbols:
    [None] is [skip_this], [Some i] the index reached. *)
Fixpoint consume (children remaining : list string) : option nat :=
  match children, remaining with
  | c :: children', r :: remaining' =>
      if is_nonterm c then Some 0
      else if String.eqb c r then option_map S (consume children' remaining')
      else None
  | _, _ => Some 0
  end.

Definition Table := dict string (dict lookahead Production).

Section Generator.

(** [self.table], the grammar as a list of productions. *)
Variable grammar : list Production.

(** [LLTableGenerator.nonterminals]. *)
Definition nonterminals : list string := map fst grammar.

(** [LLTableGenerator.terminals]. *)
Definition terminals : list string :=
  flat_map (fun p => filter _is_term (snd p)) grammar.

(** [LLTableGenerator.adjacency_matrix]. *)
Definition adjacency_matrix : dict string (list (list string)) :=
  fold_left
    (fun adj (p : Production) =>
       let (lhs, rhs) := p in
       let adj := if dict_mem String.eqb lhs adj then adj
                  else dict_set String.eqb lhs [] adj in
       match dict_get String.eqb lhs adj with
       | Some l => dict_set String.eqb lhs (l ++ [rhs]) adj
       | None => adj
       end)
    grammar [].

Definition expand (rest remaining : list string) (production : list string)
  : result item :=
  match production with
  | [] => Raise IndexError
  | p0 :: _ =>
      if is_epsilon p0 then Ok (rest, remaining)
      else Ok (production ++ rest, remaining)
  end.

Definition _matches_body (children remaining : list string) : result action :=
  if is_nil children || is_nil remaining then Ok (Next [])
  else
    match consume children remaining with
    | None => Ok (Next [])
    | Some i =>
        let '(children, remaining) :=
          if negb (is_nonterm (hd EmptyString children))
          then (skipn i children, skipn i remaining)
          else (children, remaining) in
        match remaining, children with
        | [], _ => Ok (Ret true)
        | _, [] => Ok (Next [])
        | _, head :: rest =>
            if negb (is_nonterm head) then Ok (Ret false)
            else
              match dict_get String.eqb head adjacency_matrix with
              | None => Raise (KeyError head)
              | Some productions =>
                  pushed <- mapM (expand rest remaining) productions ;;
                  Ok (Next pushed)
              end
        end
    end.

(** The [while queue] loop of [_matches].  The deque is kept with its
    right end first, so [queue.pop()] takes the head of the list and
    [queue.appendleft(x)] adds [x] at its end.  Falling off the end
    of the loop returns Python's [None]. *)
Fixpoint _matches_loop (fuel : nat) (queue : list item)
  : result (option bool) :=
  match fuel with
  | 0 => Timeout
  | S fuel' =>
      match queue with
      | [] => Ok None
      | (children, remaining) :: queue' =>
          match _matches_body children remaining with
          | Ok (Next pushed) => _matches_loop fuel' (queue' ++ pushed)
          | Ok (Ret b) => Ok (Some b)
          | Raise e => Raise e
          | Timeout => Timeout
          end
      end
  end.

(** [LLTableGenerator._matches]. *)
Definition _matches (fuel : nat) (rhs terms : list string)
  : result (option bool) :=
  _matches_loop fuel [(rhs, terms)].

Definition truthy (r : option bool) : bool :=
  match r with Some true => true | _ => false end.

Definition as_tuple (term : lookahead) : list string :=
  match term with
  | LStr s => [s]
  | LTup t => t
  end.

(** [LLTableGenerator.get_production_leading_to_terminal], forced
    into a list as [generate_ktable] does. *)
Definition get_production_leading_to_terminal
    (fuel : nat) (nonterm : string) (term : lookahead)
  : result (list Production) :=
  match dict_get String.eqb nonterm adjacency_matrix with
  | None => Raise (KeyError nonterm)
  | Some rhss =>
      foldM (fun acc rhs =>
               m <- _matches fuel rhs (as_tuple term) ;;
               Ok (if truthy m then acc ++ [(nonterm, rhs)] else acc))
            rhss []
  end.

(** The body of the two nested loops of [generate_ktable], for one
    [term] of [first[nonterm]]. *)
Definition ktable_cell (fuel : nat) (follow : dict string (list lookahead))
    (table : Table) (nonterm : string) (term : lookahead) : result Table :=
  productions <- get_production_leading_to_terminal fuel nonterm term ;;
  match productions with
  | [production] =>
      if lookahead_eqb term (LStr epsilon) then
        match dict_get String.eqb nonterm follow with
        | None => Raise (KeyError nonterm)
        | Some terms2 =>
            foldM (fun (table : Table) term2 =>
                     match dict_get String.eqb nonterm table with
                     | None => Raise (KeyError nonterm)
                     | Some row =>
                         if dict_mem lookahead_eqb term2 row then Ok table
                         else Ok (dict_set String.eqb nonterm
                                    (dict_set lookahead_eqb term2 production row)
                                    table)
                     end)
                  terms2 table
        end
      else
        match dict_get String.eqb nonterm table with
        | None => Raise (KeyError nonterm)
        | Some row =>
            Ok (dict_set String.eqb nonterm
                  (dict_set lookahead_eqb term production row) table)
        end
  | _ => Raise (AmbiguousGrammar nonterm term productions)
  end.

Definition ktable_row (fuel : nat) (follow : dict string (list lookahead))
    (table : Table) (entry : string * list lookahead) : result Table :=
  foldM (fun table term => ktable_cell fuel follow table (fst entry) term)
        (snd entry) table.

Definition empty_table : Table :=
  fold_left (fun t nonterm => dict_set String.eqb nonterm [] t)
            nonterminals [].

(** [LLTableGenerator.generate_ktable]; the argument [k] is unused
    there. *)
Definition generate_ktable (fuel : nat)
    (first follow : dict string (list lookahead)) (k : nat) : result Table :=
  foldM (ktable_row fuel follow) first empty_table.

End Generator.

(* ================================================================== *)
(** * Sub-productions, first sets and the grammar view *)

Definition SubProduction := list string.

Definition sub_eqb (a b : SubProduction) : bool := list_eqb String.eqb a b.

(** Modelled from the spec: [SubProduction.initial_terminals(k)], which
    is not part of the sources at hand, splits off the longest prefix
    of terminals (epsilon counts as one, of length 1) of length at most
    [k].  [_kfirst] adds in a comment that there are more than [k]
    terms when [k = 0] and the sub-production holds epsilon: a leading
    epsilon is then split off alone. *)
Fixpoint take_terminals (k : nat) (symbols : SubProduction)
  : SubProduction * SubProduction :=
  match k, symbols with
  | S k', x :: symbols' =>
      if is_term x || is_epsilon x then
        let (terms, rest) := take_terminals k' symbols' in (x :: terms, rest)
      else ([], symbols)
  | _, _ => ([], symbols)
  end.

Definition initial_terminals (k : nat) (symbols : SubProduction)
  : SubProduction * SubProduction :=
  match k, symbols with
  | 0, x :: symbols' => if is_epsilon x then ([x], symbols') else ([], symbols)
  | _, _ => take_terminals k symbols
  end.

(** Modelled from the spec: [SubProduction.normalized()] drops the
    epsilon symbols, so that a sequence of epsilons alone is left
    empty. *)
Definition normalized (symbols : SubProduction) : SubProduction :=
  filter (fun x => negb (is_epsilon x)) symbols.

(** Modelled from the spec: [FirstSet], a set of sub-productions with
    union and the product that concatenates every pair of members.
    [FirstSet()] holds no sequence: [kfirst] starts its unions from it. *)
Definition FirstSet := list SubProduction.

Definition set_add {A} (eqb : A -> A -> bool) (x : A) (s : list A) : list A :=
  if existsb (eqb x) s then s else s ++ [x].

Definition fs_or (a b : FirstSet) : FirstSet :=
  fold_left (fun s x => set_add sub_eqb x s) b a.

Definition fs_mul (a b : FirstSet) : FirstSet :=
  fold_left (fun s x => set_add sub_eqb x s)
            (flat_map (fun x => map (fun y => x ++ y) b) a) [].

(** Modelled from the spec: [Grammar(table)[symbol]], the right-hand
    sides of [symbol] in order; a symbol without productions, such as a
    terminal, has none. *)
Definition grammar_get (grammar : list Production) (symbol : string)
  : list SubProduction :=
  map snd (filter (fun p : Production => String.eqb (fst p) symbol) grammar).

(** The argument of [_kfirst]: a symbol or a sub-production. *)
Inductive firstarg :=
| Sym (s : string)
| Sub (p : SubProduction).

Definition firstarg_eqb (a b : firstarg) : bool :=
  match a, b with
  | Sym s, Sym t => String.eqb s t
  | Sub p, Sub q => sub_eqb p q
  | _, _ => false
  end.

Definition first_key := (firstarg * nat * bool)%type.

Definition first_key_eqb (a b : first_key) : bool :=
  let '(x, k, u) := a in
  let '(y, j, v) := b in
  firstarg_eqb x y && Nat.eqb k j && Bool.eqb u v.

(** The entry [kfirst] adds for a normalized member. *)
Definition first_entry (normalized : SubProduction) : lookahead :=
  match normalized with
  | [x] => LStr x
  | [] => LStr epsilon
  | _ => LTup normalized
  end.

Section First.

Variable grammar : list Production.

(** [LLTableGenerator._kfirst], as the list of the first sets it
    yields.  Modelled from the spec: the decorator [gen_cache] is not
    part of the sources at hand; a call whose key
    [(symbol, k, allow_underflow)] is that of a call being expanded
    yields nothing.  [active] holds these keys. *)
Fixpoint _kfirst (fuel : nat) (active : list first_key)
    (symbol : firstarg) (k : nat) (allow_underflow : bool)
  : result (list FirstSet) :=
  match fuel with
  | 0 => Timeout
  | S fuel' =>
      let key := (symbol, k, allow_underflow) in
      if existsb (first_key_eqb key) active then Ok []
      else
        let active := key :: active in
        match symbol with
        | Sym s =>
            yielded <- mapM (fun subproduction =>
                               _kfirst fuel' active (Sub subproduction) k
                                       allow_underflow)
                            (grammar_get grammar s) ;;
            Ok (concat yielded)
        | Sub [] => Ok [[]]
        | Sub ((head :: tail) as symbols) =>
            let (terms, rest) := initial_terminals k symbols in
            if Nat.eqb (length terms) 1 && is_epsilon (hd EmptyString terms)
               && Nat.eqb k 0
            then Ok [[terms]]
            else if negb (is_nil terms) && Nat.eqb (length terms) k
                    && (allow_underflow || is_nil rest)
            then Ok [[terms]]
            else if is_nil rest then Ok []
            else if Nat.eqb (length terms) 0 then
              from_head <- _kfirst fuel' active (Sym head) k allow_underflow ;;
              products <-
                mapM (fun i =>
                        first_firsts <- _kfirst fuel' active (Sym head)
                                                (k - i) false ;;
                        per_first <-
                          mapM (fun first_first =>
                                  second_firsts <-
                                    _kfirst fuel' active (Sub tail) i
                                            allow_underflow ;;
                                  Ok (map (fs_mul first_first) second_firsts))
                               first_firsts ;;
                        Ok (concat per_first))
                     (seq 1 k) ;;
              Ok (from_head ++ concat products)
            else
              rest_kfirst <- _kfirst fuel' active (Sub rest)
                                     (k - length terms) allow_underflow ;;
              Ok [fs_mul [terms] (fold_left fs_or rest_kfirst [])]
        end
  end.

(** The keys of [F] in [kfirst] and [kfollow]: the left-hand sides in
    order of first appearance. *)
Definition lhs_keys : list string :=
  fold_left (fun keys (p : Production) => set_add String.eqb (fst p) keys)
            grammar [].

(** The body of the loops of [kfirst] for one [i] and one [symbol]. *)
Definition kfirst_symbol (fuel : nat) (i : nat)
    (F : dict string (list lookahead)) (symbol : string)
  : result (dict string (list lookahead)) :=
  yielded <- _kfirst fuel [] (Sym symbol) i true ;;
  let first_set := fold_left fs_or yielded [] in
  foldM (fun F subproduction =>
           match dict_get String.eqb symbol F with
           | None => Raise (KeyError symbol)
           | Some entries =>
               Ok (dict_set String.eqb symbol
                     (set_add lookahead_eqb
                        (first_entry (normalized subproduction)) entries)
                     F)
           end)
        first_set F.

(** [LLTableGenerator.kfirst]. *)
Definition kfirst (fuel : nat) (k : nat)
  : result (dict string (list lookahead)) :=
  foldM (fun F i => foldM (kfirst_symbol fuel i) lhs_keys F)
        (seq 1 k)
        (map (fun x => (x, [])) lhs_keys).

(** [LLTableGenerator.first]: the bare strings of [kfirst(1)]. *)
Definition first (fuel : nat) : result (dict string (list string)) :=
  F <- kfirst fuel 1 ;;
  Ok (map (fun kv : string * list lookahead =>
             (fst kv,
              flat_map (fun x => match x with
                                 | LStr s => [s]
                                 | LTup _ => []
                                 end) (snd kv)))
          F).

End First.

(* ================================================================== *)
(** * Follow sets *)

(** Modelled from the spec: the class [FollowSet] is not part of the
    sources at hand.  A follow set has the nonterminal it was built
    for, the nonterminal whose FOLLOW it waits for ([follow], the same
    one unless stated), its [k], the sequences that are resolved
    ([completes]), the resolved but short ones ([additional]), the
    prefixes that still wait for the FOLLOW of [follow], and the two
    flags. *)
Record FollowSet := mkFollowSet {
  owner : string;
  follow : string;
  fs_k : nat;
  partials : list SubProduction;
  completes : list SubProduction;
  additional : list SubProduction;
  is_complete : bool;
  changed : bool
}.

(** [FollowSet.complete(seqs, owner, k)]. *)
Definition FollowSet_complete (seqs : list SubProduction) (owner : string)
    (k : nat) : FollowSet :=
  {| owner := owner; follow := owner; fs_k := k;
     partials := []; completes := seqs; additional := [];
     is_complete := true; changed := false |}.

(** [FollowSet.partial(seqs, owner, k)]. *)
Definition FollowSet_partial (seqs : list SubProduction) (owner : string)
    (k : nat) : FollowSet :=
  {| owner := owner; follow := owner; fs_k := k;
     partials := seqs; completes := []; additional := [];
     is_complete := false; changed := false |}.

Definition set_union {A} (eqb : A -> A -> bool) (a b : list A) : list A :=
  fold_left (fun s x => set_add eqb x s) b a.

(** [FollowSet.upgrade(a, b)]: the join of two follow sets of one
    owner and [follow]. *)
Definition FollowSet_upgrade (a b : FollowSet) : FollowSet :=
  {| owner := owner a; follow := follow a; fs_k := fs_k a;
     partials := set_union sub_eqb (partials a) (partials b);
     completes := set_union sub_eqb (completes a) (completes b);
     additional := set_union sub_eqb (additional a) (additional b);
     is_complete := is_complete a || is_complete b;
     changed := changed a || changed b |}.

Definition set_changed (c : bool) (f : FollowSet) : FollowSet :=
  {| owner := owner f; follow := follow f; fs_k := fs_k f;
     partials := partials f; completes := completes f;
     additional := additional f; is_complete := is_complete f;
     changed := c |}.

(* ================================================================== *)
(** * Loops with an iteration guard *)

Section Guarded.
Variables (St Y : Type).
Variable message : string.
Variable running : St -> bool.
Variable body : St -> result (St * list Y).

(** [while running(s): if not guard: raise Exception(message);
    guard -= 1; body], with what the body yields. *)
Fixpoint guarded_while (guard : nat) (s : St) : result (St * list Y) :=
  if running s then
    match guard with
    | 0 => Raise (Exception message)
    | S guard' =>
        '(s', ys) <- body s ;;
        '(s'', ys') <- guarded_while guard' s' ;;
        Ok (s'', ys ++ ys')
    end
  else Ok (s, []).

(** The same loop without its guard, cut after [n] turns: the state
    reached, whether the loop is over, and what was yielded. *)
Fixpoint turns (n : nat) (s : St) : result (St * list Y) :=
  match n with
  | 0 => Ok (s, [])
  | S n' =>
      if running s then
        '(s', ys) <- body s ;;
        '(s'', ys') <- turns n' s' ;;
        Ok (s'', ys ++ ys')
      else Ok (s, [])
  end.
End Guarded.

(* ================================================================== *)
(** * FOLLOW_k *)

Fixpoint last_nonzero_from (i : nat) (permutation : list nat) : option nat :=
  match permutation with
  | [] => None
  | n :: permutation' =>
      match last_nonzero_from (S i) permutation' with
      | Some j => Some j
      | None => if Nat.eqb n 0 then None else Some i
      end
  end.

(** The index [last_nonzero] of [_kfollow_resolve_permutation];
    [None] stands for [-1]. *)
Definition last_nonzero (permutation : list nat) : option nat :=
  last_nonzero_from 0 permutation.

Definition is_index (i : nat) (j : option nat) : bool :=
  match j with
  | Some n => Nat.eqb i n
  | None => false
  end.

(** What the stack loop at the end of [_kfollow_resolve_permutation]
    yields: one concatenation for each choice of a member in every
    list, the later members of a list first. *)
Fixpoint zip_up (curr : SubProduction) (unzipped : list (list SubProduction))
  : list SubProduction :=
  match unzipped with
  | [] => [curr]
  | choices :: unzipped' =>
      flat_map (fun terminal => zip_up (curr ++ terminal) unzipped')
               (rev choices)
  end.

(** The stack loop itself, the top of the stack first. *)
Fixpoint zip_stack (fuel : nat) (unzipped : list (list SubProduction))
    (stack : list (SubProduction * nat)) : result (list SubProduction) :=
  match fuel with
  | 0 => Timeout
  | S fuel' =>
      match stack with
      | [] => Ok []
      | (curr, i) :: stack' =>
          if Nat.eqb i (length unzipped) then
            yielded <- zip_stack fuel' unzipped stack' ;;
            Ok (curr :: yielded)
          else
            match nth_error unzipped i with
            | None => Raise IndexError
            | Some choices =>
                zip_stack fuel' unzipped
                  (rev (map (fun terminal => (curr ++ terminal, S i)) choices)
                     ++ stack')
            end
      end
  end.

(** The turns the stack loop takes below one entry of the stack. *)
Fixpoint zip_size (unzipped : list (list SubProduction)) : nat :=
  match unzipped with
  | [] => 1
  | choices :: unzipped' => 1 + length choices * zip_size unzipped'
  end.

Definition lone_epsilon (subproduction : SubProduction) : bool :=
  Nat.eqb (length subproduction) 1 && String.eqb (hd EmptyString subproduction) epsilon.

Definition list_set {A} (i : nat) (x : A) (l : list A) : list A :=
  firstn i l ++ match skipn i l with
                | [] => []
                | _ :: rest => x :: rest
                end.

Section Follow.

Variable grammar : list Production.

(** [self.start]. *)
Variable start : string.

(** [Grammar.get_exact(symbol, n)], the derivations of [symbol] of
    exactly [n] terminals; the class [Grammar] is not part of the
    sources at hand. *)
Variable get_exact : string -> nat -> list SubProduction.

(** [FollowSet.append]: [fs_append f other] is [f] after
    [f.append(other)]. *)
Variable fs_append : FollowSet -> FollowSet -> FollowSet.

(** The fuel of the calls of [_kfirst]. *)
Variable fuel : nat.

(** The derivations of the symbol at index [i] of the permutation. *)
Definition exact_length_productions (rhs : list string) (base_index : nat)
    (current_permutation : list nat) (allow_firstset : bool) (i : nat)
  : result (list SubProduction) :=
  match nth_error rhs (i + base_index) with
  | None => Raise IndexError
  | Some symbol =>
      let n := nth i current_permutation 0 in
      if is_index i (last_nonzero current_permutation)
         && negb (is_term symbol) && allow_firstset
      then
        yielded <- _kfirst grammar fuel [] (Sym symbol) n true ;;
        Ok (filter (fun subproduction => negb (lone_epsilon subproduction))
                   (concat yielded))
      else Ok (get_exact symbol n)
  end.

(** The first loop of [_kfollow_resolve_permutation]; [None] is its
    early [return]. *)
Fixpoint unzip_permutations (rhs : list string) (base_index : nat)
    (current_permutation : list nat) (allow_firstset : bool)
    (indices : list nat) : result (option (list (list SubProduction))) :=
  match indices with
  | [] => Ok (Some [])
  | i :: indices' =>
      all <- exact_length_productions rhs base_index current_permutation
                                      allow_firstset i ;;
      if is_nil all then Ok None
      else
        rest <- unzip_permutations rhs base_index current_permutation
                                   allow_firstset indices' ;;
        Ok (option_map (cons all) rest)
  end.

(** [LLTableGenerator._kfollow_resolve_permutation], as the list of
    what it yields. *)
Definition _kfollow_resolve_permutation (production : Production)
    (base_index : nat) (current_permutation : list nat)
    (allow_firstset : bool) : result (list SubProduction) :=
  let (lhs, rhs) := production in
  if negb (Nat.ltb base_index (length rhs))
  then Raise (AssertFailed "The permutation should have some symbols")
  else
    unzipped <- unzip_permutations rhs base_index current_permutation
                  allow_firstset (seq 0 (length current_permutation)) ;;
    match unzipped with
    | None => Ok []
    | Some unzipped_permutations => Ok (zip_up [] unzipped_permutations)
    end.

(** One turn of the [while queue] loop of [_kfollow_permutations].
    The queue is a Python list used as a stack; it is kept with its
    last element first, so [queue.pop()] takes the head and
    [queue.append(x)] is a cons. *)
Definition permutations_body (production : Production) (base_index k : nat)
    (queue : list (list nat)) : result (list (list nat) * list FollowSet) :=
  match queue with
  | [] => Raise IndexError
  | current_permutation :: queue =>
      let (lhs, rhs) := production in
      let at_max_k := Nat.eqb (list_sum current_permutation) k in
      let assigned_each_symbol_value :=
        Nat.leb (length rhs - base_index) (length current_permutation) in
      if at_max_k then
        seqs <- _kfollow_resolve_permutation production base_index
                  current_permutation true ;;
        Ok (queue, [FollowSet_complete seqs lhs k])
      else if assigned_each_symbol_value then
        seqs <- _kfollow_resolve_permutation production base_index
                  current_permutation false ;;
        Ok (queue, [FollowSet_partial seqs lhs k])
      else
        Ok (rev (map (fun i => current_permutation ++ [i])
                     (seq 0 (k - list_sum current_permutation + 1)))
              ++ queue, [])
  end.

Definition initial_queue (k : nat) : list (list nat) :=
  rev (map (fun i => [i]) (seq 0 (k + 1))).

(** [LLTableGenerator._kfollow_permutations], as the list of what it
    yields. *)
Definition _kfollow_permutations (production : Production)
    (base_index k : nat) : result (list FollowSet) :=
  let (lhs, rhs) := production in
  if Nat.eqb base_index (length rhs)
  then Ok [FollowSet_partial [[]] lhs k]
  else
    '(_, yielded) <-
      guarded_while "Reached max iteration."
        (fun queue => negb (is_nil queue))
        (permutations_body production base_index k)
        500 (initial_queue k) ;;
    Ok yielded.

(** The indices at which [symbol] occurs in [rhs], from [i] on. *)
Fixpoint occurrences (symbol : string) (i : nat) (rhs : list string)
  : list nat :=
  match rhs with
  | [] => []
  | s :: rhs' =>
      if String.eqb s symbol then i :: occurrences symbol (S i) rhs'
      else occurrences symbol (S i) rhs'
  end.

(** [LLTableGenerator._kfollow]. *)
Definition _kfollow (symbol : string) (k : nat) : result (list FollowSet) :=
  yielded <-
    mapM (fun production : Production =>
            per_occurrence <-
              mapM (fun i => _kfollow_permutations production (i + 1) k)
                   (occurrences symbol 0 (snd production)) ;;
            Ok (concat per_occurrence))
         grammar ;;
  Ok (concat yielded).

Definition Lookup := dict string (list FollowSet).

Definition lookup_at (lookup : Lookup) (symbol : string) (i : nat)
  : result FollowSet :=
  match dict_get String.eqb symbol lookup with
  | None => Raise (KeyError symbol)
  | Some followsets =>
      match nth_error followsets i with
      | None => Raise IndexError
      | Some followset => Ok followset
      end
  end.

(** The follow sets are objects that the fixpoint changes in place:
    the object at index [i] of [lookup[symbol]] becomes [f]. *)
Definition lookup_store (lookup : Lookup) (symbol : string) (i : nat)
    (f : FollowSet) : Lookup :=
  match dict_get String.eqb symbol lookup with
  | None => lookup
  | Some followsets =>
      dict_set String.eqb symbol (list_set i f followsets) lookup
  end.

(** The body of [for followset in followsets] in
    [_kfollow_fixpoint_solution], for the object at index [i] of
    [followset_lookup[symbol]]. *)
Definition fixpoint_followset (symbol : string) (lookup : Lookup) (i : nat)
  : result Lookup :=
  followset <- lookup_at lookup symbol i ;;
  let lookup := lookup_store lookup symbol i (set_changed false followset) in
  if is_complete followset then Ok lookup
  else
    match dict_get String.eqb (follow followset) lookup with
    | None => Raise (KeyError (follow followset))
    | Some others =>
        foldM (fun lookup j =>
                 other <- lookup_at lookup (follow followset) j ;;
                 current <- lookup_at lookup symbol i ;;
                 Ok (lookup_store lookup symbol i (fs_append current other)))
              (seq 0 (length others)) lookup
    end.

(** One turn of the [while changed] loop. *)
Definition fixpoint_body (state : Lookup * bool)
  : result ((Lookup * bool) * list unit) :=
  let (lookup, _) := state in
  state' <-
    foldM (fun (st : Lookup * bool) (symbol : string) =>
             let (lookup, changed_so_far) := st in
             match dict_get String.eqb symbol lookup with
             | None => Raise (KeyError symbol)
             | Some followsets =>
                 lookup <- foldM (fixpoint_followset symbol)
                                 (seq 0 (length followsets)) lookup ;;
                 match dict_get String.eqb symbol lookup with
                 | None => Raise (KeyError symbol)
                 | Some followsets =>
                     Ok (lookup,
                         changed_so_far || existsb changed followsets)
                 end
             end)
          (map fst lookup) (lookup, false) ;;
  Ok (state', []).

(** [LLTableGenerator._kfollow_fixpoint_solution]. *)
Definition _kfollow_fixpoint_solution (followset_lookup : Lookup)
  : result Lookup :=
  '(state, _) <-
    guarded_while "Reached iteration limit during fixpoint solution."
      (fun state : Lookup * bool => snd state)
      fixpoint_body
      500 (followset_lookup, true) ;;
  Ok (fst state).

(** [F[symbol].append(followset)]. *)
Definition lookup_append (F : Lookup) (symbol : string) (f : FollowSet)
  : result Lookup :=
  match dict_get String.eqb symbol F with
  | None => Raise (KeyError symbol)
  | Some followsets => Ok (dict_set String.eqb symbol (followsets ++ [f]) F)
  end.

Definition follow_entry (subproduction : SubProduction) : lookahead :=
  match subproduction with
  | [item] => LStr item
  | _ => LTup subproduction
  end.

(** [reduce(FollowSet.upgrade, followsets)] on a list that is not
    empty. *)
Definition reduce_upgrade (followsets : list FollowSet) : result FollowSet :=
  match followsets with
  | [] => Raise (Exception "reduce() of empty iterable with no initial value")
  | f :: followsets' => Ok (fold_left FollowSet_upgrade followsets' f)
  end.

(** The entries the last loop of [kfollow] adds for one symbol. *)
Definition flatten_symbol (followsets : list FollowSet)
  : result (list lookahead) :=
  let follows :=
    fold_left (fun s (f : FollowSet) => set_add String.eqb (follow f) s)
              followsets [] in
  foldM (fun entries fo =>
           followset <-
             reduce_upgrade
               (filter (fun f : FollowSet => String.eqb (follow f) fo)
                       followsets) ;;
           Ok (fold_left
                 (fun entries subproduction =>
                    set_add lookahead_eqb (follow_entry subproduction) entries)
                 (set_union sub_eqb (additional followset)
                                    (completes followset))
                 entries))
        follows [].

Definition initial_start : FollowSet := FollowSet_complete [["$"]] start 1.

(** The loops of [kfollow] that collect the follow sets of every
    symbol for one [i]. *)
Definition collect_followsets (i : nat) (F : Lookup) : result Lookup :=
  foldM (fun F symbol =>
           followsets <- _kfollow symbol i ;;
           foldM (fun F f => lookup_append F symbol f) followsets F)
        (map fst F) F.

(** The body of [for i in range(1, k + 1)] in [kfollow]. *)
Definition kfollow_round (F : Lookup) (i : nat) : result Lookup :=
  F <- collect_followsets i F ;;
  _kfollow_fixpoint_solution F.

(** The last loop of [kfollow]: a symbol without entry gets no key. *)
Definition flatten_lookup (F : Lookup)
  : result (dict string (list lookahead)) :=
  foldM (fun ret (entry : string * list FollowSet) =>
           entries <- flatten_symbol (snd entry) ;;
           Ok (if is_nil entries then ret
               else ret ++ [(fst entry, entries)]))
        F [].

(** [LLTableGenerator.kfollow]. *)
Definition kfollow (k : nat) : result (dict string (list lookahead)) :=
  let F : Lookup := map (fun x => (x, [])) (lhs_keys grammar) in
  F <- lookup_append F start initial_start ;;
  F <- foldM kfollow_round (seq 1 k) F ;;
  flatten_lookup F.

(** [LLTableGenerator.follow]: the bare strings of [kfollow(1)]. *)
Definition follow_strings : result (dict string (list string)) :=
  F <- kfollow 1 ;;
  Ok (map (fun kv : string * list lookahead =>
             (fst kv,
              flat_map (fun x => match x with
                                 | LStr s => [s]
                                 | LTup _ => []
                                 end) (snd kv)))
          F).

End Follow.

(* ================================================================== *)
(** * The collaborators that are not at hand, after the spec *)

(** Modelled from the spec: [Grammar.get_exact(symbol, n)] enumerates
    the derivations of [symbol] that yield exactly [n] terminals, a
    terminal counting 1 and epsilon 0, by a search of bounded depth
    that drops the branches it cannot resolve. *)
Fixpoint exact_derivations (grammar : list Production) (depth : nat)
    (symbol : string) (n : nat) : list SubProduction :=
  if is_term symbol then (if Nat.eqb n 1 then [[symbol]] else [])
  else if is_epsilon symbol then (if Nat.eqb n 0 then [[]] else [])
  else
    match depth with
    | 0 => []
    | S depth' =>
        flat_map
          (fun rhs =>
             (fix along (rhs : list string) (n : nat) : list SubProduction :=
                match rhs with
                | [] => if Nat.eqb n 0 then [[]] else []
                | s :: rest =>
                    flat_map
                      (fun i =>
                         flat_map
                           (fun a => map (fun b => a ++ b) (along rest (n - i)))
                           (exact_derivations grammar depth' s i))
                      (seq 0 (n + 1))
                end) rhs n)
          (grammar_get grammar symbol)
    end.

Definition spec_get_exact (grammar : list Production) (symbol : string)
    (n : nat) : list SubProduction :=
  set_union sub_eqb []
    (exact_derivations grammar ((n + 1) * (length grammar + 1)) symbol n).

(** Modelled from the spec: [FollowSet.append(other)] extends every
    prefix the set holds with every sequence of [other], cut at [k];
    the sequences that reach length [k] go to [completes], the shorter
    ones to [additional], and [changed] is set when one of them is
    new. *)
Definition spec_append (f other : FollowSet) : FollowSet :=
  let candidates :=
    flat_map (fun prefix =>
                map (fun s => firstn (fs_k f) (prefix ++ s))
                    (completes other ++ additional other))
             (partials f) in
  let full := filter (fun s => Nat.eqb (length s) (fs_k f)) candidates in
  let short := filter (fun s => negb (Nat.eqb (length s) (fs_k f))) candidates in
  let is_new (known : list SubProduction) (s : SubProduction) :=
    negb (existsb (sub_eqb s) known) in
  {| owner := owner f; follow := follow f; fs_k := fs_k f;
     partials := partials f;
     completes := set_union sub_eqb (completes f) full;
     additional := set_union sub_eqb (additional f) short;
     is_complete := is_complete f;
     changed := changed f
                || existsb (is_new (completes f)) full
                || existsb (is_new (additional f)) short |}.

(* ================================================================== *)
(** * The emitted source *)

(** [PARSE_EXCEPTION]. *)
Definition PARSE_EXCEPTION : string :=
  (nl ++ "class ParseException(Exception):" ++ nl ++ "    pass" ++ nl)%string.

(** [PARSE.strip(<newline>).format(start_symbol=...)], line by line:
    the doubled braces of the template are single here and the field
    [start_symbol] is filled in. *)
Definition PARSE_lines (start_symbol : string) : list string :=
  [ "    def _fill_buff(self, token_buff):";
    "        # type: (Tuple[BuffToken, ...]) -> Tuple[BuffToken, ...]";
    "        new_buff = token_buff";
    "        while len(new_buff) < self.k:";
    "            try:";
    "                new_buff += (next(self.tokens),)";
    "            except StopIteration:";
    "                if None not in token_buff:";
    "                    new_buff += (None,)";
    "                break";
    "        return new_buff";
    EmptyString;
    "    def _behead(self, buff):";
    "        # type: (Tuple[T, ...]) -> Tuple[Optional[T], Tuple[T, ...]]";
    "        head = None";
    "        if buff:";
    "            head = buff[0]";
    "        return head, tuple([x for x in buff[1:]])";
    EmptyString;
    "    def _get_token_type_buff(self, token_buff):";
    "        # type: (Tuple[BuffToken, ...]) -> Tuple[BuffTokenType, ...]";
    ("        return tuple([x.token_type if x else " ++ dq ++ "$" ++ dq ++ " for x in token_buff])")%string;
    EmptyString;
    "    def parse(self):";
    "        # type: () -> Node";
    ("        root = Node(node_type=" ++ start_symbol ++ ")")%string;
    "        stack = deque([root])";
    "        token_buff = self._fill_buff(tuple())";
    "        token_type_buff = self._get_token_type_buff(token_buff)";
    "        while stack:";
    "            curr = stack.popleft()";
    ("            if curr.node_type == " ++ dq ++ "ε" ++ dq ++ ":")%string;
    "                continue";
    EmptyString;
    "            # We're at a terminal node; we should be able to consume";
    "            # from the token stream.";
    "            if isinstance(curr.node_type, TokenType):";
    "                if (";
    "                    len(token_type_buff) > 0";
    "                    and curr.node_type == token_type_buff[0]";
    "                ):";
    "                    curr.value, token_buff = self._behead(token_buff)";
    "                    token_buff = self._fill_buff(token_buff)";
    "                    token_type_buff = self._get_token_type_buff(token_buff)";
    "                    continue";
    "                else:";
    "                    raise ParseException(";
    ("                        " ++ dq ++ "Expected token type {}, but got {}" ++ dq ++ ".format(")%string;
    "                            token_type_buff, curr.node_type";
    "                        )";
    "                    )";
    "            if curr.node_type not in self.table:";
    "                raise ParseException(";
    ("                    " ++ dq ++ "Expected {} to be in grammar, but was not." ++ dq ++ ".format(")%string;
    "                        curr,";
    "                    )";
    "                )";
    EmptyString;
    "            # Drop off the end of the token lookahead to see if a shorter";
    "            # version is in the table.";
    "            index = tuple(token_type_buff)";
    "            if len(index) == 1:";
    "                index = index[0]";
    "            while index and index not in self.table[curr.node_type]:";
    "                if isinstance(index, str):";
    "                    index = None";
    "                    break";
    "                index = index[:-1]";
    "                if len(index) == 1:";
    "                    index = index[0]";
    "            if not index:";
    "                raise ParseException(";
    ("                    " ++ dq ++ "Expected {} to be in a production " ++ dq)%string;
    ("                    " ++ dq ++ "of {}, but was not." ++ dq ++ ".format(token_buff, curr)")%string;
    "                )";
    "            lhs, rhs = self.table[curr.node_type][index]";
    EmptyString;
    "            # `extendleft` appends in reverse order,";
    "            # so we have to reverse before extending.";
    "            # Otherwise, right-recursive productions will";
    "            # never finish parsing.";
    "            children = [Node(x) for x in rhs]  # type: ignore";
    "            curr.children = children";
    "            stack.extendleft(children[::-1])";
    "        return root" ].

(** [str(n)] for a natural number. *)
Definition decimal (n : nat) : string :=
  NilEmpty.string_of_uint (Nat.to_uint n).

Fixpoint zeros (n : nat) : string :=
  match n with
  | 0 => EmptyString
  | S n' => String "0" (zeros n')
  end.

(** A number in at least [width] digits, as [%0<width>d] writes it. *)
Definition padded (width n : nat) : string :=
  (zeros (width - String.length (decimal n)) ++ decimal n)%string.

(** What [datetime.datetime.now()] reads off the clock. *)
Record datetime := mkDatetime {
  year : nat;
  month : nat;
  day : nat;
  hour : nat;
  minute : nat;
  second : nat;
  microsecond : nat
}.

(** [str(d)] for a [datetime]: the ISO format with a space, the
    microseconds left out when they are zero. *)
Definition datetime_str (d : datetime) : string :=
  (padded 4 (year d) ++ "-" ++ padded 2 (month d) ++ "-" ++ padded 2 (day d)
   ++ " " ++ padded 2 (hour d) ++ ":" ++ padded 2 (minute d)
   ++ ":" ++ padded 2 (second d)
   ++ (if Nat.eqb (microsecond d) 0 then EmptyString
       else "." ++ padded 6 (microsecond d)))%string.

Definition spaces (n : nat) : string :=
  string_of_list_ascii (repeat " "%char n).

(** [symbol[1:-1]]. *)
Definition strip_ends (symbol : string) : string :=
  substring 1 (String.length symbol - 2) symbol.

Section Emit.

(** The builtin [repr] on strings. *)
Variable repr : string -> string.

Definition normalize_str (symbol : string) : string :=
  if startswith_char dquote symbol && endswith_char dquote symbol
  then strip_ends symbol
  else repr symbol.

(** [normalize_for_table]. *)
Definition normalize_for_table (symbol : lookahead) : string :=
  match symbol with
  | LStr s => normalize_str s
  | LTup t => ("(" ++ join ", " (map normalize_str t) ++ ")")%string
  end.

Definition production_lines (col : lookahead * Production) : list string :=
  let '(col_value, (lhs, rhs)) := col in
  [ (spaces 12 ++ normalize_for_table col_value ++ ": (")%string;
    (spaces 16 ++ normalize_for_table (LStr lhs) ++ ",")%string;
    (spaces 16 ++ "[")%string ]
  ++ map (fun value =>
            (spaces 20 ++ normalize_for_table (LStr value) ++ ",")%string) rhs
  ++ [ (spaces 16 ++ "]")%string;
       (spaces 12 ++ "),")%string ].

Definition row_lines (row : string * dict lookahead Production)
  : list string :=
  [ (spaces 8 ++ normalize_for_table (LStr (fst row)) ++ ": {")%string ]
  ++ flat_map production_lines (snd row)
  ++ [ (spaces 8 ++ "},")%string ].

(** The lines that [generate_parser] joins, for the clock reading
    [now]. *)
Definition parser_lines (now : datetime) (imports : option string) (k : nat)
    (start : string) (table : Table) : list string :=
  let imports_or_blank :=
    match imports with
    | None => EmptyString
    | Some EmptyString => EmptyString
    | Some text => (nl ++ text ++ nl)%string
    end in
  [ ("# Generated on " ++ datetime_str now)%string;
    EmptyString;
    "from collections import deque";
    "from typing import Dict, List, Iterator, Optional, Tuple, TypeVar, Union";
    imports_or_blank;
    PARSE_EXCEPTION;
    EmptyString;
    EmptyString;
    ("T = TypeVar(" ++ dq ++ "T" ++ dq ++ ")")%string;
    EmptyString;
    EmptyString;
    ("# Types which allow for sentinal values None and "
       ++ dq ++ "$" ++ dq)%string;
    "BuffToken = Optional[Token]";
    "BuffTokenType = Union[TokenType, str]";
    "class Parser(object):";
    "    table = {" ]
  ++ flat_map row_lines table
  ++ [ (spaces 4 ++ "}")%string;
       EmptyString;
       "    def __init__(self, tokens):";
       "        # type: (Iterator[Token]) -> None";
       "        self.tokens = tokens";
       ("        self.k = " ++ decimal k)%string;
       EmptyString;
       join nl (PARSE_lines (repr start)) ].

(** [Parser().parse] of the BNF parser. *)
Variable parse : string -> result Node.

(** [Node.filter] and [Node.is_start] of the BNF parser. *)
Variable node_filter : (Node -> bool) -> Node -> list Node.
Variable is_start : Node -> bool.

(** [Grammar(table).get_exact] and [FollowSet.append]. *)
Variable get_exact : list Production -> string -> nat -> list SubProduction.
Variable fs_append : FollowSet -> FollowSet -> FollowSet.

(** The fuel of the searches. *)
Variable fuel : nat.

(** [generate_parser].  The clock is read once, for the first line:
    [now] is what it reads. *)
Definition generate_parser (now : datetime) (grammar : string)
    (imports : option string) (k : nat) : result string :=
  bnf <- parse grammar ;;
  start <- match node_filter is_start bnf with
           | [] => Raise StopIteration
           | node :: _ => Ok (value node)
           end ;;
  productions <- table node_filter bnf ;;
  first <- kfirst productions fuel k ;;
  follow <- kfollow productions start (get_exact productions) fs_append
                    fuel k ;;
  table <- generate_ktable productions fuel first follow k ;;
  Ok (join nl (parser_lines now imports k start table)).

End Emit.



(* ================================================================== *)
(** * An instance of the collaborators, for the examples *)

(** The AST of [<S> ::= <A> <B>], [<A> ::= "a"], [<B> ::= "b"], the
    right-hand sides being sequences under an expression. *)
Definition rule (lhs : string) (rhs : list Node) : Node :=
  mkNode PRODUCTION EmptyString
    [ mkNode SYMBOL lhs [];
      mkNode EXPRESSION EmptyString [ mkNode SEQUENCE EmptyString rhs ] ].


(** The terminal ["a\\b\"], with a doubled and a lone backslash, and
    the AST of [<S> ::= <A> "a\\b\"]. *)
Definition escaped_terminal : Node :=
  mkNode TERMINAL (dq ++ "a\\b\" ++ dq) [].

Definition escaped_ast : Node :=
  mkNode GRAMMAR EmptyString
    [ mkNode START "S" [];
      rule "S" [ mkNode SYMBOL "A" []; escaped_terminal ] ].

(** A traversal for the examples: the children first, left to right,
    then the node. *)
Fixpoint walk (accept : Node -> bool) (node : Node) : list Node :=
  let 'mkNode _ _ cs := node in
  (fix over (cs : list Node) : list Node :=
     match cs with
     | [] => []
     | c :: cs' => walk accept c ++ over cs'
     end) cs
  ++ (if accept node then [node] else []).





Definition sequence_grammar : list Production :=
  [("S", ["A"; "B"]); ("A", [quoted "a"]); ("B", [quoted "b"])].

(* ================================================================== *)
(** * Grammars and measures used in the statements *)

(** [<S> ::= <S> "a" | "b"]. *)
Definition left_recursive_grammar : list Production :=
  [("S", ["S"; quoted "a"]); ("S", [quoted "b"])].

(** Every right-hand side begins with a terminal. *)
Definition terminal_led (grammar : list Production) : bool :=
  forallb (fun p : Production =>
             match snd p with
             | t :: _ => is_term t
             | [] => false
             end) grammar.

(** [<S> ::= <A> <S> | "b"], [<A> ::= "a"]: recursive, but not on the
    left, and with a right-hand side that begins with a nonterminal. *)
Definition right_recursive_grammar : list Production :=
  [("S", ["A"; "S"]); ("S", [quoted "b"]); ("A", [quoted "a"])].

(** The nonterminals that the search of [_matches] can expand away
    without consuming a lookahead symbol: those with a right-hand side
    that begins with epsilon, which [_matches] drops as a whole, or
    that holds nothing but such nonterminals. *)
Inductive expands_away (grammar : list Production) : string -> Prop :=
| away_epsilon N x rest :
    In (N, x :: rest) grammar -> is_epsilon x = true ->
    expands_away grammar N
| away_all N x rest :
    In (N, x :: rest) grammar -> all_away grammar (x :: rest) ->
    expands_away grammar N
with all_away (grammar : list Production) : list string -> Prop :=
| all_away_nil : all_away grammar []
| all_away_cons y ys :
    is_nonterm y = true -> expands_away grammar y -> all_away grammar ys ->
    all_away grammar (y :: ys).

Scheme expands_away_both := Minimality for expands_away Sort Prop
  with all_away_both := Minimality for all_away Sort Prop.

(** [M] is a left corner of [N]: a nonterminal of a right-hand side of
    [N] before which stand only nonterminals that can be expanded away,
    so that expanding [N] can bring [M] to the head of the children
    before any lookahead symbol is consumed. *)
Definition left_corner (grammar : list Production) (N M : string) : Prop :=
  exists before after,
    In (N, before ++ M :: after) grammar
    /\ all_away grammar before
    /\ is_nonterm M = true.

(** One or more steps of a relation. *)
Inductive reaches (R : string -> string -> Prop) : string -> string -> Prop :=
| reaches_step N M : R N M -> reaches R N M
| reaches_more N M L : R N M -> reaches R M L -> reaches R N L.

(** Left recursion: a nonterminal that reaches itself through left
    corners. *)
Definition left_recursive (grammar : list Production) : Prop :=
  exists N, reaches (left_corner grammar) N N.

Section Ranking.

(** A set of nonterminals taken to be those that can be expanded
    away. *)
Variable nullable : string -> bool.

(** The symbols of a sequence that the search can bring to the head of
    its children before it consumes a lookahead symbol: the leading
    nonterminals, up to the first one that cannot be expanded away.
    Terminals and epsilon, which the search compares with the
    lookahead, end the run. *)
Fixpoint exposed (symbols : list string) : list string :=
  match symbols with
  | [] => []
  | x :: rest =>
      if is_nonterm x
      then x :: (if nullable x then exposed rest else [])
      else []
  end.

Definition all_nullable (symbols : list string) : bool :=
  forallb (fun y => is_nonterm y && nullable y) symbols.

(** A right-hand side that the search expands away. *)
Definition vanishes (rhs : list string) : bool :=
  match rhs with
  | [] => false
  | x :: _ => is_epsilon x || all_nullable rhs
  end.

(** [nullable] holds of every nonterminal with a right-hand side that
    vanishes. *)
Definition closed_under_vanishing (grammar : list Production) : bool :=
  forallb (fun p : Production => implb (vanishes (snd p)) (nullable (fst p)))
          grammar.

(** The left corners of [N] with respect to [nullable], as a list. *)
Definition left_corners (grammar : list Production) (N : string)
  : list string :=
  flat_map (fun p : Production =>
              if String.eqb (fst p) N then exposed (snd p) else [])
           grammar.

Variable rank : string -> nat.

(** A ranking of the nonterminals in which each one ranks above its
    left corners. *)
Definition ranked (grammar : list Production) : bool :=
  closed_under_vanishing grammar
  && forallb (fun p : Production =>
                forallb (fun M => Nat.ltb (rank M) (rank (fst p)))
                        (exposed (snd p)))
             grammar.

Definition longest_rhs (grammar : list Production) : nat :=
  list_max (map (fun p : Production => length (snd p)) grammar).

(** The expansions without consumption that a sequence of children can
    still cause. *)
Definition stack_weight (grammar : list Production) (children : list string)
  : nat :=
  list_sum (map (fun M => S (longest_rhs grammar) ^ rank M)
                (exposed children)).

End Ranking.

(** The nonterminals that can be expanded away, found in rounds: a
    round adds the left-hand sides of the right-hand sides that vanish
    by what the rounds before have found. *)
Definition known (names : list string) (N : string) : bool :=
  existsb (String.eqb N) names.

Definition vanishing_productions (grammar : list Production)
    (names : list string) : list Production :=
  filter (fun p : Production => vanishes (known names) (snd p)) grammar.

Fixpoint vanishing (grammar : list Production) (rounds : nat)
  : list string :=
  match rounds with
  | 0 => []
  | S rounds' =>
      map fst (vanishing_productions grammar (vanishing grammar rounds'))
  end.

Definition nullable_of (grammar : list Production) : string -> bool :=
  known (vanishing grammar (S (length grammar))).

(** The length of the longest chain of edges from [N], cut at
    [fuel]. *)
Fixpoint depth (edges : string -> list string) (fuel : nat) (N : string)
  : nat :=
  match fuel with
  | 0 => 0
  | S fuel' => list_max (map (fun M => S (depth edges fuel' M)) (edges N))
  end.

(** A path along edges. *)
Fixpoint path (edges : string -> list string) (N : string)
    (nodes : list string) : Prop :=
  match nodes with
  | [] => True
  | M :: nodes' => In M (edges N) /\ path edges M nodes'
  end.

(** The rank of a nonterminal in a grammar without left recursion: the
    length of the longest chain of left corners from it. *)
Definition left_depth (grammar : list Production) : string -> nat :=
  depth (left_corners (nullable_of grammar) grammar) (S (length grammar)).

(** [<S> ::= <A> <S> | "b"], [<A> ::= ε]: left-recursive through the
    nonterminal [<A>], which the search expands away. *)
Definition hidden_left_recursive_grammar : list Production :=
  [("S", ["A"; "S"]); ("S", [quoted "b"]); ("A", [epsilon])].

(** Every nonterminal that a right-hand side names has productions,
    and no right-hand side is empty: the search raises neither
    [KeyError] nor [IndexError]. *)
Definition well_formed (grammar : list Production) : bool :=
  forallb (fun p : Production =>
             negb (is_nil (snd p))
             && forallb (fun x =>
                           implb (is_nonterm x)
                                 (existsb (String.eqb x)
                                          (nonterminals grammar)))
                        (snd p))
          grammar.

(** [t] is none of the terminals of the grammar, nor epsilon if a
    right-hand side holds it. *)
Definition foreign (grammar : list Production) (t : string) : Prop :=
  forall lhs rhs x,
    In (lhs, rhs) grammar -> In x rhs -> is_nonterm x = false -> x <> t.

(** An item of a search for a lookahead that begins with a foreign
    symbol: the lookahead is untouched, the nonterminals of the
    children have productions and their other symbols are not the
    first of the lookahead. *)
Definition unmatched (grammar : list Production) (terms : list string)
    (it : item) : Prop :=
  snd it = terms
  /\ forall x, In x (fst it) ->
               if is_nonterm x then In x (nonterminals grammar)
               else x <> hd EmptyString terms.

(** An item from which the search comes back to [N] at the head of the
    children without consuming a lookahead symbol. *)
Definition returning (grammar : list Production) (N : string) (it : item)
  : Prop :=
  exists vs M rest,
    fst it = vs ++ M :: rest
    /\ all_away grammar vs
    /\ is_nonterm M = true
    /\ reaches (left_corner grammar) M N.

(** The turns that the loop of [_matches] spends on an item and on all
    that comes of it, and the turns it spends on a queue. *)
Inductive search_cost (grammar : list Production) : item -> nat -> Prop :=
| cost_last children remaining :
    (forall pushed,
        _matches_body grammar children remaining <> Ok (Next pushed)) ->
    search_cost grammar (children, remaining) 1
| cost_pushed children remaining pushed total :
    _matches_body grammar children remaining = Ok (Next pushed) ->
    queue_cost grammar pushed total ->
    search_cost grammar (children, remaining) (S total)
with queue_cost (grammar : list Production) : list item -> nat -> Prop :=
| cost_nil : queue_cost grammar [] 0
| cost_cons it cost queue total :
    search_cost grammar it cost -> queue_cost grammar queue total ->
    queue_cost grammar (it :: queue) (cost + total).

(** [_matches] returns on these arguments, be it an answer, [None] or
    an exception: from some number of turns of its loop on, the run
    ends with the same result. *)
Definition matches_terminates (grammar : list Production)
    (rhs terms : list string) : Prop :=
  exists fuel answer,
    answer <> Timeout
    /\ forall fuel', fuel <= fuel' ->
                    _matches grammar fuel' rhs terms = answer.

(** [table[nonterm][term]], when both keys are there. *)
Definition table_cell (table : Table) (nonterm : string) (term : lookahead)
  : option Production :=
  match dict_get String.eqb nonterm table with
  | Some row => dict_get lookahead_eqb term row
  | None => None
  end.

(** [<S> ::= "a"]. *)
Definition single_terminal_grammar : list Production :=
  [("S", [quoted "a"])].

(** [<N> ::= ε | "a"]. *)
Definition nullable_grammar : list Production :=
  [("N", [epsilon]); ("N", [quoted "a"])].

(** The symbols of a member that are not epsilon. *)
Definition real_length (member : SubProduction) : nat :=
  length (normalized member).

(** [<S> ::= <A> "b"], [<A> ::= "a" | ε]. *)
Definition nullable_head_grammar : list Production :=
  [("S", ["A"; quoted "b"]); ("A", [quoted "a"]); ("A", [epsilon])].

(** The items the search for ["c"] through [<S> ::= <S> "a" | "b"]
    ever holds: they start with [S] or with ["b"]. *)
Inductive pending : item -> Prop :=
| pending_S rest : pending ("S" :: rest, [quoted "c"])
| pending_b rest : pending (quoted "b" :: rest, [quoted "c"]).

Definition starts_with_S (it : item) : Prop :=
  exists rest, it = ("S" :: rest, [quoted "c"]).

(** The exceptions of the derivation search. *)
Definition search_exn (e : exn) : Prop :=
  match e with
  | KeyError _ | IndexError => True
  | _ => False
  end.

(** What holds of a member yielded for [k]: epsilon counted, it has at
    least [k] symbols, and at most [k] of them are not epsilon. *)
Definition kfirst_member (k : nat) (m : SubProduction) : Prop :=
  real_length m <= k /\ k <= length m.

(** Where an entry of [kfirst(k)[N]] comes from: a member that
    [_kfirst(N, i)] yields for some [i] of [1..k]. *)
Definition from_yielded_member (grammar : list Production) (fuel k : nat)
    (N : string) (e : lookahead) : Prop :=
  exists i yielded fs m,
    In i (seq 1 k)
    /\ _kfirst grammar fuel [] (Sym N) i true = Ok yielded
    /\ In fs yielded /\ In m fs
    /\ ((exists x, normalized m = [x] /\ e = LStr x)
        \/ (2 <= length (normalized m) /\ e = LTup (normalized m))
        \/ (normalized m = [] /\ e = LStr epsilon)).


(** The enumerations that [_kfollow] asks for when it is called for
    [symbol], in the order in which it runs them: for every production
    and every place of [symbol] in its right-hand side, the enumeration
    from the place after it on. *)
Definition enumerations_of (grammar : list Production) (symbol : string)
  : list (Production * nat) :=
  flat_map (fun production : Production =>
              map (fun i => (production, i + 1))
                  (occurrences symbol 0 (snd production)))
           grammar.

(** The enumerations of one round of [kfollow], which calls [_kfollow]
    for every key of its lookup. *)
Definition enumerations (grammar : list Production)
  : list (Production * nat) :=
  flat_map (enumerations_of grammar) (lhs_keys grammar).

(** [<S> ::= <A> <B> <C> <D> <E> <F>] with a terminal for each of the
    six: for [k = 6] the tuples of lengths for the five symbols after
    [<A>] are more than the guard of the enumerator allows. *)
Definition wide_grammar : list Production :=
  [("S", ["A"; "B"; "C"; "D"; "E"; "F"]);
   ("A", [quoted "a"]); ("B", [quoted "b"]); ("C", [quoted "c"]);
   ("D", [quoted "d"]); ("E", [quoted "e"]); ("F", [quoted "f"])].

(** An [append] that reports a change whatever it is given: with it
    the fixpoint of a lookup that holds a partial follow set does not
    converge. *)
Definition stubborn_append (f other : FollowSet) : FollowSet :=
  set_changed true f.

(* ================================================================== *)
(** * The classifiers and scanners of [LLTableGenerator] *)

(** [LLTableGenerator._eps]. *)
Definition _eps (grammar : list Production) : list Production :=
  filter (fun p : Production =>
            Nat.eqb (length (snd p)) 1
            && String.eqb (hd EmptyString (snd p)) epsilon)
         grammar.

(** [LLTableGenerator._terms]. *)
Definition _terms (grammar : list Production) : list Production :=
  filter (fun p : Production =>
            Nat.ltb 0 (length (snd p)) && _is_term (hd EmptyString (snd p)))
         grammar.

(** [LLTableGenerator._nonterms]. *)
Definition _nonterms (grammar : list Production) : list Production :=
  filter (fun p : Production =>
            Nat.ltb 0 (length (snd p))
            && negb (_is_term (hd EmptyString (snd p)))
            && negb (String.eqb (hd EmptyString (snd p)) epsilon))
         grammar.

(** The productions none of the three yields: the right-hand side is
    empty, or starts with epsilon and goes on. *)
Definition unclassified (p : Production) : bool :=
  match snd p with
  | [] => true
  | x :: rest => String.eqb x epsilon && negb (is_nil rest)
  end.

(** [LLTableGenerator._after], as the list of what it yields.  The
    generator over [haystack] is the list of what is left of it: a
    [next] that raises [StopIteration] ends the scan; when only the
    second [next] after the needle raises, the pair has [None]. *)
Fixpoint _after (needle : string) (haystack : list string)
  : list (string * option string) :=
  match haystack with
  | [] => []
  | symbol :: gen =>
      if String.eqb symbol needle then
        match gen with
        | [] => []
        | [s1] => [(s1, None)]
        | s1 :: s2 :: gen' => (s1, Some s2) :: _after needle gen'
        end
      else _after needle gen
  end.

(** A yielded pair as the symbols it holds. *)
Definition pair_symbols (yielded : string * option string) : list string :=
  match snd yielded with
  | Some s2 => [fst yielded; s2]
  | None => [fst yielded]
  end.

(** [LLTableGenerator.two_iter], as the list of what it yields; the
    subscripts are checked as Python checks them. *)
Definition two_iter (rhs : list string) : result (list (string * string)) :=
  mapM (fun i =>
          match nth_error rhs i, nth_error rhs (i + 1) with
          | Some a, Some b => Ok (a, b)
          | _, _ => Raise IndexError
          end)
       (seq 0 (length rhs - 1)).

(** The loop of [reverse_nonterms] over the symbols from the last one
    to the first. *)
Fixpoint reverse_nonterms_loop (first : dict string (list string))
    (reversed : list string) : result (list string) :=
  match reversed with
  | [] => Ok []
  | symbol :: reversed' =>
      if _is_term symbol then Ok []
      else if String.eqb symbol epsilon
      then reverse_nonterms_loop first reversed'
      else
        match dict_get String.eqb symbol first with
        | None => Raise (KeyError symbol)
        | Some first_set =>
            if negb (existsb (String.eqb epsilon) first_set) then Ok [symbol]
            else
              yielded <- reverse_nonterms_loop first reversed' ;;
              Ok (symbol :: yielded)
        end
  end.

(** [LLTableGenerator.reverse_nonterms], as the list of what it
    yields. *)
Definition reverse_nonterms (rhs : list string)
    (first : dict string (list string)) : result (list string) :=
  reverse_nonterms_loop first (rev rhs).

(** Whether [first] says that the symbol derives epsilon. *)
Definition nullable_in (first : dict string (list string)) (symbol : string)
  : bool :=
  match dict_get String.eqb symbol first with
  | Some first_set => existsb (String.eqb epsilon) first_set
  | None => false
  end.

(** [LLTableGenerator.generate_table]: the lookaheads of the LL(1)
    sets are bare strings. *)
Definition generate_table (grammar : list Production) (fuel : nat)
    (first follow : dict string (list string)) : result Table :=
  let bare := map (fun kv : string * list string =>
                     (fst kv, map LStr (snd kv))) in
  generate_ktable grammar fuel (bare first) (bare follow) 1.

(* ================================================================== *)
(** * The buffer of the emitted parser *)

Section Runtime.

(** The tokens of the stream. *)
Variable Token : Type.

Definition BuffToken := option Token.

Definition has_none (buff : list BuffToken) : bool :=
  existsb (fun x => match x with None => true | Some _ => false end) buff.

(** The loop of [_fill_buff] in [PARSE]: [tokens] is what the iterator
    [self.tokens] has left, [token_buff] the argument and [new_buff]
    the buffer built so far.  The result holds what the iterator has
    left afterwards. *)
Fixpoint fill_loop (k : nat) (token_buff : list BuffToken)
    (tokens : list Token) (new_buff : list BuffToken)
  : list BuffToken * list Token :=
  if Nat.ltb (length new_buff) k then
    match tokens with
    | token :: tokens' =>
        fill_loop k token_buff tokens' (new_buff ++ [Some token])
    | [] =>
        (if negb (has_none token_buff) then new_buff ++ [None] else new_buff,
         [])
    end
  else (new_buff, tokens).

(** [Parser._fill_buff] of [PARSE]. *)
Definition _fill_buff (k : nat) (tokens : list Token)
    (token_buff : list BuffToken) : list BuffToken * list Token :=
  fill_loop k token_buff tokens token_buff.

(** [Parser._behead] of [PARSE]. *)
Definition _behead (buff : list BuffToken)
  : BuffToken * list BuffToken :=
  match buff with
  | [] => (None, [])
  | head :: rest => (head, rest)
  end.

End Runtime.

(* ================================================================== *)
(** * What the statements about the follow sets speak of *)

(** The keys of a lookup, each with the number of its follow sets. *)
Definition lookup_shape (lookup : Lookup) : list (string * nat) :=
  map (fun kv : string * list FollowSet => (fst kv, length (snd kv))) lookup.

(** Two follow sets that differ at most in the flag [changed]. *)
Definition same_but_changed (f g : FollowSet) : Prop :=
  set_changed false f = set_changed false g.

(** A follow set as [_kfollow] builds it for a production of [lhs]. *)
Definition built_for (lhs : string) (k : nat) (f : FollowSet) : Prop :=
  owner f = lhs /\ follow f = lhs /\ fs_k f = k
  /\ additional f = []
  /\ (if is_complete f then partials f = [] else completes f = []).

(* ================================================================== *)
(** * Simple grammars *)

(** No two productions of a nonterminal begin with the same symbol,
    and no production stands twice in the table. *)
Definition single_headed (grammar : list Production) : bool :=
  forallb (fun p : Production =>
             Nat.eqb
               (length
                  (filter (fun q : Production =>
                             String.eqb (fst q) (fst p)
                             && String.eqb (hd EmptyString (snd q))
                                           (hd EmptyString (snd p)))
                          grammar))
               1)
          grammar.

(** [<S> ::= "a" <S> | "b"], [<T> ::= "c"]. *)
Definition simple_grammar : list Production :=
  [("S", [quoted "a"; "S"]); ("S", [quoted "b"]); ("T", [quoted "c"])].

(* ================================================================== *)
(** * What a right-hand side leads to *)

(** [leads grammar children remaining]: by replacing the nonterminal
    at the head by one of its right-hand sides, again and again,
    [children] becomes a sequence that begins with [remaining].  As in
    [_matches], a right-hand side whose first symbol is epsilon stands
    for the empty sequence, and every symbol that is no nonterminal is
    a literal, to be found as it is. *)
Inductive leads (grammar : list Production)
  : list string -> list string -> Prop :=
| leads_end (children : list string) : leads grammar children []
| leads_literal (c : string) (children remaining : list string) :
    is_nonterm c = false ->
    leads grammar children remaining ->
    leads grammar (c :: children) (c :: remaining)
| leads_expand (head : string) (rest production remaining : list string) :
    is_nonterm head = true ->
    In (head, production) grammar ->
    production <> [] ->
    leads grammar
          (if is_epsilon (hd EmptyString production) then rest
           else production ++ rest)
          remaining ->
    leads grammar (head :: rest) remaining.

(* ================================================================== *)
(** * The tuples of lengths to be reached *)

(** A tuple of lengths for at most [n] symbols whose sum is [k], no
    shorter tuple it begins with reaching [k] already. *)
Definition saturated (k n : nat) (p : list nat) : Prop :=
  p <> [] /\ length p <= n /\ list_sum p = k
  /\ forall q rest, q <> [] -> rest <> [] -> p = q ++ rest -> list_sum q < k.

(** A tuple of lengths for all [n] symbols whose sum stays below [k]. *)
Definition unsaturated (k n : nat) (p : list nat) : Prop :=
  length p = n /\ list_sum p < k.

(** What is to be found among the follow sets yielded for a tuple. *)
Definition reached (resolve : list nat -> bool -> result (list SubProduction))
    (lhs : string) (k n : nat) (p : list nat) (yielded : list FollowSet)
  : Prop :=
  (saturated k n p ->
   exists seqs, resolve p true = Ok seqs
                /\ In (FollowSet_complete seqs lhs k) yielded)
  /\ (unsaturated k n p ->
      exists seqs, resolve p false = Ok seqs
                   /\ In (FollowSet_partial seqs lhs k) yielded).

(* ================================================================== *)
(** * Properties *)

Unset Implicit Arguments.

(** ** Loops with exceptions *)

Lemma foldM_inv {A B} (P : B -> Prop) (f : B -> A -> result B)
    (xs : list A) :
  (forall b x b', In x xs -> P b -> f b x = Ok b' -> P b') ->
  forall acc r, P acc -> foldM f xs acc = Ok r -> P r.
Proof.
  induction xs as [|x xs IH]; intros Hstep acc r Hacc; simpl.
  - now intros [= <-].
  - destruct (f acc x) as [b| |] eqn:E; simpl; try discriminate.
    apply IH.
    + intros; eapply Hstep; eauto. now right.
    + eapply Hstep; eauto. now left.
Qed.

Lemma foldM_ok_each {A B} (f : B -> A -> result B) (xs : list A) :
  forall acc r, foldM f xs acc = Ok r ->
  forall x, In x xs -> exists b b', f b x = Ok b'.
Proof.
  induction xs as [|y xs IH]; intros acc r H x Hin; [destruct Hin|].
  simpl in H. destruct (f acc y) as [b| |] eqn:E; simpl in H;
    try discriminate.
  destruct Hin as [->|Hin]; eauto.
Qed.

Lemma foldM_raise {A B} (f : B -> A -> result B) (xs : list A) (e : exn) :
  forall acc, foldM f xs acc = Raise e ->
  exists x b, In x xs /\ f b x = Raise e.
Proof.
  induction xs as [|y xs IH]; intros acc H; simpl in H; [discriminate|].
  destruct (f acc y) as [b| |] eqn:E; simpl in H; try discriminate.
  - destruct (IH _ H) as (x & b' & Hin & Hx). exists x, b'. split; auto.
    now right.
  - injection H as <-. exists y, acc. split; auto. now left.
Qed.

(** A property that the turn for [x] sets up and every turn keeps
    holds when the loop is over. *)
Lemma foldM_establish {A B} (P : B -> Prop) (f : B -> A -> result B)
    (xs : list A) (x : A) :
  In x xs ->
  (forall b b', f b x = Ok b' -> P b') ->
  (forall y b b', In y xs -> P b -> f b y = Ok b' -> P b') ->
  forall acc r, foldM f xs acc = Ok r -> P r.
Proof.
  induction xs as [|y xs IH]; intros Hin Hset Hkeep acc r H; [destruct Hin|].
  simpl in H. destruct (f acc y) as [b| |] eqn:E; simpl in H;
    try discriminate.
  destruct Hin as [->|Hin].
  - apply (foldM_inv P f xs) with (acc := b); eauto.
    intros; eapply Hkeep; eauto. now right.
  - apply (IH Hin Hset) with (acc := b); auto.
    intros; eapply Hkeep; eauto. now right.
Qed.

Lemma mapM_ok_In {A B} (f : A -> result B) (xs : list A) :
  forall ys, mapM f xs = Ok ys ->
  forall y, In y ys -> exists x, In x xs /\ f x = Ok y.
Proof.
  induction xs as [|x xs IH]; intros ys; simpl.
  - intros [= <-] y [].
  - destruct (f x) as [b| |] eqn:E; simpl; try discriminate.
    destruct (mapM f xs) as [bs| |]; simpl; try discriminate.
    intros [= <-] y [<-|Hy].
    + exists x. auto.
    + destruct (IH bs eq_refl y Hy) as (x' & Hin & Hx). exists x'. auto.
Qed.

Lemma mapM_ok_fwd {A B} (f : A -> result B) (xs : list A) :
  forall ys, mapM f xs = Ok ys ->
  forall x, In x xs -> exists y, f x = Ok y /\ In y ys.
Proof.
  induction xs as [|x0 xs IH]; intros ys; simpl.
  - intros _ x [].
  - destruct (f x0) as [b| |] eqn:E; simpl; try discriminate.
    destruct (mapM f xs) as [bs| |]; simpl; try discriminate.
    intros [= <-] x [<-|Hx].
    + exists b. split; [assumption|now left].
    + destruct (IH bs eq_refl x Hx) as (y & Hy & Hin).
      exists y. split; [assumption|now right].
Qed.

Lemma foldM_ok_each_inv {A B} (P : B -> Prop) (f : B -> A -> result B)
    (xs : list A) :
  (forall b x b', P b -> f b x = Ok b' -> P b') ->
  forall acc r, P acc -> foldM f xs acc = Ok r ->
  forall x, In x xs -> exists b b', P b /\ f b x = Ok b'.
Proof.
  intros Hstep.
  induction xs as [|y xs IH]; intros acc r Hacc H x Hin; [destruct Hin|].
  simpl in H. destruct (f acc y) as [b| |] eqn:E; simpl in H;
    try discriminate.
  destruct Hin as [->|Hin]; [eauto|].
  apply (IH b r); eauto.
Qed.

(** A loop whose turns, under an invariant, return or raise an
    exception of one kind returns or raises an exception of that
    kind. *)
Lemma foldM_outcome {A B} (P : B -> Prop) (Bad : exn -> Prop)
    (f : B -> A -> result B) (xs : list A) :
  (forall b x, In x xs -> P b ->
               (exists b', f b x = Ok b' /\ P b')
               \/ (exists e, f b x = Raise e /\ Bad e)) ->
  forall acc, P acc ->
              (exists r, foldM f xs acc = Ok r /\ P r)
              \/ (exists e, foldM f xs acc = Raise e /\ Bad e).
Proof.
  induction xs as [|x xs IH]; intros Hstep acc Hacc; simpl.
  - left. eauto.
  - destruct (Hstep acc x (or_introl eq_refl) Hacc)
      as [(b' & -> & Hb')|(e & -> & He)]; simpl.
    + apply IH; [|assumption]. intros b y Hy. apply Hstep. now right.
    + right. eauto.
Qed.

Lemma foldM_app {A B} (f : B -> A -> result B) (xs ys : list A) :
  forall acc,
    foldM f (xs ++ ys) acc = (r <- foldM f xs acc ;; foldM f ys r).
Proof.
  induction xs as [|x xs IH]; intros acc; [reflexivity|].
  cbn [app foldM]. destruct (f acc x) as [b| |]; cbn [bind];
    [apply IH|reflexivity|reflexivity].
Qed.

(** ** Terminal values (C10) *)

Lemma replace_char_empty (c : ascii) (s : string) :
  replace_char c EmptyString s = without_char c s.
Proof.
  induction s as [|a s IH]; simpl; [reflexivity|].
  destruct (Ascii.eqb a c); simpl; now rewrite IH.
Qed.

Lemma without_char_app (c : ascii) (s t : string) :
  without_char c (s ++ t) = (without_char c s ++ without_char c t)%string.
Proof.
  induction s as [|a s IH]; simpl; [reflexivity|].
  destruct (Ascii.eqb a c); simpl; now rewrite IH.
Qed.

Lemma occurs_without_char (c : ascii) (s : string) :
  occurs c (without_char c s) = false.
Proof.
  induction s as [|a s IH]; simpl; [reflexivity|].
  destruct (Ascii.eqb a c) eqn:E; simpl; [assumption|].
  now rewrite E.
Qed.

Lemma endswith_char_app (c : ascii) (s : string) :
  endswith_char c (s ++ String c EmptyString) = true.
Proof.
  induction s as [|a s IH]; simpl.
  - apply Ascii.eqb_refl.
  - destruct (s ++ String c EmptyString)%string eqn:E; [destruct s; discriminate|assumption].
Qed.

Lemma endswith_char_split (c : ascii) (s : string) :
  endswith_char c s = true -> exists p, s = (p ++ String c EmptyString)%string.
Proof.
  induction s as [|a s IH]; simpl; [discriminate|].
  destruct s as [|b s'].
  - intros H. apply Ascii.eqb_eq in H. subst. now exists EmptyString.
  - intros H. destruct (IH H) as [p Hp]. exists (String a p).
    simpl. now rewrite Hp.
Qed.

Lemma is_term_without_backslash (v : string) :
  _is_term v = true -> _is_term (without_char backslash v) = true.
Proof.
  unfold _is_term. intros H. apply andb_true_iff in H as [Hs He].
  apply endswith_char_split in He as [p ->].
  rewrite without_char_app. simpl without_char at 2.
  replace (Ascii.eqb dquote backslash) with false by reflexivity.
  rewrite endswith_char_app, andb_true_r.
  destruct p as [|a p]; simpl in *; [reflexivity|].
  apply Ascii.eqb_eq in Hs. subst a. reflexivity.
Qed.

Lemma sequence_rhs_terminal (cs : list Node) (child : Node) :
  In child cs -> node_type child = TERMINAL ->
  In (_normalize_terminal_value (value child)) (sequence_rhs cs).
Proof.
  induction cs as [|c cs IH]; simpl; [tauto|].
  intros [->|Hin] Hk.
  - rewrite Hk. now left.
  - specialize (IH Hin Hk). destruct (node_type c); simpl; auto.
Qed.

Lemma table_holds_sequences
    (node_filter : (Node -> bool) -> Node -> list Node) (bnf : Node)
    (productions : list Production) (production expression sequence : Node) :
  table node_filter bnf = Ok productions ->
  In production (node_filter (is_kind PRODUCTION) bnf) ->
  In expression (node_filter (is_kind EXPRESSION) production) ->
  In sequence (node_filter (is_kind SEQUENCE) expression) ->
  exists lhs, In (lhs, sequence_rhs (children sequence)) productions.
Proof.
  unfold table. intros H Hp He Hs.
  destruct (mapM (production_rows node_filter)
              (node_filter (is_kind PRODUCTION) bnf)) as [rows| |] eqn:E;
    simpl in H; try discriminate.
  injection H as <-.
  destruct (mapM_ok_fwd _ _ _ E _ Hp) as (row & Hrow & Hin).
  unfold production_rows in Hrow.
  destruct (children production) as [|first rest]; [discriminate|].
  destruct (NodeType_eqb (node_type first) SYMBOL); [|discriminate].
  injection Hrow as <-. exists (value first).
  apply in_concat. eexists. split; [exact Hin|].
  apply in_flat_map. exists expression. split; [assumption|].
  apply in_map_iff. exists sequence. auto.
Qed.

(** C10: the value of every TERMINAL child of a sequence of the
    grammar AST is stored in the production table stripped of every
    backslash (lone ones included) and of nothing else: the right-hand
    side read off the sequence is a row of the table, the stored symbol
    is the value without its backslash characters, it holds no
    backslash, and the double quotes around the value stay. *)
Theorem terminal_value_is_stripped_of_backslashes
    (node_filter : (Node -> bool) -> Node -> list Node) (bnf : Node)
    (productions : list Production)
    (production expression sequence child : Node)
    (Htable : table node_filter bnf = Ok productions)
    (Hproduction : In production (node_filter (is_kind PRODUCTION) bnf))
    (Hexpression : In expression
                      (node_filter (is_kind EXPRESSION) production))
    (Hsequence : In sequence (node_filter (is_kind SEQUENCE) expression))
    (Hchild : In child (children sequence))
    (Hkind : node_type child = TERMINAL) :
  let v := value child in
  (exists lhs rhs,
      In (lhs, rhs) productions
      /\ rhs = sequence_rhs (children sequence)
      /\ In (_normalize_terminal_value v) rhs)
  /\ _normalize_terminal_value v = without_char backslash v
  /\ occurs backslash (_normalize_terminal_value v) = false
  /\ (forall body, v = (dq ++ body ++ dq)%string ->
        _normalize_terminal_value v
        = (dq ++ _normalize_terminal_value body ++ dq)%string)
  /\ (_is_term v = true -> _is_term (_normalize_terminal_value v) = true).
Proof.
  intros v. split.
  - destruct (table_holds_sequences node_filter bnf productions production
                expression sequence Htable Hproduction Hexpression Hsequence)
      as [lhs Hrow].
    exists lhs, (sequence_rhs (children sequence)).
    split; [assumption|]. split; [reflexivity|].
    now apply sequence_rhs_terminal.
  - unfold _normalize_terminal_value.
    rewrite !replace_char_empty. repeat split.
    + apply occurs_without_char.
    + intros body ->. rewrite replace_char_empty.
      now rewrite !without_char_app.
    + apply is_term_without_backslash.
Qed.

Lemma terminal_value_is_stripped_of_backslashes_witness :
  table walk escaped_ast
  = Ok [("S", ["A"; (dq ++ "ab" ++ dq)%string])]
  /\ exists lhs rhs,
      In (lhs, rhs) [("S", ["A"; (dq ++ "ab" ++ dq)%string])]
      /\ rhs = ["A"; (dq ++ "ab" ++ dq)%string]
      /\ In (dq ++ "ab" ++ dq)%string rhs.
Proof.
  split; [reflexivity|].
  apply (terminal_value_is_stripped_of_backslashes walk escaped_ast
           [("S", ["A"; (dq ++ "ab" ++ dq)%string])]
           (rule "S" [mkNode SYMBOL "A" []; escaped_terminal])
           (mkNode EXPRESSION EmptyString
              [mkNode SEQUENCE EmptyString
                 [mkNode SYMBOL "A" []; escaped_terminal]])
           (mkNode SEQUENCE EmptyString
              [mkNode SYMBOL "A" []; escaped_terminal])
           escaped_terminal).
  - reflexivity.
  - simpl. left. reflexivity.
  - simpl. left. reflexivity.
  - simpl. left. reflexivity.
  - simpl. right. left. reflexivity.
  - reflexivity.
Defined.

(** ** Dictionaries *)

Section DictFacts.
Context {K V : Type} (eqb : K -> K -> bool).
Hypothesis eqb_spec : forall a b, eqb a b = true <-> a = b.

Lemma eqb_same (a : K) : eqb a a = true.
Proof. now apply eqb_spec. Qed.

Lemma eqb_diff (a b : K) : a <> b -> eqb a b = false.
Proof.
  intros H. destruct (eqb a b) eqn:E; [|reflexivity].
  apply eqb_spec in E. contradiction.
Qed.

Lemma dict_get_set_eq (k : K) (v : V) (d : dict K V) :
  dict_get eqb k (dict_set eqb k v d) = Some v.
Proof.
  induction d as [|[k' v'] d IH]; simpl.
  - now rewrite eqb_same.
  - destruct (eqb k' k) eqn:E; simpl; rewrite E; auto.
Qed.

Lemma dict_get_set_ne (k k' : K) (v : V) (d : dict K V) :
  k <> k' -> dict_get eqb k' (dict_set eqb k v d) = dict_get eqb k' d.
Proof.
  intros Hne. induction d as [|[k0 v0] d IH]; simpl.
  - now rewrite eqb_diff.
  - destruct (eqb k0 k) eqn:E; simpl.
    + apply eqb_spec in E. subst k0. now rewrite eqb_diff.
    + destruct (eqb k0 k'); auto.
Qed.

Lemma dict_get_In (k : K) (v : V) (d : dict K V) :
  dict_get eqb k d = Some v -> In (k, v) d.
Proof.
  induction d as [|[k0 v0] d IH]; simpl; [discriminate|].
  destruct (eqb k0 k) eqn:E.
  - apply eqb_spec in E. intros [= ->]. subst. now left.
  - intros H. right. auto.
Qed.
End DictFacts.

Lemma list_eqb_spec {A} (eqb : A -> A -> bool) :
  (forall a b, eqb a b = true <-> a = b) ->
  forall l1 l2, list_eqb eqb l1 l2 = true <-> l1 = l2.
Proof.
  intros Hs. induction l1 as [|a l1 IH]; intros [|b l2]; simpl;
    try (split; [discriminate|discriminate]); [tauto|].
  rewrite andb_true_iff, Hs, IH. split.
  - intros [-> ->]. reflexivity.
  - intros [= -> ->]. auto.
Qed.

Lemma lookahead_eqb_spec (a b : lookahead) :
  lookahead_eqb a b = true <-> a = b.
Proof.
  destruct a as [s|s], b as [t|t]; simpl;
    try (split; discriminate).
  - rewrite String.eqb_eq. split; [now intros ->|now intros [= ->]].
  - rewrite (list_eqb_spec String.eqb String.eqb_eq).
    split; [now intros ->|now intros [= ->]].
Qed.

(** ** The adjacency matrix holds productions of the grammar *)

Lemma adjacency_matrix_sound (grammar : list Production)
    (head : string) (productions : list (list string)) :
  dict_get String.eqb head (adjacency_matrix grammar) = Some productions ->
  length productions <= length grammar
  /\ forall rhs, In rhs productions -> In (head, rhs) grammar.
Proof.
  unfold adjacency_matrix.
  set (step := fun (adj : dict string (list (list string))) (p : Production) => _).
  assert (G : forall l acc n,
             (forall h ps, dict_get String.eqb h acc = Some ps ->
                           length ps <= n
                           /\ forall rhs, In rhs ps -> In (h, rhs) grammar) ->
             incl l grammar ->
             forall h ps, dict_get String.eqb h (fold_left step l acc) = Some ps ->
                          length ps <= n + length l
                          /\ forall rhs, In rhs ps -> In (h, rhs) grammar).
  { induction l as [|[lhs rhs] l IH]; intros acc n Hacc Hincl h ps; simpl.
    - intros H. destruct (Hacc _ _ H). split; [lia|assumption].
    - intros H. apply (IH _ (S n)) in H.
      + destruct H. split; [lia|assumption].
      + clear H h ps. intros h ps.
        set (adj := if dict_mem String.eqb lhs acc then acc
                    else dict_set String.eqb lhs [] acc).
        assert (Hadj : forall h ps, dict_get String.eqb h adj = Some ps ->
                         length ps <= n
                         /\ forall rhs, In rhs ps -> In (h, rhs) grammar).
        { intros h0 ps0. unfold adj. destruct (dict_mem String.eqb lhs acc).
          - apply Hacc.
          - destruct (String.eqb_spec lhs h0) as [->|Hne].
            + rewrite (dict_get_set_eq String.eqb String.eqb_eq).
              intros [= <-]. split; [simpl; lia|intros ? []].
            + rewrite (dict_get_set_ne String.eqb String.eqb_eq) by assumption.
              apply Hacc. }
        destruct (dict_get String.eqb lhs adj) as [l0|] eqn:E.
        * destruct (String.eqb_spec lhs h) as [->|Hne].
          -- rewrite (dict_get_set_eq String.eqb String.eqb_eq).
             intros [= <-]. destruct (Hadj _ _ E) as [Hlen Hin].
             split.
             ++ rewrite length_app. simpl. lia.
             ++ intros r Hr. apply in_app_or in Hr as [Hr|[<-|[]]]; auto.
                apply Hincl. now left.
          -- rewrite (dict_get_set_ne String.eqb String.eqb_eq) by assumption.
             intros Hg. destruct (Hadj _ _ Hg). split; [lia|assumption].
        * intros Hg. destruct (Hadj _ _ Hg). split; [lia|assumption].
      + intros x Hx. apply Hincl. now right. }
  intros H. apply (G grammar [] 0) in H.
  - exact H.
  - intros h ps. simpl. discriminate.
  - apply incl_refl.
Qed.

(** ** [_matches]: no bound on the search (C7) *)

Lemma matches_body_on_S (rest : list string) :
  _matches_body left_recursive_grammar ("S" :: rest) [quoted "c"]
  = Ok (Next [("S" :: quoted "a" :: rest, [quoted "c"]);
              (quoted "b" :: rest, [quoted "c"])]).
Proof. reflexivity. Qed.

Lemma matches_body_on_b (rest : list string) :
  _matches_body left_recursive_grammar (quoted "b" :: rest) [quoted "c"]
  = Ok (Next []).
Proof. reflexivity. Qed.

Lemma left_recursion_loop_never_ends (fuel : nat) :
  forall queue,
    Forall pending queue -> Exists starts_with_S queue ->
    _matches_loop left_recursive_grammar fuel queue = Timeout.
Proof.
  induction fuel as [|fuel IH]; intros queue Hall Hex; [reflexivity|].
  destruct queue as [|[children remaining] queue]; [inversion Hex|].
  inversion Hall as [|? ? Hhead Htail]; subst.
  cbn [_matches_loop].
  inversion Hhead; subst.
  - rewrite matches_body_on_S. apply IH.
    + apply Forall_app. split; [assumption|].
      repeat constructor.
    + apply Exists_app. right. constructor. now eexists.
  - rewrite matches_body_on_b. apply IH.
    + now rewrite app_nil_r.
    + rewrite app_nil_r. inversion Hex as [? ? [r Hr]|]; subst.
      * discriminate Hr.
      * assumption.
Qed.

(** C7, counterexample: on the left-recursive grammar
    [<S> ::= <S> "a" | "b"] the search for the lookahead ["c"] from
    [<S>] never returns, whatever the number of turns allowed. *)
Lemma matches_runs_forever_on_left_recursion :
  ~ matches_terminates left_recursive_grammar ["S"] [quoted "c"].
Proof.
  intros (fuel & answer & Hanswer & H). apply Hanswer.
  rewrite <- (H fuel (le_n fuel)). unfold _matches.
  apply left_recursion_loop_never_ends.
  - repeat constructor.
  - constructor. now eexists.
Qed.

(** ** [_matches]: what ends a turn of the search *)

Lemma terminal_led_In (grammar : list Production) (lhs : string)
    (rhs : list string) :
  terminal_led grammar = true -> In (lhs, rhs) grammar ->
  exists t rest, rhs = t :: rest /\ is_term t = true.
Proof.
  unfold terminal_led. rewrite forallb_forall. intros H Hin.
  specialize (H _ Hin). simpl in H.
  destruct rhs as [|t rest]; [discriminate|]. eauto.
Qed.

Lemma is_term_not_epsilon (t : string) :
  is_term t = true -> is_epsilon t = false.
Proof.
  unfold is_term, _is_term. intros H. apply andb_true_iff in H as [H _].
  destruct t as [|a t]; simpl in H; [discriminate|].
  apply Ascii.eqb_eq in H. subst a. reflexivity.
Qed.

Lemma is_term_not_nonterm (t : string) :
  is_term t = true -> is_nonterm t = false.
Proof. unfold is_nonterm. now intros ->. Qed.

Lemma mapM_expand_no_timeout (rest remaining : list string)
    (productions : list (list string)) :
  mapM (expand rest remaining) productions <> Timeout.
Proof.
  induction productions as [|p ps IH]; simpl; [discriminate|].
  destruct p as [|p0 p]; simpl; [discriminate|].
  destruct (is_epsilon p0); simpl;
    destruct (mapM (expand rest remaining) ps); simpl; congruence.
Qed.

Lemma matches_body_no_timeout (grammar : list Production)
    (children remaining : list string) :
  _matches_body grammar children remaining <> Timeout.
Proof.
  unfold _matches_body.
  destruct (is_nil children || is_nil remaining); [discriminate|].
  destruct (consume children remaining) as [i|]; [|discriminate].
  destruct (if negb (is_nonterm (hd EmptyString children))
            then (skipn i children, skipn i remaining)
            else (children, remaining)) as [cs rs].
  destruct rs as [|r rs]; [discriminate|].
  destruct cs as [|head rest]; [discriminate|].
  destruct (negb (is_nonterm head)); [discriminate|].
  destruct (dict_get String.eqb head (adjacency_matrix grammar)) as [ps|];
    [|discriminate].
  pose proof (mapM_expand_no_timeout rest (r :: rs) ps) as H.
  destruct (mapM (expand rest (r :: rs)) ps); simpl; congruence.
Qed.

Lemma matches_loop_fuel_mono (grammar : list Production) :
  forall fuel queue answer,
    _matches_loop grammar fuel queue = answer -> answer <> Timeout ->
    forall fuel', fuel <= fuel' ->
                  _matches_loop grammar fuel' queue = answer.
Proof.
  induction fuel as [|fuel IH]; intros queue answer Hrun Hanswer fuel' Hle.
  - simpl in Hrun. congruence.
  - destruct fuel' as [|fuel']; [lia|]. simpl in *.
    destruct queue as [|[children remaining] queue]; [assumption|].
    destruct (_matches_body grammar children remaining) as [[pushed|b]|e|];
      try assumption.
    apply IH; [assumption|assumption|lia].
Qed.


(** ** [_matches]: termination without left recursion *)

Lemma weight_pos (B m : nat) : 1 <= S B ^ m.
Proof.
  induction m as [|m IH]; simpl; [lia|]. nia.
Qed.

Lemma weight_mono (B m m' : nat) : m <= m' -> S B ^ m <= S B ^ m'.
Proof. intros H. apply Nat.pow_le_mono_r; lia. Qed.

Lemma exposed_app (nullable : string -> bool) (p rest : list string) :
  exposed nullable (p ++ rest)
  = exposed nullable p
    ++ (if all_nullable nullable p then exposed nullable rest else []).
Proof.
  induction p as [|x p IH]; [reflexivity|].
  unfold all_nullable in *. cbn [app exposed forallb].
  destruct (is_nonterm x); cbn [andb]; [|reflexivity].
  destruct (nullable x); cbn [andb app]; [|reflexivity].
  now rewrite IH.
Qed.

Lemma exposed_length (nullable : string -> bool) (symbols : list string) :
  length (exposed nullable symbols) <= length symbols.
Proof.
  induction symbols as [|x symbols IH]; [reflexivity|].
  cbn [exposed]. destruct (is_nonterm x); [|cbn [length]; lia].
  destruct (nullable x); cbn [length]; lia.
Qed.

Lemma longest_rhs_In (grammar : list Production) (N : string)
    (rhs : list string) :
  In (N, rhs) grammar -> length rhs <= longest_rhs grammar.
Proof.
  intros Hin. unfold longest_rhs.
  pose proof (proj1 (list_max_le
                       (map (fun p : Production => length (snd p)) grammar)
                       _) (le_n _)) as Hall.
  rewrite Forall_forall in Hall. apply Hall.
  apply in_map_iff. now exists (N, rhs).
Qed.

Lemma ranked_In (nullable : string -> bool) (rank : string -> nat)
    (grammar : list Production) (N : string) (rhs : list string) :
  ranked nullable rank grammar = true -> In (N, rhs) grammar ->
  (vanishes nullable rhs = true -> nullable N = true)
  /\ forall M, In M (exposed nullable rhs) -> rank M < rank N.
Proof.
  unfold ranked, closed_under_vanishing. intros H Hin.
  apply andb_true_iff in H as [Hclosed Hrank].
  rewrite forallb_forall in Hclosed, Hrank.
  specialize (Hclosed _ Hin). specialize (Hrank _ Hin).
  cbn [fst snd] in *. split.
  - intros Hv. now rewrite Hv in Hclosed.
  - intros M HM. rewrite forallb_forall in Hrank.
    now apply Nat.ltb_lt, Hrank.
Qed.

Lemma ranked_sum (rank : string -> nat) (B r : nat) (l : list string) :
  length l <= B -> (forall M, In M l -> rank M < r) ->
  list_sum (map (fun M => S B ^ rank M) l) < S B ^ r.
Proof.
  intros Hlen Hr. destruct r as [|r].
  - destruct l as [|M l]; [cbn; lia|].
    specialize (Hr M (or_introl eq_refl)). lia.
  - assert (Hsum : list_sum (map (fun M => S B ^ rank M) l)
                   <= length l * S B ^ r).
    { clear Hlen. induction l as [|M l IH]; [cbn; lia|].
      cbn [map list_sum fold_right length].
      assert (S B ^ rank M <= S B ^ r).
      { apply weight_mono. specialize (Hr M (or_introl eq_refl)). lia. }
      assert (list_sum (map (fun M => S B ^ rank M) l) <= length l * S B ^ r)
        by (apply IH; intros; apply Hr; now right).
      unfold list_sum in *. lia. }
    pose proof (weight_pos B r). cbn [Nat.pow]. nia.
Qed.

Lemma stack_weight_cons (nullable : string -> bool) (rank : string -> nat)
    (grammar : list Production) (N : string) (rest : list string) :
  is_nonterm N = true ->
  stack_weight nullable rank grammar (N :: rest)
  = S (longest_rhs grammar) ^ rank N
    + (if nullable N then stack_weight nullable rank grammar rest else 0).
Proof.
  intros HN. unfold stack_weight. cbn [exposed]. rewrite HN.
  destruct (nullable N); cbn [map list_sum fold_right]; unfold list_sum; lia.
Qed.

Lemma expand_keeps_remaining (rest remaining production : list string)
    (it : item) :
  expand rest remaining production = Ok it -> snd it = remaining.
Proof.
  unfold expand. destruct production as [|p0 p]; [discriminate|].
  destruct (is_epsilon p0); now intros [= <-].
Qed.

(** An expansion leaves children that can cause fewer expansions
    without consumption than the ones it was made from. *)
Lemma expansion_descends (nullable : string -> bool) (rank : string -> nat)
    (grammar : list Production) (N : string) (p rest remaining : list string)
    (it : item) :
  ranked nullable rank grammar = true -> is_nonterm N = true ->
  In (N, p) grammar -> expand rest remaining p = Ok it ->
  stack_weight nullable rank grammar (fst it)
  < stack_weight nullable rank grammar (N :: rest).
Proof.
  intros Hranked HN Hin Hexpand.
  destruct (ranked_In nullable rank grammar N p Hranked Hin)
    as [Hclosed Hrank].
  rewrite (stack_weight_cons nullable rank grammar N rest HN).
  pose proof (weight_pos (longest_rhs grammar) (rank N)) as Hpos.
  unfold expand in Hexpand. destruct p as [|p0 p]; [discriminate|].
  destruct (is_epsilon p0) eqn:Heps; injection Hexpand as <-; cbn [fst].
  - rewrite Hclosed by (cbn [vanishes]; now rewrite Heps). lia.
  - assert (Hp : list_sum (map (fun M => S (longest_rhs grammar) ^ rank M)
                               (exposed nullable (p0 :: p)))
                 < S (longest_rhs grammar) ^ rank N).
    { apply ranked_sum; [|exact Hrank].
      etransitivity; [apply exposed_length|].
      exact (longest_rhs_In grammar N (p0 :: p) Hin). }
    unfold stack_weight at 1.
    change (p0 :: p ++ rest) with ((p0 :: p) ++ rest).
    rewrite exposed_app, map_app, list_sum_app.
    destruct (all_nullable nullable (p0 :: p)) eqn:Hall.
    + rewrite Hclosed by (cbn [vanishes]; rewrite Hall; apply orb_true_r).
      unfold stack_weight. lia.
    + cbn [map list_sum fold_right]. unfold list_sum in *. lia.
Qed.

(** What a turn of the search pushes has a shorter lookahead left, or
    the same lookahead and children that can cause fewer expansions. *)
Lemma matches_body_descends (nullable : string -> bool)
    (rank : string -> nat) (grammar : list Production)
    (children remaining : list string) (pushed : list item) :
  ranked nullable rank grammar = true ->
  _matches_body grammar children remaining = Ok (Next pushed) ->
  forall it, In it pushed ->
    length (snd it) < length remaining
    \/ (snd it = remaining
        /\ stack_weight nullable rank grammar (fst it)
           < stack_weight nullable rank grammar children).
Proof.
  intros Hranked Hbody it Hit. unfold _matches_body in Hbody.
  destruct children as [|c cs]; simpl in Hbody.
  { injection Hbody as <-. destruct Hit. }
  destruct remaining as [|r rs]; simpl in Hbody.
  { injection Hbody as <-. destruct Hit. }
  destruct (is_nonterm c) eqn:Hc; simpl in Hbody.
  - (* the head is a nonterminal: it is expanded in place *)
    rewrite Hc in Hbody. simpl in Hbody.
    destruct (dict_get String.eqb c (adjacency_matrix grammar))
      as [ps|] eqn:Hget; [|discriminate Hbody].
    destruct (mapM (expand cs (r :: rs)) ps) as [pushed'| |] eqn:Hex;
      simpl in Hbody; try discriminate Hbody.
    injection Hbody as ->.
    destruct (mapM_ok_In _ _ _ Hex _ Hit) as (p & Hp & Hexpand).
    destruct (adjacency_matrix_sound _ _ _ Hget) as [_ Hin].
    right. split; [exact (expand_keeps_remaining _ _ _ _ Hexpand)|].
    exact (expansion_descends nullable rank grammar c p cs (r :: rs) it
             Hranked Hc (Hin _ Hp) Hexpand).
  - (* the head is a terminal: the common prefix is consumed *)
    destruct (String.eqb c r); [|injection Hbody as <-; destruct Hit].
    destruct (consume cs rs) as [j|]; simpl in Hbody;
      [|injection Hbody as <-; destruct Hit].
    destruct (skipn j rs) as [|r' rs'] eqn:Hrs; [discriminate Hbody|].
    destruct (skipn j cs) as [|head rest];
      [injection Hbody as <-; destruct Hit|].
    destruct (negb (is_nonterm head)); [discriminate Hbody|].
    destruct (dict_get String.eqb head (adjacency_matrix grammar))
      as [ps|] eqn:Hget; [|discriminate Hbody].
    destruct (mapM (expand rest (r' :: rs')) ps) as [pushed'| |] eqn:Hex;
      simpl in Hbody; try discriminate Hbody.
    injection Hbody as ->.
    destruct (mapM_ok_In _ _ _ Hex _ Hit) as (p & Hp & Hexpand).
    left. rewrite (expand_keeps_remaining _ _ _ _ Hexpand), <- Hrs.
    rewrite length_skipn. cbn [length]. lia.
Qed.

Lemma costs_exist (grammar : list Production) (pushed : list item) :
  (forall it, In it pushed -> exists cost, search_cost grammar it cost) ->
  exists total, queue_cost grammar pushed total.
Proof.
  induction pushed as [|it pushed IH]; intros H.
  - exists 0. constructor.
  - destruct (H it (or_introl eq_refl)) as [cost Hcost].
    destruct IH as [total Htotal]; [intros; apply H; now right|].
    exists (cost + total). now constructor.
Qed.

Lemma queue_cost_app (grammar : list Production) (q1 q2 : list item)
    (t1 t2 : nat) :
  queue_cost grammar q1 t1 -> queue_cost grammar q2 t2 ->
  queue_cost grammar (q1 ++ q2) (t1 + t2).
Proof.
  intros H1 H2. induction H1 as [|it cost queue total Hcost Hqueue IH];
    [exact H2|].
  cbn [app]. rewrite <- Nat.add_assoc. now constructor.
Qed.

(** Without left recursion the search from an item is finite: by
    induction on the lookahead left and, for one lookahead, on the
    expansions that the children can cause. *)
Lemma every_item_has_a_cost (nullable : string -> bool)
    (rank : string -> nat) (grammar : list Production) :
  ranked nullable rank grammar = true ->
  forall n m children remaining,
    length remaining < n ->
    stack_weight nullable rank grammar children < m ->
    exists cost, search_cost grammar (children, remaining) cost.
Proof.
  intros Hranked. induction n as [|n IHn]; [lia|].
  induction m as [|m IHm]; [lia|].
  intros children remaining Hn Hm.
  destruct (_matches_body grammar children remaining) as [[pushed|b]|e|]
    eqn:E.
  - destruct (costs_exist grammar pushed) as [total Htotal].
    { intros [cs rs] Hin.
      destruct (matches_body_descends nullable rank grammar children
                  remaining pushed Hranked E _ Hin) as [Hlt|[Heq Hlt]];
        cbn [fst snd] in *.
      - apply (IHn (S (stack_weight nullable rank grammar cs))); lia.
      - subst rs. apply IHm; lia. }
    eexists. eapply cost_pushed; eassumption.
  - exists 1. apply cost_last. intros pushed. rewrite E. discriminate.
  - exists 1. apply cost_last. intros pushed. rewrite E. discriminate.
  - exists 1. apply cost_last. intros pushed. rewrite E. discriminate.
Qed.

(** The loop is over within the turns that its queue costs. *)
Lemma matches_loop_within_cost (grammar : list Production) :
  forall fuel queue total,
    queue_cost grammar queue total -> total < fuel ->
    _matches_loop grammar fuel queue <> Timeout.
Proof.
  induction fuel as [|fuel IH]; intros queue total Hcosts Hfuel; [lia|].
  destruct Hcosts as [|[children remaining] cost queue total Hcost Hcosts];
    cbn [_matches_loop]; [discriminate|].
  inversion Hcost as [? ? Hlast|? ? pushed total' Hbody Hpushed]; subst.
  - destruct (_matches_body grammar children remaining) as [[pushed|b]|e|]
      eqn:E; try discriminate.
    + now destruct (Hlast pushed).
    + now apply matches_body_no_timeout in E.
  - rewrite Hbody. apply (IH _ (total + total')).
    + now apply queue_cost_app.
    + lia.
Qed.

(** A grammar whose nonterminals are ranked above their left corners
    lets [_matches] return. *)
Lemma matches_terminates_on_ranked_grammars
    (grammar : list Production) (nullable : string -> bool)
    (rank : string -> nat) (rhs terms : list string) :
  ranked nullable rank grammar = true ->
  matches_terminates grammar rhs terms.
Proof.
  intros Hranked.
  destruct (every_item_has_a_cost nullable rank grammar Hranked
              (S (length terms))
              (S (stack_weight nullable rank grammar rhs)) rhs terms)
    as [cost Hcost]; [lia|lia|].
  assert (Hqueue : queue_cost grammar [(rhs, terms)] (cost + 0))
    by (constructor; [exact Hcost|constructor]).
  set (fuel := S (cost + 0)).
  exists fuel, (_matches grammar fuel rhs terms).
  assert (Hends : _matches grammar fuel rhs terms <> Timeout)
    by (apply (matches_loop_within_cost grammar fuel _ _ Hqueue);
        unfold fuel; lia).
  split; [assumption|].
  intros fuel' Hle. unfold _matches.
  now apply (matches_loop_fuel_mono grammar fuel).
Qed.

(** ** Chains of edges without a cycle *)

Lemma list_max_member (l : list nat) : l = [] \/ In (list_max l) l.
Proof.
  induction l as [|a l IH]; [now left|]. right.
  change (list_max (a :: l)) with (Nat.max a (list_max l)).
  destruct (Nat.max_spec a (list_max l)) as [[Hlt ->]|[Hle ->]]; [|now left].
  destruct IH as [->|Hin]; [cbn in Hlt; lia|now right].
Qed.

Lemma list_max_above (l : list nat) (n : nat) : In n l -> n <= list_max l.
Proof.
  intros Hin.
  pose proof (proj1 (list_max_le l (list_max l)) (le_n _)) as Hall.
  rewrite Forall_forall in Hall. now apply Hall.
Qed.

Section Depth.
Variable edges : string -> list string.
Variable keys : list string.
Hypothesis edges_keys : forall N M, In M (edges N) -> In N keys.
Hypothesis acyclic : forall N, ~ reaches (fun N M => In M (edges N)) N N.

Lemma depth_member (fuel : nat) (N M : string) :
  In M (edges N) -> S (depth edges fuel M) <= depth edges (S fuel) N.
Proof.
  intros Hin. cbn [depth]. apply list_max_above.
  apply in_map_iff. now exists M.
Qed.

Lemma depth_path :
  forall fuel N,
    exists nodes, path edges N nodes /\ length nodes = depth edges fuel N.
Proof.
  induction fuel as [|fuel IH]; intros N.
  - exists []. split; [exact I|reflexivity].
  - cbn [depth].
    destruct (list_max_member
                (map (fun M => S (depth edges fuel M)) (edges N)))
      as [Hnil|Hin].
    + rewrite Hnil. exists []. split; [exact I|reflexivity].
    + apply in_map_iff in Hin as (M & HM & Hin).
      destruct (IH M) as (nodes & Hpath & Hlen).
      exists (M :: nodes). split; [split; assumption|].
      cbn [length]. rewrite Hlen. exact HM.
Qed.

Lemma path_reaches :
  forall nodes N M,
    path edges N nodes -> In M nodes ->
    reaches (fun N M => In M (edges N)) N M.
Proof.
  induction nodes as [|L nodes IH]; intros N M Hpath Hin; [destruct Hin|].
  destruct Hpath as [Hedge Hpath]. destruct Hin as [<-|Hin].
  - now apply reaches_step.
  - apply reaches_more with (M := L); [exact Hedge|].
    now apply IH.
Qed.

Lemma path_sources :
  forall nodes N,
    path edges N nodes ->
    exists sources,
      length sources = length nodes
      /\ NoDup sources
      /\ incl sources keys
      /\ incl sources (N :: nodes).
Proof.
  induction nodes as [|M nodes IH]; intros N Hpath.
  - exists []. repeat split; [constructor|intros x []|intros x []].
  - destruct Hpath as [Hedge Hpath].
    destruct (IH M Hpath) as (sources & Hlen & Hnd & Hkeys & Hsub).
    exists (N :: sources). split; [cbn [length]; now rewrite Hlen|].
    split; [|split].
    + constructor; [|exact Hnd]. intros Hin. apply (acyclic N).
      apply (path_reaches (M :: nodes) N N); [split; assumption|].
      now apply Hsub.
    + intros x [<-|Hx]; [exact (edges_keys _ _ Hedge)|now apply Hkeys].
    + intros x [<-|Hx]; [now left|right; now apply Hsub].
Qed.

Lemma depth_bound (fuel : nat) (N : string) :
  depth edges fuel N <= length keys.
Proof.
  destruct (depth_path fuel N) as (nodes & Hpath & <-).
  destruct (path_sources nodes N Hpath) as (sources & <- & Hnd & Hkeys & _).
  now apply NoDup_incl_length.
Qed.

Lemma depth_stable :
  forall fuel N,
    depth edges fuel N < fuel -> depth edges (S fuel) N = depth edges fuel N.
Proof.
  induction fuel as [|fuel IH]; intros N Hlt; [lia|].
  change (list_max (map (fun M => S (depth edges (S fuel) M)) (edges N))
          = list_max (map (fun M => S (depth edges fuel M)) (edges N))).
  f_equal. apply map_ext_in. intros M HM. f_equal. apply IH.
  pose proof (depth_member fuel N M HM). lia.
Qed.

Lemma depth_descends (N M : string) :
  In M (edges N) ->
  depth edges (S (length keys)) M < depth edges (S (length keys)) N.
Proof.
  intros Hin.
  pose proof (depth_member (S (length keys)) N M Hin) as Hm.
  rewrite (depth_stable (S (length keys)) N) in Hm; [lia|].
  pose proof (depth_bound (S (length keys)) N). lia.
Qed.
End Depth.

(** ** The nonterminals that can be expanded away *)

Lemma known_In (names : list string) (N : string) :
  known names N = true <-> In N names.
Proof.
  unfold known. rewrite existsb_exists. split.
  - intros (x & Hin & Heq). apply String.eqb_eq in Heq. now subst.
  - intros Hin. exists N. split; [assumption|apply String.eqb_refl].
Qed.

Lemma vanishes_mono (n1 n2 : string -> bool) :
  (forall y, n1 y = true -> n2 y = true) ->
  forall rhs, vanishes n1 rhs = true -> vanishes n2 rhs = true.
Proof.
  intros Hsub [|x rest]; [discriminate|]. unfold vanishes, all_nullable.
  intros H. apply orb_true_iff in H as [H|H]; apply orb_true_iff;
    [now left|right].
  rewrite forallb_forall in *. intros y Hy. specialize (H y Hy).
  apply andb_true_iff in H as [Hn Hk]. apply andb_true_iff.
  split; [assumption|now apply Hsub].
Qed.

Lemma vanishing_grows (grammar : list Production) :
  forall n, incl (vanishing grammar n) (vanishing grammar (S n)).
Proof.
  induction n as [|n IH]; [intros x []|].
  intros N HN. cbn [vanishing] in *. unfold vanishing_productions in *.
  apply in_map_iff in HN as (p & <- & Hp). apply in_map_iff. exists p.
  split; [reflexivity|]. apply filter_In in Hp as [Hin Hv].
  apply filter_In. split; [assumption|]. revert Hv. apply vanishes_mono.
  intros y Hy. apply known_In. apply IH. now apply known_In.
Qed.

Lemma filter_grows {A} (f g : A -> bool) (l : list A) :
  (forall x, f x = true -> g x = true) ->
  length (filter f l) <= length (filter g l)
  /\ (length (filter f l) = length (filter g l) -> filter f l = filter g l).
Proof.
  intros Hfg. induction l as [|x l [IHle IHeq]]; [split; reflexivity|].
  cbn [filter]. pose proof (Hfg x) as Hx.
  destruct (f x), (g x); cbn [length].
  - split; [lia|]. intros H. f_equal. apply IHeq. lia.
  - discriminate (Hx eq_refl).
  - split; [lia|]. intros H. lia.
  - split; assumption.
Qed.

Lemma vanishing_productions_grow (grammar : list Production) (n : nat) :
  length (vanishing_productions grammar (vanishing grammar n))
  <= length (vanishing_productions grammar (vanishing grammar (S n)))
  /\ (length (vanishing_productions grammar (vanishing grammar n))
      = length (vanishing_productions grammar (vanishing grammar (S n))) ->
      vanishing_productions grammar (vanishing grammar n)
      = vanishing_productions grammar (vanishing grammar (S n))).
Proof.
  unfold vanishing_productions. apply filter_grows.
  intros p. apply vanishes_mono. intros y Hy.
  apply known_In. apply vanishing_grows. now apply known_In.
Qed.

(** The rounds add nothing after as many of them as there are
    productions. *)
Lemma vanishing_settles (grammar : list Production) :
  forall n,
    vanishing_productions grammar (vanishing grammar n)
    = vanishing_productions grammar (vanishing grammar (S n))
    \/ S n <= length (vanishing_productions grammar
                        (vanishing grammar (S n))).
Proof.
  induction n as [|n IH].
  - destruct (vanishing_productions_grow grammar 0) as [Hle Heq].
    destruct (Nat.eq_dec
                (length (vanishing_productions grammar (vanishing grammar 0)))
                (length (vanishing_productions grammar
                           (vanishing grammar 1)))) as [E|E];
      [left; now apply Heq|right; lia].
  - destruct IH as [IH|IH].
    + left.
      exact (f_equal (fun l => vanishing_productions grammar (map fst l))
                     IH).
    + destruct (vanishing_productions_grow grammar (S n)) as [Hle Heq].
      destruct (Nat.eq_dec
                  (length (vanishing_productions grammar
                             (vanishing grammar (S n))))
                  (length (vanishing_productions grammar
                             (vanishing grammar (S (S n)))))) as [E|E];
        [left; now apply Heq|right; lia].
Qed.

Lemma nullable_of_closed (grammar : list Production) :
  closed_under_vanishing (nullable_of grammar) grammar = true.
Proof.
  unfold closed_under_vanishing. apply forallb_forall. intros p Hp.
  destruct (vanishes (nullable_of grammar) (snd p)) eqn:Hv; [|reflexivity].
  cbn [implb]. unfold nullable_of in *. apply known_In.
  destruct (vanishing_settles grammar (length grammar)) as [Heq|Hlen].
  - change (vanishing grammar (S (length grammar)))
      with (map fst (vanishing_productions grammar
                       (vanishing grammar (length grammar)))).
    rewrite Heq. apply in_map. apply filter_In. split; assumption.
  - exfalso. unfold vanishing_productions in Hlen.
    pose proof (filter_length_le
                  (fun p : Production =>
                     vanishes (known (vanishing grammar (S (length grammar))))
                              (snd p)) grammar).
    lia.
Qed.

Lemma all_nullable_away (grammar : list Production)
    (nullable : string -> bool) :
  (forall y, nullable y = true -> expands_away grammar y) ->
  forall symbols,
    all_nullable nullable symbols = true -> all_away grammar symbols.
Proof.
  intros Hsound. unfold all_nullable.
  induction symbols as [|y symbols IH]; [constructor|].
  cbn [forallb]. intros H. apply andb_true_iff in H as [Hy Hrest].
  apply andb_true_iff in Hy as [Hn Hk]. constructor; auto.
Qed.

Lemma vanishes_away (grammar : list Production) (nullable : string -> bool)
    (N : string) (rhs : list string) :
  (forall y, nullable y = true -> expands_away grammar y) ->
  In (N, rhs) grammar -> vanishes nullable rhs = true ->
  expands_away grammar N.
Proof.
  intros Hsound Hin Hv. destruct rhs as [|x rest]; [discriminate|].
  cbn [vanishes] in Hv. apply orb_true_iff in Hv as [Heps|Hall].
  - exact (@away_epsilon grammar N x rest Hin Heps).
  - apply (@away_all grammar N x rest Hin).
    exact (all_nullable_away grammar nullable Hsound _ Hall).
Qed.

Lemma vanishing_sound (grammar : list Production) :
  forall n N, In N (vanishing grammar n) -> expands_away grammar N.
Proof.
  induction n as [|n IH]; intros N HN; [destruct HN|].
  cbn [vanishing] in HN. apply in_map_iff in HN as ([lhs rhs] & <- & Hp).
  apply filter_In in Hp as [Hin Hv]. cbn [fst snd] in *.
  apply (vanishes_away grammar (known (vanishing grammar n)) lhs rhs);
    try assumption.
  intros y Hy. apply IH. now apply known_In.
Qed.

Lemma nullable_of_sound (grammar : list Production) (N : string) :
  nullable_of grammar N = true -> expands_away grammar N.
Proof.
  unfold nullable_of. intros H. apply known_In in H.
  exact (vanishing_sound grammar _ N H).
Qed.

(** A closed set holds every nonterminal that can be expanded away. *)
Lemma closed_holds_expands_away (grammar : list Production)
    (nullable : string -> bool) :
  closed_under_vanishing nullable grammar = true ->
  forall N, expands_away grammar N -> nullable N = true.
Proof.
  intros Hclosed. unfold closed_under_vanishing in Hclosed.
  rewrite forallb_forall in Hclosed.
  apply (@expands_away_both grammar
           (fun N => nullable N = true)
           (fun symbols => all_nullable nullable symbols = true)).
  - intros N x rest Hin Heps. specialize (Hclosed _ Hin).
    cbn [fst snd vanishes] in Hclosed. now rewrite Heps in Hclosed.
  - intros N x rest Hin _ Hall. specialize (Hclosed _ Hin).
    cbn [fst snd vanishes] in Hclosed. rewrite Hall, orb_true_r in Hclosed.
    exact Hclosed.
  - reflexivity.
  - intros y ys Hy _ Hk _ Hys. unfold all_nullable in *. cbn [forallb].
    now rewrite Hy, Hk, Hys.
Qed.

(** ** Left corners *)

Lemma exposed_left_corner (grammar : list Production)
    (nullable : string -> bool) :
  (forall y, nullable y = true -> expands_away grammar y) ->
  forall rhs M,
    In M (exposed nullable rhs) ->
    exists before after,
      rhs = before ++ M :: after
      /\ all_away grammar before
      /\ is_nonterm M = true.
Proof.
  intros Hsound. induction rhs as [|x rest IH]; intros M HM; [destruct HM|].
  cbn [exposed] in HM. destruct (is_nonterm x) eqn:Hx; [|destruct HM].
  destruct HM as [<-|HM].
  - exists [], rest. repeat split; [constructor|assumption].
  - destruct (nullable x) eqn:Hk; [|destruct HM].
    destruct (IH M HM) as (before & after & -> & Haway & Hn).
    exists (x :: before), after. repeat split; [|assumption].
    constructor; auto.
Qed.

Lemma left_corner_exposed (grammar : list Production)
    (nullable : string -> bool) :
  (forall y, expands_away grammar y -> nullable y = true) ->
  forall before M after,
    all_away grammar before -> is_nonterm M = true ->
    In M (exposed nullable (before ++ M :: after)).
Proof.
  intros Hcomplete before M after Haway HM.
  induction before as [|y before IH]; cbn [app exposed].
  - rewrite HM. now left.
  - inversion Haway as [|? ? Hy Hk Hrest]; subst.
    rewrite Hy, (Hcomplete y Hk). right. now apply IH.
Qed.

Lemma left_corners_In (nullable : string -> bool)
    (grammar : list Production) (N M : string) :
  In M (left_corners nullable grammar N)
  <-> exists rhs, In (N, rhs) grammar /\ In M (exposed nullable rhs).
Proof.
  unfold left_corners. rewrite in_flat_map. split.
  - intros ([lhs rhs] & Hin & HM). cbn [fst snd] in HM.
    destruct (String.eqb_spec lhs N) as [->|Hne]; [|destruct HM]. eauto.
  - intros (rhs & Hin & HM). exists (N, rhs). split; [assumption|].
    cbn [fst snd]. now rewrite String.eqb_refl.
Qed.

Lemma reaches_mono (R R' : string -> string -> Prop) :
  (forall N M, R N M -> R' N M) ->
  forall N M, reaches R N M -> reaches R' N M.
Proof.
  intros Hsub N M H. induction H as [N M H|N M L H _ IH].
  - apply reaches_step. now apply Hsub.
  - apply reaches_more with (M := M); [now apply Hsub|exact IH].
Qed.

(** A grammar without left recursion has a ranking: the nonterminals
    that can be expanded away, as found in rounds, and the length of the
    longest chain of left corners. *)
Lemma grammars_without_left_recursion_are_ranked
    (grammar : list Production) :
  ~ left_recursive grammar ->
  ranked (nullable_of grammar) (left_depth grammar) grammar = true.
Proof.
  intros Hfree. unfold ranked. rewrite nullable_of_closed. cbn [andb].
  apply forallb_forall. intros [N rhs] Hin. cbn [fst snd].
  apply forallb_forall. intros M HM. apply Nat.ltb_lt.
  unfold left_depth.
  replace (length grammar) with (length (map fst grammar))
    by apply length_map.
  apply (depth_descends (left_corners (nullable_of grammar) grammar)
           (map fst grammar)).
  - intros N0 M0 H0. apply left_corners_In in H0 as (rhs0 & Hin0 & _).
    apply in_map_iff. now exists (N0, rhs0).
  - intros N0 Hcycle. apply Hfree. exists N0. revert Hcycle.
    apply reaches_mono. intros N1 M1 H1.
    apply left_corners_In in H1 as (rhs1 & Hin1 & HM1).
    destruct (exposed_left_corner grammar (nullable_of grammar)
                (nullable_of_sound grammar) rhs1 M1 HM1)
      as (before & after & -> & Haway & Hn).
    now exists before, after.
  - apply left_corners_In. now exists rhs.
Qed.

(** A ranking rules left recursion out. *)
Lemma ranked_grammars_have_no_left_recursion
    (nullable : string -> bool) (rank : string -> nat)
    (grammar : list Production) :
  ranked nullable rank grammar = true -> ~ left_recursive grammar.
Proof.
  intros Hranked [N Hcycle].
  assert (Hclosed : closed_under_vanishing nullable grammar = true).
  { unfold ranked in Hranked. now apply andb_true_iff in Hranked as [H _]. }
  assert (Hdown : forall A B,
             reaches (left_corner grammar) A B -> rank B < rank A).
  { assert (Hstep : forall A B, left_corner grammar A B -> rank B < rank A).
    { intros A B (before & after & Hin & Haway & HB).
      apply (ranked_In nullable rank grammar A _ Hranked Hin).
      apply (left_corner_exposed grammar nullable); try assumption.
      apply closed_holds_expands_away. exact Hclosed. }
    intros A B H. induction H as [A B H|A B C H _ IH].
    - now apply Hstep.
    - apply Hstep in H. lia. }
  specialize (Hdown N N Hcycle). lia.
Qed.

(** The grammar of the counterexample is left-recursive. *)
Lemma left_recursive_grammar_is_left_recursive :
  left_recursive left_recursive_grammar.
Proof.
  exists "S". apply reaches_step. exists [], [quoted "a"].
  repeat split; [now left|constructor].
Qed.

(** C7, as the code has it: [_matches] keeps no bound on its search,
    which runs for ever on the left-recursive grammar
    [<S> ::= <S> "a" | "b"].  Left recursion is all that can keep it
    from returning: on a grammar in which no nonterminal reaches itself
    through left corners, recursive or not, [_matches] returns for
    every right-hand side and every lookahead, since the search can
    then expand only so many nonterminals before it consumes a
    lookahead symbol or gives the sequence up. *)
Theorem matches_terminates_without_left_recursion
    (grammar : list Production) (rhs terms : list string)
    (Hfree : ~ left_recursive grammar) :
  matches_terminates grammar rhs terms.
Proof.
  apply (matches_terminates_on_ranked_grammars grammar
           (nullable_of grammar) (left_depth grammar)).
  now apply grammars_without_left_recursion_are_ranked.
Qed.

Lemma matches_terminates_without_left_recursion_witness :
  ~ left_recursive right_recursive_grammar
  /\ matches_terminates right_recursive_grammar
       ["S"] [quoted "a"; quoted "c"].
Proof.
  assert (Hfree : ~ left_recursive right_recursive_grammar).
  { apply (ranked_grammars_have_no_left_recursion
             (fun _ => false)
             (fun N => if String.eqb N "S" then 1 else 0)).
    reflexivity. }
  split; [exact Hfree|].
  exact (matches_terminates_without_left_recursion right_recursive_grammar
           ["S"] [quoted "a"; quoted "c"] Hfree).
Defined.
(** ** Cells of the table *)

Lemma table_cell_write (table : Table) (nonterm : string)
    (row : dict lookahead Production) (term : lookahead) (p : Production)
    (nonterm' : string) (term' : lookahead) :
  dict_get String.eqb nonterm table = Some row ->
  table_cell
    (dict_set String.eqb nonterm (dict_set lookahead_eqb term p row) table)
    nonterm' term'
  = if String.eqb nonterm nonterm' && lookahead_eqb term term'
    then Some p else table_cell table nonterm' term'.
Proof.
  intros Hrow. unfold table_cell.
  destruct (String.eqb_spec nonterm nonterm') as [<-|Hne]; simpl.
  - rewrite (dict_get_set_eq String.eqb String.eqb_eq), Hrow.
    destruct (lookahead_eqb term term') eqn:E.
    + apply lookahead_eqb_spec in E. subst.
      apply (dict_get_set_eq lookahead_eqb lookahead_eqb_spec).
    + apply (dict_get_set_ne lookahead_eqb lookahead_eqb_spec).
      intros ->. rewrite (proj2 (lookahead_eqb_spec _ _) eq_refl) in E.
      discriminate.
  - now rewrite (dict_get_set_ne String.eqb String.eqb_eq).
Qed.

Lemma empty_table_rows (grammar : list Production) (nonterm : string)
    (row : dict lookahead Production) :
  dict_get String.eqb nonterm (empty_table grammar) = Some row -> row = [].
Proof.
  unfold empty_table.
  assert (G : forall l (acc : Table),
             (forall n r, dict_get String.eqb n acc = Some r -> r = []) ->
             forall n r,
               dict_get String.eqb n
                 (fold_left (fun t nt => dict_set String.eqb nt [] t) l acc)
               = Some r -> r = []).
  { induction l as [|x l IH]; intros acc Hacc n r; simpl; [apply Hacc|].
    apply IH. intros n0 r0.
    destruct (String.eqb_spec x n0) as [->|Hne].
    - rewrite (dict_get_set_eq String.eqb String.eqb_eq). now intros [= <-].
    - rewrite (dict_get_set_ne String.eqb String.eqb_eq) by assumption.
      apply Hacc. }
  apply G. intros n r. simpl. discriminate.
Qed.

Lemma empty_table_cell (grammar : list Production) (nonterm : string)
    (term : lookahead) :
  table_cell (empty_table grammar) nonterm term = None.
Proof.
  unfold table_cell.
  destruct (dict_get String.eqb nonterm (empty_table grammar)) as [row|] eqn:E;
    [|reflexivity].
  apply empty_table_rows in E. now subst.
Qed.

(** ** What [get_production_leading_to_terminal] returns *)

Lemma get_production_sound (grammar : list Production) (fuel : nat)
    (nonterm : string) (term : lookahead) (ps : list Production) :
  get_production_leading_to_terminal grammar fuel nonterm term = Ok ps ->
  forall p, In p ps -> fst p = nonterm /\ In p grammar.
Proof.
  unfold get_production_leading_to_terminal.
  destruct (dict_get String.eqb nonterm (adjacency_matrix grammar))
    as [rhss|] eqn:Hget; [|discriminate].
  destruct (adjacency_matrix_sound _ _ _ Hget) as [_ Hin].
  intros H.
  refine (foldM_inv
            (fun acc => forall p, In p acc -> fst p = nonterm /\ In p grammar)
            _ rhss _ [] ps _ H).
  - intros acc rhs acc' Hrhs Hacc.
    destruct (_matches grammar fuel rhs (as_tuple term)) as [m| |];
      simpl; try discriminate.
    intros [= <-]. destruct (truthy m); [|assumption].
    intros p Hp. apply in_app_or in Hp as [Hp|[<-|[]]]; auto.
  - intros p [].
Qed.

Lemma mapM_expand_raise (rest remaining : list string)
    (productions : list (list string)) (e : exn) :
  mapM (expand rest remaining) productions = Raise e -> search_exn e.
Proof.
  induction productions as [|p ps IH]; simpl; [discriminate|].
  destruct p as [|p0 p]; simpl; [now intros [= <-]|].
  destruct (is_epsilon p0); simpl;
    destruct (mapM (expand rest remaining) ps); simpl;
    try discriminate; intros [= <-]; now apply IH.
Qed.

Lemma matches_body_raise (grammar : list Production)
    (children remaining : list string) (e : exn) :
  _matches_body grammar children remaining = Raise e -> search_exn e.
Proof.
  unfold _matches_body.
  destruct (is_nil children || is_nil remaining); [discriminate|].
  destruct (consume children remaining) as [i|]; [|discriminate].
  destruct (if negb (is_nonterm (hd EmptyString children))
            then (skipn i children, skipn i remaining)
            else (children, remaining)) as [cs rs].
  destruct rs as [|r rs]; [discriminate|].
  destruct cs as [|head rest]; [discriminate|].
  destruct (negb (is_nonterm head)); [discriminate|].
  destruct (dict_get String.eqb head (adjacency_matrix grammar)) as [ps|];
    [|now intros [= <-]].
  pose proof (mapM_expand_raise rest (r :: rs) ps) as H.
  destruct (mapM (expand rest (r :: rs)) ps); simpl; try discriminate.
  intros [= <-]. now apply H.
Qed.

Lemma matches_loop_raise (grammar : list Production) (e : exn) :
  forall fuel queue,
    _matches_loop grammar fuel queue = Raise e -> search_exn e.
Proof.
  induction fuel as [|fuel IH]; intros queue; simpl; [discriminate|].
  destruct queue as [|[children remaining] queue]; [discriminate|].
  destruct (_matches_body grammar children remaining) as [[pushed|b]|e'|] eqn:E;
    try discriminate.
  - apply IH.
  - intros [= <-]. eapply matches_body_raise; eauto.
Qed.

Lemma get_production_raise (grammar : list Production) (fuel : nat)
    (nonterm : string) (term : lookahead) (e : exn) :
  get_production_leading_to_terminal grammar fuel nonterm term = Raise e ->
  search_exn e.
Proof.
  unfold get_production_leading_to_terminal.
  destruct (dict_get String.eqb nonterm (adjacency_matrix grammar))
    as [rhss|]; [|now intros [= <-]].
  intros H. apply foldM_raise in H as (rhs & acc & _ & H).
  unfold _matches in H.
  destruct (_matches_loop grammar fuel [(rhs, as_tuple term)]) eqn:E;
    simpl in H; try discriminate.
  injection H as <-. eapply matches_loop_raise; eauto.
Qed.

(** The turn of [generate_ktable] for one lookahead of [first[nonterm]]:
    the lookup found exactly one production; for epsilon the cells that
    were set stay as they are and new ones hold that production, and
    for another lookahead its own cell, and no other, is written. *)
Lemma ktable_cell_spec (grammar : list Production) (fuel : nat)
    (follow : dict string (list lookahead)) (table table' : Table)
    (nonterm : string) (term : lookahead) :
  ktable_cell grammar fuel follow table nonterm term = Ok table' ->
  exists p,
    get_production_leading_to_terminal grammar fuel nonterm term = Ok [p]
    /\ if lookahead_eqb term (LStr epsilon)
       then (forall n t q, table_cell table n t = Some q ->
                           table_cell table' n t = Some q)
            /\ (forall n t q, table_cell table' n t = Some q ->
                              table_cell table n t = Some q
                              \/ (n = nonterm /\ q = p))
       else forall n t,
           table_cell table' n t
           = if String.eqb nonterm n && lookahead_eqb term t
             then Some p else table_cell table n t.
Proof.
  unfold ktable_cell.
  destruct (get_production_leading_to_terminal grammar fuel nonterm term)
    as [ps| |]; simpl; try discriminate.
  destruct ps as [|p [|p' ps]]; try discriminate.
  intros H. exists p. split; [reflexivity|].
  destruct (lookahead_eqb term (LStr epsilon)).
  - destruct (dict_get String.eqb nonterm follow) as [terms2|];
      [|discriminate].
    revert H.
    apply (foldM_inv
             (fun tb : Table =>
                (forall n t q, table_cell table n t = Some q ->
                               table_cell tb n t = Some q)
                /\ (forall n t q, table_cell tb n t = Some q ->
                                  table_cell table n t = Some q
                                  \/ (n = nonterm /\ q = p)))).
    + intros tb term2 tb' _ [Hkeep Hnew].
      destruct (dict_get String.eqb nonterm tb) as [row|] eqn:Hrow;
        [|discriminate].
      unfold dict_mem.
      destruct (dict_get lookahead_eqb term2 row) eqn:Hcell.
      * intros [= <-]. auto.
      * intros [= <-]. split.
        -- intros n t q Hq. rewrite (table_cell_write _ _ _ _ _ _ _ Hrow).
           destruct (String.eqb nonterm n && lookahead_eqb term2 t) eqn:E;
             [|auto].
           apply andb_true_iff in E as [En Et].
           apply String.eqb_eq in En. apply lookahead_eqb_spec in Et.
           subst. apply Hkeep in Hq. unfold table_cell in Hq.
           rewrite Hrow, Hcell in Hq. discriminate.
        -- intros n t q. rewrite (table_cell_write _ _ _ _ _ _ _ Hrow).
           destruct (String.eqb nonterm n && lookahead_eqb term2 t) eqn:E.
           ++ apply andb_true_iff in E as [En _].
              apply String.eqb_eq in En. intros [= <-]. auto.
           ++ apply Hnew.
    + split; auto.
  - destruct (dict_get String.eqb nonterm table) as [row|] eqn:Hrow;
      [|discriminate].
    injection H as <-. intros n t.
    apply (table_cell_write _ _ _ _ _ _ _ Hrow).
Qed.

Lemma ktable_cell_ambiguous (grammar : list Production) (fuel : nat)
    (follow : dict string (list lookahead)) (table : Table)
    (nonterm : string) (term : lookahead)
    (n : string) (t : lookahead) (ps : list Production) :
  ktable_cell grammar fuel follow table nonterm term
  = Raise (AmbiguousGrammar n t ps) ->
  n = nonterm /\ t = term
  /\ get_production_leading_to_terminal grammar fuel nonterm term = Ok ps
  /\ length ps <> 1.
Proof.
  unfold ktable_cell.
  destruct (get_production_leading_to_terminal grammar fuel nonterm term)
    as [qs|e|] eqn:Hget; simpl; try discriminate.
  - destruct qs as [|p [|p' qs]].
    + intros [= <- <- <-]. repeat split; auto.
    + destruct (lookahead_eqb term (LStr epsilon)).
      * destruct (dict_get String.eqb nonterm follow) as [terms2|];
          [|discriminate].
        intros H. apply foldM_raise in H as (term2 & tb & _ & H).
        destruct (dict_get String.eqb nonterm tb); [|discriminate].
        destruct (dict_mem lookahead_eqb term2 d); discriminate.
      * destruct (dict_get String.eqb nonterm table); discriminate.
    + intros [= <- <- <-]. repeat split; auto. simpl. lia.
  - intros [= ->]. apply get_production_raise in Hget. destruct Hget.
Qed.

Lemma ktable_cell_keeps (grammar : list Production) (fuel : nat)
    (follow : dict string (list lookahead)) (table table' : Table)
    (nonterm : string) (term : lookahead) (n : string) (t : lookahead)
    (p : Production) :
  get_production_leading_to_terminal grammar fuel n t = Ok [p] ->
  table_cell table n t = Some p ->
  ktable_cell grammar fuel follow table nonterm term = Ok table' ->
  table_cell table' n t = Some p.
Proof.
  intros Hget Hcell H. apply ktable_cell_spec in H as (p' & Hget' & H).
  destruct (lookahead_eqb term (LStr epsilon)).
  - now apply H.
  - rewrite H. destruct (String.eqb nonterm n && lookahead_eqb term t) eqn:E;
      [|assumption].
    apply andb_true_iff in E as [En Et].
    apply String.eqb_eq in En. apply lookahead_eqb_spec in Et. subst.
    congruence.
Qed.

Lemma lookahead_eqb_false (a b : lookahead) :
  a <> b -> lookahead_eqb a b = false.
Proof.
  intros H. destruct (lookahead_eqb a b) eqn:E; [|reflexivity].
  apply lookahead_eqb_spec in E. contradiction.
Qed.

(** ** The rows of the table *)

Lemma dict_mem_set {V} (k k' : string) (v : V) (d : dict string V) :
  dict_mem String.eqb k d = true ->
  dict_mem String.eqb k (dict_set String.eqb k' v d) = true.
Proof.
  unfold dict_mem. intros H.
  destruct (String.eqb_spec k' k) as [->|Hne].
  - now rewrite (dict_get_set_eq String.eqb String.eqb_eq).
  - now rewrite (dict_get_set_ne String.eqb String.eqb_eq).
Qed.

Lemma empty_table_has_rows (grammar : list Production) (n : string) :
  In n (nonterminals grammar) ->
  dict_mem String.eqb n (empty_table grammar) = true.
Proof.
  unfold empty_table. generalize (nonterminals grammar). intros l.
  assert (G : forall (l : list string) (acc : Table),
             dict_mem String.eqb n acc = true \/ In n l ->
             dict_mem String.eqb n
               (fold_left (fun t nt => dict_set String.eqb nt [] t) l acc)
             = true).
  { induction l0 as [|x l0 IH]; intros acc; simpl.
    - intros [H|[]]. exact H.
    - intros [H|[->|H]]; apply IH; auto.
      + left. now apply dict_mem_set.
      + left. unfold dict_mem.
        now rewrite (dict_get_set_eq String.eqb String.eqb_eq). }
  intros H. apply G. now right.
Qed.

(** With its row in the table and, for epsilon, its FOLLOW at hand, a
    turn whose lookup returned records its production or raises the
    ambiguity error; the rows stay. *)
Lemma ktable_cell_outcome (grammar : list Production) (fuel : nat)
    (follow : dict string (list lookahead)) (table : Table)
    (n : string) (t : lookahead) (ps : list Production) :
  get_production_leading_to_terminal grammar fuel n t = Ok ps ->
  dict_mem String.eqb n table = true ->
  (t = LStr epsilon -> dict_get String.eqb n follow <> None) ->
  (exists table',
      ktable_cell grammar fuel follow table n t = Ok table'
      /\ forall m, dict_mem String.eqb m table = true ->
                   dict_mem String.eqb m table' = true)
  \/ (ktable_cell grammar fuel follow table n t
      = Raise (AmbiguousGrammar n t ps)).
Proof.
  intros Hget Hrow Hfollow. unfold ktable_cell. rewrite Hget. simpl.
  destruct ps as [|p [|p' ps]]; [now right| |now right]. left.
  destruct (lookahead_eqb t (LStr epsilon)) eqn:Et.
  - apply lookahead_eqb_spec in Et.
    destruct (dict_get String.eqb n follow) as [terms2|];
      [|now destruct (Hfollow Et)].
    destruct (foldM_outcome
                (fun tb : Table =>
                   forall m, dict_mem String.eqb m table = true ->
                             dict_mem String.eqb m tb = true)
                (fun _ => False)
                (fun (table : Table) term2 =>
                   match dict_get String.eqb n table with
                   | None => Raise (KeyError n)
                   | Some row =>
                       if dict_mem lookahead_eqb term2 row then Ok table
                       else Ok (dict_set String.eqb n
                                  (dict_set lookahead_eqb term2 p row) table)
                   end)
                terms2) with (acc := table)
      as [(r & Hr & HP)|(e & _ & [])]; [|auto|eauto].
    intros b x _ Hb. left.
    pose proof (Hb n Hrow) as Hn. unfold dict_mem in Hn.
    destruct (dict_get String.eqb n b) as [row|]; [|discriminate].
    destruct (dict_mem lookahead_eqb x row); eexists; split;
      try reflexivity; auto.
    intros m Hm. apply dict_mem_set. auto.
  - unfold dict_mem in Hrow.
    destruct (dict_get String.eqb n table) as [row|] eqn:Er;
      [|discriminate].
    eexists. split; [reflexivity|].
    intros m Hm. now apply dict_mem_set.
Qed.

(** ** Table assembly and the ambiguity error (C2) *)

Example ktable_of_unmatched_lookahead :
  get_production_leading_to_terminal single_terminal_grammar 10
    "S" (LStr (quoted "b")) = Ok []
  /\ generate_ktable single_terminal_grammar 10
       [("S", [LStr (quoted "b")])] [("S", [LStr "$"])] 1
     = Raise (AmbiguousGrammar "S" (LStr (quoted "b")) []).
Proof. split; reflexivity. Qed.

(** C2, counterexample: for [<S> ::= "a"] and a FIRST set that holds
    ["b"], no production is returned for [(S, "b")], which is not more
    than one, and table assembly fails with the ambiguity error all the
    same. *)
Lemma ktable_fails_on_zero_productions :
  ~ (forall first follow n t ps,
        generate_ktable single_terminal_grammar 10 first follow 1
        = Raise (AmbiguousGrammar n t ps) ->
        get_production_leading_to_terminal single_terminal_grammar 10 n t
        = Ok ps
        /\ 1 < length ps).
Proof.
  intros H.
  destruct (H [("S", [LStr (quoted "b")])] [("S", [LStr "$"])]
              "S" (LStr (quoted "b")) []
              (proj2 ktable_of_unmatched_lookahead)) as [_ Hlen].
  simpl in Hlen. lia.
Qed.

(** C2, as the code has it: table assembly fails with the ambiguity
    error, which carries the nonterminal, the lookahead and the
    candidates, only for a lookahead of a FIRST set whose lookup did
    not return one production, none included, and it never succeeds
    when there is such a lookahead; when it succeeds every lookup
    returned exactly one production, and every cell of the table is
    absent or holds one production of its nonterminal.  When every
    lookup returns, every nonterminal of FIRST has productions and
    FOLLOW is there for the nullable ones, assembly has no other
    outcome than the table or the ambiguity error. *)
Theorem ktable_fails_unless_one_production
    (grammar : list Production) (fuel : nat)
    (first follow : dict string (list lookahead)) (k : nat) :
  (forall n t ps,
      generate_ktable grammar fuel first follow k
      = Raise (AmbiguousGrammar n t ps) ->
      (exists terms, In (n, terms) first /\ In t terms)
      /\ get_production_leading_to_terminal grammar fuel n t = Ok ps
      /\ length ps <> 1)
  /\ (forall table,
         generate_ktable grammar fuel first follow k = Ok table ->
         (forall n terms t,
             In (n, terms) first -> In t terms ->
             exists p,
               get_production_leading_to_terminal grammar fuel n t = Ok [p])
         /\ (forall n t,
                table_cell table n t = None
                \/ exists p, table_cell table n t = Some p
                             /\ fst p = n /\ In p grammar))
  /\ (forall n terms t ps,
         In (n, terms) first -> In t terms ->
         get_production_leading_to_terminal grammar fuel n t = Ok ps ->
         length ps <> 1 ->
         forall table, generate_ktable grammar fuel first follow k <> Ok table)
  /\ ((forall n terms t,
          In (n, terms) first -> In t terms ->
          (exists ps,
              get_production_leading_to_terminal grammar fuel n t = Ok ps)
          /\ In n (nonterminals grammar)
          /\ (t = LStr epsilon -> dict_get String.eqb n follow <> None)) ->
      (exists table, generate_ktable grammar fuel first follow k = Ok table)
      \/ (exists n t ps,
             generate_ktable grammar fuel first follow k
             = Raise (AmbiguousGrammar n t ps))).
Proof.
  assert (Hall : forall table,
             generate_ktable grammar fuel first follow k = Ok table ->
             forall n terms t,
               In (n, terms) first -> In t terms ->
               exists p,
                 get_production_leading_to_terminal grammar fuel n t = Ok [p]).
  { unfold generate_ktable. intros table H n terms t Hrow Hterm.
    destruct (foldM_ok_each _ _ _ _ H _ Hrow) as (tb & tb' & Hr).
    unfold ktable_row in Hr. simpl in Hr.
    destruct (foldM_ok_each _ _ _ _ Hr _ Hterm) as (tb1 & tb2 & Hc).
    apply ktable_cell_spec in Hc as (p & Hget & _). eauto. }
  split; [|split; [|split]];
    [| |intros n terms t ps Hrow Hterm Hget Hlen table H;
        destruct (Hall table H n terms t Hrow Hterm) as [p Hp];
        rewrite Hp in Hget; injection Hget as <-;
        now apply Hlen|].
  - unfold generate_ktable. intros n t ps H.
    apply foldM_raise in H as ([n' terms] & tb & Hrow & H).
    unfold ktable_row in H. simpl in H.
    apply foldM_raise in H as (t' & tb' & Hterm & H).
    apply ktable_cell_ambiguous in H as (-> & -> & Hget & Hlen).
    eauto.
  - intros table H. split; [exact (Hall table H)|].
    unfold generate_ktable in H.
    + assert (Hinv : forall n t q, table_cell table n t = Some q ->
                                   fst q = n /\ In q grammar).
      { revert H.
        apply (foldM_inv
                 (fun tb : Table =>
                    forall n t q, table_cell tb n t = Some q ->
                                  fst q = n /\ In q grammar)).
        - intros tb [n' terms] tb' _ Htb. unfold ktable_row. simpl.
          apply (foldM_inv
                   (fun tb : Table =>
                      forall n t q, table_cell tb n t = Some q ->
                                    fst q = n /\ In q grammar)); auto.
          clear tb tb' Htb. intros tb term tb' _ Htb Hc n t q.
          apply ktable_cell_spec in Hc as (p & Hget & Hc).
          pose proof (get_production_sound _ _ _ _ _ Hget p
                        (or_introl eq_refl)) as Hp.
          destruct (lookahead_eqb term (LStr epsilon)).
          + intros Hq. apply (proj2 Hc) in Hq as [Hq|[-> ->]]; eauto.
          + rewrite Hc.
            destruct (String.eqb n' n && lookahead_eqb term t) eqn:E.
            * apply andb_true_iff in E as [En _].
              apply String.eqb_eq in En. subst. now intros [= <-].
            * apply Htb.
        - intros n t q. now rewrite empty_table_cell. }
      intros n t. destruct (table_cell table n t) as [q|] eqn:E; [|now left].
      right. exists q. split; [reflexivity|]. eauto.
  - intros Hwf. unfold generate_ktable.
    destruct (foldM_outcome
                (fun tb : Table =>
                   forall m, In m (nonterminals grammar) ->
                             dict_mem String.eqb m tb = true)
                (fun e => exists n t ps, e = AmbiguousGrammar n t ps)
                (ktable_row grammar fuel follow) first)
      with (acc := empty_table grammar)
      as [(r & Hr & _)|(e & He & n & t & ps & ->)]; [| |eauto|eauto].
    + intros tb [n terms] Hrow Htb. unfold ktable_row. simpl.
      apply (foldM_outcome
               (fun tb : Table =>
                  forall m, In m (nonterminals grammar) ->
                            dict_mem String.eqb m tb = true)
               (fun e => exists n t ps, e = AmbiguousGrammar n t ps));
        [|assumption].
      intros b t Ht Hb.
      destruct (Hwf n terms t Hrow Ht) as ((ps & Hget) & Hn & Hfollow).
      destruct (ktable_cell_outcome grammar fuel follow b n t ps Hget
                  (Hb n Hn) Hfollow) as [(b' & Hb' & Hkeep)|Hraise].
      * left. exists b'. split; [assumption|]. intros m Hm.
        apply Hkeep. auto.
      * right. eexists. split; [exact Hraise|]. eauto.
    + intros m Hm. now apply empty_table_has_rows.
Qed.

Lemma ktable_fails_unless_one_production_witness :
  generate_ktable single_terminal_grammar 10
    [("S", [LStr (quoted "a")])] [("S", [LStr "$"])] 1
  = Ok [("S", [(LStr (quoted "a"), ("S", [quoted "a"]))])]
  /\ exists p,
      get_production_leading_to_terminal single_terminal_grammar 10
        "S" (LStr (quoted "a")) = Ok [p].
Proof.
  split; [reflexivity|].
  apply (proj1 (proj1 (proj2 (ktable_fails_unless_one_production
                                single_terminal_grammar 10
                                [("S", [LStr (quoted "a")])]
                                [("S", [LStr "$"])] 1))
                  [("S", [(LStr (quoted "a"), ("S", [quoted "a"]))])]
                  eq_refl)
           "S" [LStr (quoted "a")] (LStr (quoted "a"))).
  - simpl. left. reflexivity.
  - simpl. left. reflexivity.
Defined.

(** ** What a recording may replace (C3) *)

Example ktable_of_nullable_grammar :
  let follow := [("N", [LStr (quoted "a")])] in
  let table1 := [("N", [(LStr (quoted "a"), ("N", [epsilon]))])] in
  let table2 := [("N", [(LStr (quoted "a"), ("N", [quoted "a"]))])] in
  generate_ktable nullable_grammar 10 [("N", [LStr epsilon])] follow 1
  = Ok table1
  /\ ktable_cell nullable_grammar 10 follow table1 "N" (LStr (quoted "a"))
     = Ok table2
  /\ generate_ktable nullable_grammar 10
       [("N", [LStr epsilon; LStr (quoted "a")])] follow 1 = Ok table2.
Proof. repeat split. Qed.

(** C3, counterexample: for [<N> ::= ε | "a"] with FIRST(N) iterated as
    epsilon, ["a"] and FOLLOW(N) holding ["a"], the turn for epsilon
    binds the cell [(N, "a")] to [N -> ε], and the non-epsilon recording
    for ["a"] then replaces it with [N -> "a"]: the table reached after
    a part of FIRST has a cell that the next recording overwrites with
    another production. *)
Lemma ktable_non_epsilon_write_replaces_cell :
  ~ (forall first follow table table' n t p1,
        generate_ktable nullable_grammar 10 first follow 1 = Ok table ->
        t <> LStr epsilon ->
        ktable_cell nullable_grammar 10 follow table n t = Ok table' ->
        table_cell table n t = Some p1 ->
        table_cell table' n t = Some p1).
Proof.
  intros H.
  destruct ktable_of_nullable_grammar as (H1 & H2 & _).
  assert (Hne : LStr (quoted "a") <> LStr epsilon) by discriminate.
  pose proof (H [("N", [LStr epsilon])] [("N", [LStr (quoted "a")])]
                [("N", [(LStr (quoted "a"), ("N", [epsilon]))])]
                [("N", [(LStr (quoted "a"), ("N", [quoted "a"]))])]
                "N" (LStr (quoted "a")) ("N", [epsilon])
                H1 Hne H2 eq_refl) as Hcell.
  discriminate Hcell.
Qed.

(** C3, as the code has it: the turn for epsilon never replaces a cell
    that is set, while a non-epsilon recording is unconditional: it
    writes the cell of its own lookahead, whatever that cell held, and
    no other cell.  So the cell of every non-epsilon lookahead of
    FIRST(N) ends up holding the production found for that lookahead. *)
Theorem ktable_first_lookahead_wins
    (grammar : list Production) (fuel : nat)
    (follow : dict string (list lookahead)) :
  (forall table table' n t,
      ktable_cell grammar fuel follow table n t = Ok table' ->
      if lookahead_eqb t (LStr epsilon)
      then forall n' t' q, table_cell table n' t' = Some q ->
                           table_cell table' n' t' = Some q
      else exists p,
          get_production_leading_to_terminal grammar fuel n t = Ok [p]
          /\ table_cell table' n t = Some p
          /\ forall n' t', (n', t') <> (n, t) ->
                           table_cell table' n' t' = table_cell table n' t')
  /\ (forall first k table n terms t,
         generate_ktable grammar fuel first follow k = Ok table ->
         In (n, terms) first -> In t terms -> t <> LStr epsilon ->
         exists p,
           get_production_leading_to_terminal grammar fuel n t = Ok [p]
           /\ table_cell table n t = Some p).
Proof.
  split.
  - intros table table' n t H.
    apply ktable_cell_spec in H as (p & Hget & H).
    destruct (lookahead_eqb t (LStr epsilon)); [apply H|].
    exists p. split; [assumption|]. split.
    + rewrite H, String.eqb_refl.
      now rewrite (proj2 (lookahead_eqb_spec t t) eq_refl).
    + intros n' t' Hne. rewrite H.
      destruct (String.eqb n n' && lookahead_eqb t t') eqn:E; [|reflexivity].
      apply andb_true_iff in E as [En Et].
      apply String.eqb_eq in En. apply lookahead_eqb_spec in Et.
      subst. contradiction.
  - intros first k table n terms t H Hrow Hterm Hne.
    unfold generate_ktable in H.
    set (P := fun tb : Table =>
                exists p,
                  get_production_leading_to_terminal grammar fuel n t = Ok [p]
                  /\ table_cell tb n t = Some p).
    assert (Hkeep : forall tb tb' n2 t2,
               P tb -> ktable_cell grammar fuel follow tb n2 t2 = Ok tb' ->
               P tb').
    { intros tb tb' n2 t2 (p & Hget & Hcell) Hc. exists p.
      split; [assumption|]. eapply ktable_cell_keeps; eauto. }
    refine (foldM_establish P (ktable_row grammar fuel follow) first
              (n, terms) Hrow _ _ (empty_table grammar) table H).
    + intros tb tb' Hr.
      refine (foldM_establish P
                (fun table term => ktable_cell grammar fuel follow table n term)
                terms t Hterm _ _ tb tb' Hr).
      * intros b b' Hc. apply ktable_cell_spec in Hc as (p & Hget & Hc).
        rewrite (lookahead_eqb_false _ _ Hne) in Hc.
        exists p. split; [assumption|].
        rewrite Hc, String.eqb_refl.
        now rewrite (proj2 (lookahead_eqb_spec t t) eq_refl).
      * intros y b b' _. apply Hkeep.
    + intros [n2 terms2] tb tb' _ HP Hr. unfold ktable_row in Hr.
      simpl in Hr. revert Hr. apply foldM_inv; [|assumption].
      intros b y b' _. apply Hkeep.
Qed.

Lemma ktable_first_lookahead_wins_witness :
  exists p,
    get_production_leading_to_terminal nullable_grammar 10
      "N" (LStr (quoted "a")) = Ok [p]
    /\ table_cell [("N", [(LStr (quoted "a"), ("N", [quoted "a"]))])]
         "N" (LStr (quoted "a")) = Some p.
Proof.
  apply (proj2 (ktable_first_lookahead_wins nullable_grammar 10
                  [("N", [LStr (quoted "a")])])
           [("N", [LStr epsilon; LStr (quoted "a")])] 1
           [("N", [(LStr (quoted "a"), ("N", [quoted "a"]))])]
           "N" [LStr epsilon; LStr (quoted "a")] (LStr (quoted "a"))).
  - reflexivity.
  - simpl. left. reflexivity.
  - simpl. right. left. reflexivity.
  - discriminate.
Defined.

(** ** Sets kept as lists *)

Lemma set_add_In {A} (eqb : A -> A -> bool) (x y : A) (s : list A) :
  In y (set_add eqb x s) -> In y s \/ y = x.
Proof.
  unfold set_add. destruct (existsb (eqb x) s); [auto|].
  intros H. apply in_app_or in H as [H|[<-|[]]]; auto.
Qed.

Lemma fold_set_add_In {A} (eqb : A -> A -> bool) (xs : list A) :
  forall s y, In y (fold_left (fun s x => set_add eqb x s) xs s) ->
              In y s \/ In y xs.
Proof.
  induction xs as [|x xs IH]; intros s y; simpl; [auto|].
  intros H. apply IH in H as [H|H]; [|auto].
  apply set_add_In in H as [H| ->]; auto.
Qed.

Lemma fs_or_In (a b : FirstSet) (m : SubProduction) :
  In m (fs_or a b) -> In m a \/ In m b.
Proof. apply fold_set_add_In. Qed.

Lemma fold_fs_or_In (yielded : list FirstSet) :
  forall acc m, In m (fold_left fs_or yielded acc) ->
                In m acc \/ exists fs, In fs yielded /\ In m fs.
Proof.
  induction yielded as [|fs yielded IH]; intros acc m; simpl; [auto|].
  intros H. apply IH in H as [H|(fs' & Hin & Hm)].
  - apply fs_or_In in H as [H|H]; [auto|]. right. exists fs. auto.
  - right. exists fs'. auto.
Qed.

Lemma fs_mul_In (a b : FirstSet) (m : SubProduction) :
  In m (fs_mul a b) -> exists x y, In x a /\ In y b /\ m = x ++ y.
Proof.
  unfold fs_mul. intros H. apply fold_set_add_In in H as [[]|H].
  apply in_flat_map in H as (x & Hx & H).
  apply in_map_iff in H as (y & <- & Hy). eauto.
Qed.

(** ** Lengths of the members [_kfirst] yields *)

Lemma real_length_app (a b : SubProduction) :
  real_length (a ++ b) = real_length a + real_length b.
Proof. unfold real_length, normalized. now rewrite filter_app, length_app. Qed.

Lemma real_length_le (a : SubProduction) : real_length a <= length a.
Proof. apply filter_length_le. Qed.

Lemma take_terminals_length (k : nat) :
  forall symbols, length (fst (take_terminals k symbols)) <= k.
Proof.
  induction k as [|k IH]; intros [|x symbols]; simpl; try lia.
  destruct (is_term x || is_epsilon x); simpl; [|lia].
  specialize (IH symbols). destruct (take_terminals k symbols). simpl in *.
  lia.
Qed.

Lemma initial_terminals_length (k : nat) (symbols : SubProduction) :
  let terms := fst (initial_terminals k symbols) in
  length terms <= k
  \/ (k = 0 /\ exists x, terms = [x] /\ is_epsilon x = true).
Proof.
  unfold initial_terminals. destruct k as [|k].
  - destruct symbols as [|x symbols]; simpl; [left; lia|].
    destruct (is_epsilon x) eqn:E; simpl; [|left; lia].
    right. split; [reflexivity|]. now exists x.
  - left. apply take_terminals_length.
Qed.

Lemma kfirst_member_app (i j : nat) (a b : SubProduction) :
  kfirst_member i a -> kfirst_member j b -> kfirst_member (i + j) (a ++ b).
Proof.
  unfold kfirst_member. rewrite real_length_app, length_app. lia.
Qed.

Lemma kfirst_members (grammar : list Production) :
  forall fuel active symbol k allow_underflow yielded,
    _kfirst grammar fuel active symbol k allow_underflow = Ok yielded ->
    forall fs m, In fs yielded -> In m fs -> kfirst_member k m.
Proof.
  induction fuel as [|fuel IH];
    intros active symbol k au yielded; [discriminate|].
  cbn [_kfirst].
  destruct (existsb _ active); [intros [= <-] fs m []|].
  set (act := (symbol, k, au) :: active). clearbody act.
  destruct symbol as [s|[|head tail]].
  - (* a nonterminal: the union over its right-hand sides *)
    destruct (mapM _ (grammar_get grammar s)) as [ys| |] eqn:E;
      simpl; try discriminate.
    intros [= <-] fs m Hfs Hm.
    apply in_concat in Hfs as (y & Hy & Hfs).
    destruct (mapM_ok_In _ _ _ E _ Hy) as (sub & _ & Hsub).
    eapply IH; eauto.
  - (* the empty sub-production *)
    intros [= <-] fs m [<-|[]] [].
  - pose proof (initial_terminals_length k (head :: tail)) as Hlen.
    destruct (initial_terminals k (head :: tail)) as [terms rest].
    simpl in Hlen.
    destruct (Nat.eqb (length terms) 1 && is_epsilon (hd EmptyString terms)
              && Nat.eqb k 0) eqn:C1.
    { (* a lone epsilon at k = 0 *)
      apply andb_true_iff in C1 as [C1 Hk].
      apply andb_true_iff in C1 as [Hone Heps].
      apply Nat.eqb_eq in Hk, Hone.
      intros [= <-] fs m [<-|[]] [<-|[]].
      destruct terms as [|x [|? ?]]; try discriminate. simpl in Heps.
      unfold kfirst_member, real_length, normalized. simpl.
      rewrite Heps. simpl. lia. }
    assert (Hle : length terms <= k).
    { destruct Hlen as [|(-> & x & -> & Hx)]; [assumption|].
      simpl in C1. rewrite Hx in C1. discriminate. }
    destruct (negb (is_nil terms) && Nat.eqb (length terms) k
              && (au || is_nil rest)) eqn:C2.
    { (* enough leading terminals *)
      apply andb_true_iff in C2 as [C2 _].
      apply andb_true_iff in C2 as [_ Hk]. apply Nat.eqb_eq in Hk.
      intros [= <-] fs m [<-|[]] [<-|[]].
      split; [rewrite <- Hk; apply real_length_le|lia]. }
    destruct (is_nil rest); [intros [= <-] fs m []|].
    destruct (Nat.eqb (length terms) 0) eqn:C3.
    + (* a leading nonterminal *)
      destruct (_kfirst grammar fuel act (Sym head) k au)
        as [from_head| |] eqn:Eh; simpl; try discriminate.
      destruct (mapM _ (seq 1 k)) as [products| |] eqn:Ep;
        simpl; try discriminate.
      intros [= <-] fs m Hfs Hm.
      apply in_app_or in Hfs as [Hfs|Hfs]; [eapply IH; eauto|].
      apply in_concat in Hfs as (pr & Hpr & Hfs).
      destruct (mapM_ok_In _ _ _ Ep _ Hpr) as (i & Hi & Hprod).
      apply in_seq in Hi.
      destruct (_kfirst grammar fuel act (Sym head) (k - i) false)
        as [first_firsts| |] eqn:Ef; simpl in Hprod; try discriminate.
      destruct (mapM _ first_firsts) as [per_first| |] eqn:Em;
        simpl in Hprod; try discriminate.
      injection Hprod as <-.
      apply in_concat in Hfs as (pf & Hpf & Hfs).
      destruct (mapM_ok_In _ _ _ Em _ Hpf) as (ff & Hff & Hsec).
      destruct (_kfirst grammar fuel act (Sub tail) i au)
        as [second_firsts| |] eqn:Es; simpl in Hsec; try discriminate.
      injection Hsec as <-.
      apply in_map_iff in Hfs as (sf & <- & Hsf).
      apply fs_mul_In in Hm as (a & b & Ha & Hb & ->).
      replace k with ((k - i) + i) by lia.
      apply kfirst_member_app; eapply IH; eauto.
    + (* leading terminals, then a nonterminal *)
      destruct (_kfirst grammar fuel act (Sub rest) (k - length terms) au)
        as [rest_kfirst| |] eqn:Er; simpl; try discriminate.
      intros [= <-] fs m [<-|[]] Hm.
      apply fs_mul_In in Hm as (a & b & [<-|[]] & Hb & ->).
      apply fold_fs_or_In in Hb as [[]|(fs & Hfs & Hb)].
      replace k with (length terms + (k - length terms)) by lia.
      apply kfirst_member_app; [|eapply IH; eauto].
      split; [apply real_length_le|lia].
Qed.

(** ** Member lengths (C4) *)

Example kfirst_of_nullable_head :
  _kfirst nullable_head_grammar 20 [] (Sub ["A"; quoted "b"]) 1 false
  = Ok [[[quoted "a"]]; [[epsilon]]; [[epsilon; quoted "b"]]].
Proof. reflexivity. Qed.

Example kfirst_of_epsilon_at_zero :
  _kfirst nullable_head_grammar 20 [] (Sub [epsilon]) 0 false
  = Ok [[[epsilon]]].
Proof. reflexivity. Qed.

(** C4, counterexample: for [<S> ::= <A> "b"], [<A> ::= "a" | ε] the
    call [_kfirst(<A "b">, 1, allow_underflow=False)] yields the
    members [<ε "b">] and [<ε>].  The first has length 2 and is not the
    singleton of epsilon.  Should length count the symbols that are not
    epsilon, the second has length 0, and no notion of nullable that
    denies it to a sub-production holding a terminal excuses it. *)
Lemma kfirst_yields_members_of_other_lengths :
  ~ (forall x k yielded fs m,
        _kfirst nullable_head_grammar 20 [] x k false = Ok yielded ->
        In fs yielded -> In m fs ->
        length m = k \/ (m = [epsilon] /\ 0 < k))
  /\ ~ (exists nullable : firstarg -> Prop,
          (forall p, existsb is_term p = true -> ~ nullable (Sub p))
          /\ forall x k yielded fs m,
              _kfirst nullable_head_grammar 20 [] x k false = Ok yielded ->
              In fs yielded -> In m fs ->
              real_length m = k
              \/ (m = [epsilon] /\ 0 < k /\ nullable x)).
Proof.
  split.
  - intros H.
    destruct (H (Sub ["A"; quoted "b"]) 1 _ [[epsilon; quoted "b"]]
                [epsilon; quoted "b"] kfirst_of_nullable_head)
      as [Hlen|[Heq _]].
    + simpl. auto.
    + simpl. auto.
    + discriminate Hlen.
    + discriminate Heq.
  - intros (nullable & Hterm & H).
    destruct (H (Sub ["A"; quoted "b"]) 1 _ [[epsilon]] [epsilon]
                kfirst_of_nullable_head)
      as [Hlen|(_ & _ & Hnull)].
    + simpl. auto.
    + simpl. auto.
    + discriminate Hlen.
    + apply (Hterm ["A"; quoted "b"]); [reflexivity|assumption].
Qed.

(** C4, as the code has it: epsilon counts as a symbol of length 1 in
    the members [_kfirst] yields and may stand anywhere in them.  Every
    member yielded for [k] with [allow_underflow=False] has at least
    [k] symbols, at most [k] of which are not epsilon; a member without
    epsilon has length exactly [k]. *)
Theorem kfirst_member_lengths
    (grammar : list Production) (fuel : nat) (active : list first_key)
    (symbol : firstarg) (k : nat) (yielded : list FirstSet)
    (fs : FirstSet) (m : SubProduction)
    (Hrun : _kfirst grammar fuel active symbol k false = Ok yielded)
    (Hfs : In fs yielded) (Hm : In m fs) :
  real_length m <= k /\ k <= length m
  /\ (real_length m = length m -> length m = k).
Proof.
  destruct (kfirst_members grammar fuel active symbol k false yielded
              Hrun fs m Hfs Hm) as [H1 H2].
  repeat split; try assumption. lia.
Qed.

Lemma kfirst_member_lengths_witness :
  real_length [epsilon; quoted "b"] <= 1
  /\ 1 <= length [epsilon; quoted "b"]
  /\ (real_length [epsilon; quoted "b"] = length [epsilon; quoted "b"] ->
      length [epsilon; quoted "b"] = 1).
Proof.
  apply (kfirst_member_lengths nullable_head_grammar 20 []
           (Sub ["A"; quoted "b"]) 1
           [[[quoted "a"]]; [[epsilon]]; [[epsilon; quoted "b"]]]
           [[epsilon; quoted "b"]] [epsilon; quoted "b"]).
  - reflexivity.
  - simpl. right. right. left. reflexivity.
  - simpl. left. reflexivity.
Defined.

(** ** The entries of [kfirst] (C9) *)

Lemma initial_entries_empty {A} (keys : list string) (symbol : string)
    (entries : list A) :
  dict_get String.eqb symbol (map (fun x => (x, [])) keys) = Some entries ->
  entries = [].
Proof.
  induction keys as [|x keys IH]; simpl; [discriminate|].
  destruct (String.eqb x symbol); [now intros [= <-]|assumption].
Qed.

Lemma first_entry_cases (n : SubProduction) :
  (exists x, n = [x] /\ first_entry n = LStr x)
  \/ (2 <= length n /\ first_entry n = LTup n)
  \/ (n = [] /\ first_entry n = LStr epsilon).
Proof.
  destruct n as [|x [|y n]]; simpl.
  - right. right. auto.
  - left. eauto.
  - right. left. split; [lia|reflexivity].
Qed.

Lemma kfirst_symbol_entries (grammar : list Production) (fuel k i : nat)
    (F F' : dict string (list lookahead)) (symbol : string) :
  In i (seq 1 k) ->
  (forall N entries e, dict_get String.eqb N F = Some entries ->
                       In e entries -> from_yielded_member grammar fuel k N e) ->
  kfirst_symbol grammar fuel i F symbol = Ok F' ->
  forall N entries e, dict_get String.eqb N F' = Some entries ->
                      In e entries -> from_yielded_member grammar fuel k N e.
Proof.
  intros Hi HF. unfold kfirst_symbol.
  destruct (_kfirst grammar fuel [] (Sym symbol) i true)
    as [yielded| |] eqn:Ey; simpl; try discriminate.
  assert (Hsub : forall sub, In sub (fold_left fs_or yielded []) ->
                             exists fs, In fs yielded /\ In sub fs).
  { intros sub H. apply fold_fs_or_In in H as [[]|H]. exact H. }
  revert Hsub. generalize (fold_left fs_or yielded []). intros first_set Hsub.
  apply (foldM_inv
           (fun F0 => forall N entries e,
                dict_get String.eqb N F0 = Some entries ->
                In e entries -> from_yielded_member grammar fuel k N e));
    [|exact HF].
  intros F0 sub F1 Hin HF0.
  destruct (dict_get String.eqb symbol F0) as [old|] eqn:Eold;
    [|discriminate].
  intros [= <-] N entries e.
  destruct (String.eqb_spec symbol N) as [<-|Hne].
  - rewrite (dict_get_set_eq String.eqb String.eqb_eq).
    intros [= <-] He. apply set_add_In in He as [He| ->]; [eauto|].
    destruct (Hsub _ Hin) as (fs & Hfs & Hm).
    exists i, yielded, fs, sub. repeat split; auto.
    destruct (first_entry_cases (normalized sub))
      as [(x & -> & ->)|[[Hlen ->]|[-> ->]]]; eauto.
  - rewrite (dict_get_set_ne String.eqb String.eqb_eq) by assumption.
    apply HF0.
Qed.

(** C9: every element of [kfirst(k)[N]] comes from a member that
    [_kfirst(N, i)] yields for some [i] of [1..k], normalized: the bare
    terminal when one symbol is left, the tuple when two or more are
    left, and the string epsilon when nothing is left. *)
Theorem kfirst_entries_are_normalized_members
    (grammar : list Production) (fuel k : nat)
    (F : dict string (list lookahead)) (N : string)
    (entries : list lookahead) (e : lookahead)
    (Hrun : kfirst grammar fuel k = Ok F)
    (Hrow : dict_get String.eqb N F = Some entries)
    (He : In e entries) :
  exists i yielded fs m,
    In i (seq 1 k)
    /\ _kfirst grammar fuel [] (Sym N) i true = Ok yielded
    /\ In fs yielded /\ In m fs
    /\ ((exists x, normalized m = [x] /\ e = LStr x)
        \/ (2 <= length (normalized m) /\ e = LTup (normalized m))
        \/ (normalized m = [] /\ e = LStr epsilon)).
Proof.
  change (from_yielded_member grammar fuel k N e).
  revert N entries e Hrow He. unfold kfirst in Hrun. revert Hrun.
  apply (foldM_inv
           (fun F0 => forall N entries e,
                dict_get String.eqb N F0 = Some entries ->
                In e entries -> from_yielded_member grammar fuel k N e)).
  - intros F0 i F1 Hi HF0.
    apply (foldM_inv
             (fun F0 => forall N entries e,
                  dict_get String.eqb N F0 = Some entries ->
                  In e entries -> from_yielded_member grammar fuel k N e));
      [|exact HF0].
    intros F2 symbol F3 _ HF2 Hs.
    eapply kfirst_symbol_entries; eauto.
  - intros N entries e H. apply initial_entries_empty in H. subst.
    intros [].
Qed.

Lemma kfirst_entries_are_normalized_members_witness :
  kfirst nullable_head_grammar 20 2
  = Ok [("S", [LStr (quoted "a"); LStr epsilon; LStr (quoted "b");
               LTup [quoted "a"; quoted "b"]]);
        ("A", [LStr (quoted "a"); LStr epsilon])]
  /\ exists i yielded fs m,
      In i (seq 1 2)
      /\ _kfirst nullable_head_grammar 20 [] (Sym "S") i true = Ok yielded
      /\ In fs yielded /\ In m fs
      /\ ((exists x, normalized m = [x] /\ LStr (quoted "b") = LStr x)
          \/ (2 <= length (normalized m)
              /\ LStr (quoted "b") = LTup (normalized m))
          \/ (normalized m = [] /\ LStr (quoted "b") = LStr epsilon)).
Proof.
  split; [reflexivity|].
  apply (kfirst_entries_are_normalized_members nullable_head_grammar 20 2
           [("S", [LStr (quoted "a"); LStr epsilon; LStr (quoted "b");
                   LTup [quoted "a"; quoted "b"]]);
            ("A", [LStr (quoted "a"); LStr epsilon])]
           "S"
           [LStr (quoted "a"); LStr epsilon; LStr (quoted "b");
            LTup [quoted "a"; quoted "b"]]
           (LStr (quoted "b"))).
  - reflexivity.
  - reflexivity.
  - simpl. right. right. left. reflexivity.
Defined.

(** ** Loops with an iteration guard *)

Section GuardedFacts.
Context {St Y : Type}.
Variable message : string.
Variable running : St -> bool.
Variable body : St -> result (St * list Y).

(** A loop that is over within the guard returns what it reached:
    the guard raises nothing. *)
Lemma guarded_while_under_bound (n : nat) :
  forall guard s s' ys,
    n <= guard -> turns running body n s = Ok (s', ys) -> running s' = false ->
    guarded_while message running body guard s = Ok (s', ys).
Proof.
    induction n as [|n IH]; intros guard s s' ys Hle; simpl.
  - intros [= <- <-] Hstop. destruct guard; simpl; now rewrite Hstop.
  - destruct (running s) eqn:Hrun.
    + destruct guard as [|guard]; [lia|]. simpl. rewrite Hrun.
      destruct (body s) as [[s1 ys1]| |]; simpl; try discriminate.
      destruct (turns running body n s1) as [[s2 ys2]| |] eqn:E;
        simpl; try discriminate.
      intros [= <- <-] Hstop.
      rewrite (IH guard s1 s2 ys2) by (auto; lia). reflexivity.
    + intros [= <- <-] _. destruct guard; simpl; now rewrite Hrun.
Qed.

(** A loop that still runs after [guard] turns raises the error of
    the guard. *)
Lemma guarded_while_exhausted :
  forall guard s s' ys,
    turns running body guard s = Ok (s', ys) -> running s' = true ->
    guarded_while message running body guard s = Raise (Exception message).
Proof.
    induction guard as [|guard IH]; intros s s' ys; simpl.
  - intros [= <- <-] ->. reflexivity.
  - destruct (running s) eqn:Hrun.
    + destruct (body s) as [[s1 ys1]| |]; simpl; try discriminate.
      destruct (turns running body guard s1) as [[s2 ys2]| |] eqn:E;
        simpl; try discriminate.
      intros [= <- <-] Hgo. now rewrite (IH s1 s2 ys2).
    + intros [= <- <-] Hgo. congruence.
Qed.

(** A loop that returns made at most [guard] turns. *)
Lemma guarded_while_bounded :
  forall guard s s' ys,
    guarded_while message running body guard s = Ok (s', ys) ->
    exists n, n <= guard /\ turns running body n s = Ok (s', ys) /\ running s' = false.
Proof.
    induction guard as [|guard IH]; intros s s' ys; simpl.
  - destruct (running s) eqn:Hrun; [discriminate|].
    intros [= <- <-]. exists 0. repeat split; [lia|assumption].
  - destruct (running s) eqn:Hrun.
    + destruct (body s) as [[s1 ys1]| |] eqn:Eb; simpl; try discriminate.
      destruct (guarded_while message running body guard s1)
        as [[s2 ys2]| |] eqn:E; simpl; try discriminate.
      intros [= <- <-].
      destruct (IH _ _ _ E) as (n & Hn & Hfree & Hstop).
      exists (S n). split; [lia|]. split; [|assumption].
      simpl. rewrite Hrun, Eb. simpl. now rewrite Hfree.
    + intros [= <- <-]. exists 0. repeat split; [lia|assumption].
Qed.

Lemma guarded_while_inv (P : St -> Prop) :
  (forall s s' ys, P s -> body s = Ok (s', ys) -> P s') ->
  forall guard s s' ys,
    P s -> guarded_while message running body guard s = Ok (s', ys) -> P s'.
Proof.
  intros Hbody.
  induction guard as [|guard IH]; intros s s' ys HP; simpl.
  - destruct (running s); [discriminate|]. now intros [= <- <-].
  - destruct (running s); [|now intros [= <- <-]].
    destruct (body s) as [[s1 ys1]| |] eqn:Eb; simpl; try discriminate.
    destruct (guarded_while message running body guard s1)
      as [[s2 ys2]| |] eqn:E; simpl; try discriminate.
    intros [= <- <-].
    apply (IH s1 s2 ys2); [exact (Hbody _ _ _ HP Eb)|exact E].
Qed.

Lemma guarded_while_yields (P : St -> Prop) (Q : Y -> Prop) :
  (forall s s' ys, P s -> body s = Ok (s', ys) -> P s' /\ Forall Q ys) ->
  forall guard s s' ys,
    P s -> guarded_while message running body guard s = Ok (s', ys) ->
    Forall Q ys.
Proof.
  intros Hbody.
  induction guard as [|guard IH]; intros s s' ys HP; simpl.
  - destruct (running s); [discriminate|]. intros [= <- <-]. constructor.
  - destruct (running s); [|intros [= <- <-]; constructor].
    destruct (body s) as [[s1 ys1]| |] eqn:Eb; simpl; try discriminate.
    destruct (guarded_while message running body guard s1)
      as [[s2 ys2]| |] eqn:E; simpl; try discriminate.
    intros [= <- <-]. destruct (Hbody _ _ _ HP Eb) as [HP1 HQ1].
    apply Forall_app. split; [assumption|].
    apply (IH s1 s2 ys2); assumption.
Qed.

End GuardedFacts.

(** ** An error of a loop is an error of [kfollow] *)

Lemma dict_set_keys {K V} (eqb : K -> K -> bool) (k : K) (v : V)
    (d : dict K V) :
  dict_mem eqb k d = true -> map fst (dict_set eqb k v d) = map fst d.
Proof.
  unfold dict_mem. induction d as [|[k0 v0] d IH]; simpl; [discriminate|].
  destruct (eqb k0 k); simpl; [reflexivity|].
  intros H. now rewrite IH.
Qed.

Lemma lookup_append_keys (F F' : Lookup) (symbol : string) (f : FollowSet) :
  lookup_append F symbol f = Ok F' -> map fst F' = map fst F.
Proof.
  unfold lookup_append.
  destruct (dict_get String.eqb symbol F) as [l|] eqn:E; [|discriminate].
  intros [= <-]. apply dict_set_keys. unfold dict_mem. now rewrite E.
Qed.

Lemma lookup_store_keys (lookup : Lookup) (symbol : string) (i : nat)
    (f : FollowSet) :
  map fst (lookup_store lookup symbol i f) = map fst lookup.
Proof.
  unfold lookup_store.
  destruct (dict_get String.eqb symbol lookup) as [l|] eqn:E; [|reflexivity].
  apply dict_set_keys. unfold dict_mem. now rewrite E.
Qed.

Lemma fixpoint_solution_keys
    (fs_append : FollowSet -> FollowSet -> FollowSet)
    (lookup lookup' : Lookup) :
  _kfollow_fixpoint_solution fs_append lookup = Ok lookup' ->
  map fst lookup' = map fst lookup.
Proof.
  unfold _kfollow_fixpoint_solution.
  destruct (guarded_while _ _ _ 500 (lookup, true))
    as [[[lk c] ys]| |] eqn:E; simpl; try discriminate.
  intros [= <-].
  apply (guarded_while_inv _ _ _
           (fun st : Lookup * bool => map fst (fst st) = map fst lookup))
    in E; [exact E| |reflexivity].
  clear. intros [lk c] st' ys Hk. unfold fixpoint_body.
  destruct (foldM _ (map fst lk) (lk, false)) as [st| |] eqn:E;
    simpl; try discriminate.
  intros [= <- <-]. revert E.
  apply (foldM_inv
           (fun st : Lookup * bool => map fst (fst st) = map fst lookup));
    [|exact Hk].
  clear. intros [lk0 c0] symbol [lk2 c2] _ Hk. simpl in Hk.
  destruct (dict_get String.eqb symbol lk0) as [followsets|];
    [|discriminate].
  destruct (foldM _ (seq 0 (length followsets)) lk0) as [lk1| |] eqn:E;
    simpl; try discriminate.
  destruct (dict_get String.eqb symbol lk1); [|discriminate].
  intros [= <- _]. simpl. revert E.
  apply (foldM_inv (fun b : Lookup => map fst b = map fst lookup));
    [|exact Hk].
  clear. intros b i b' _ Hb. unfold fixpoint_followset.
  destruct (lookup_at b symbol i) as [followset| |]; simpl;
    try discriminate.
  destruct (is_complete followset).
  - intros [= <-]. now rewrite lookup_store_keys.
  - destruct (dict_get String.eqb (follow followset) _) as [others|];
      [|discriminate].
    apply (foldM_inv (fun b : Lookup => map fst b = map fst lookup));
      [|now rewrite lookup_store_keys].
    intros lk j lk' _ Hlk.
    destruct (lookup_at lk (follow followset) j); simpl; try discriminate.
    destruct (lookup_at lk symbol i); simpl; try discriminate.
    intros [= <-]. now rewrite lookup_store_keys.
Qed.

Lemma collect_followsets_keys (grammar : list Production)
    (get_exact : string -> nat -> list SubProduction) (fuel i : nat)
    (F F' : Lookup) :
  collect_followsets grammar get_exact fuel i F = Ok F' ->
  map fst F' = map fst F.
Proof.
  unfold collect_followsets. generalize (map fst F) at 1. intros keys.
  apply (foldM_inv (fun F0 : Lookup => map fst F0 = map fst F));
    [|reflexivity].
  intros Fa symbol Fb _ Ha.
  destruct (_kfollow grammar get_exact fuel symbol i) as [followsets| |];
    simpl; try discriminate.
  apply (foldM_inv (fun F0 : Lookup => map fst F0 = map fst F));
    [|exact Ha].
  intros Fc f Fd _ Hc Happ.
  apply lookup_append_keys in Happ. congruence.
Qed.

(** When [kfollow] returns, every enumeration of permutations it asked
    for returned, and so did the fixpoint of every round: an error of
    one of the two loops leaves [kfollow] without result. *)
Lemma kfollow_returns_only_if_its_loops_return
    (grammar : list Production) (start : string)
    (get_exact : string -> nat -> list SubProduction)
    (fs_append : FollowSet -> FollowSet -> FollowSet)
    (fuel k : nat) (mapping : dict string (list lookahead)) :
  kfollow grammar start get_exact fs_append fuel k = Ok mapping ->
  forall i, In i (seq 1 k) ->
    (forall symbol production j,
        In symbol (lhs_keys grammar) -> In production grammar ->
        In j (occurrences symbol 0 (snd production)) ->
        exists yielded,
          _kfollow_permutations grammar get_exact fuel production (j + 1) i
          = Ok yielded)
    /\ exists collected solved,
        _kfollow_fixpoint_solution fs_append collected = Ok solved.
Proof.
  unfold kfollow. intros Hrun i Hi.
  destruct (lookup_append _ start (initial_start start)) as [F1| |] eqn:E1;
    simpl in Hrun; try discriminate.
  destruct (foldM (kfollow_round grammar get_exact fs_append fuel)
              (seq 1 k) F1) as [F2| |] eqn:E2;
    simpl in Hrun; try discriminate.
  assert (Hkeys : map fst F1 = lhs_keys grammar).
  { apply lookup_append_keys in E1. rewrite E1, map_map. simpl.
    apply map_id. }
  destruct (foldM_ok_each_inv
              (fun F : Lookup => map fst F = lhs_keys grammar)
              (kfollow_round grammar get_exact fs_append fuel) (seq 1 k))
    with (acc := F1) (r := F2) (x := i) as (F & F' & HF & Hround);
    try assumption.
  { intros b x b' Hb. unfold kfollow_round.
    destruct (collect_followsets grammar get_exact fuel x b)
      as [b1| |] eqn:Ec; simpl; try discriminate.
    intros Hfix. apply fixpoint_solution_keys in Hfix.
    apply collect_followsets_keys in Ec. congruence. }
  unfold kfollow_round in Hround.
  destruct (collect_followsets grammar get_exact fuel i F)
    as [collected| |] eqn:Ec; simpl in Hround; try discriminate.
  split; [|eauto].
  intros symbol production j Hsymbol Hproduction Hj.
  unfold collect_followsets in Ec. rewrite HF in Ec.
  destruct (foldM_ok_each _ _ _ _ Ec _ Hsymbol) as (b & b' & Hb).
  destruct (_kfollow grammar get_exact fuel symbol i)
    as [followsets| |] eqn:Ek; simpl in Hb; try discriminate.
  unfold _kfollow in Ek.
  destruct (mapM _ grammar) as [yielded| |] eqn:Em; simpl in Ek;
    try discriminate.
  destruct (mapM_ok_fwd _ _ _ Em _ Hproduction) as (y & Hy & _).
  destruct (mapM _ (occurrences symbol 0 (snd production)))
    as [per_occurrence| |] eqn:Eo; simpl in Hy; try discriminate.
  destruct (mapM_ok_fwd _ _ _ Eo _ Hj) as (z & Hz & _). eauto.
Qed.

(** ** The stack loop of [_kfollow_resolve_permutation] *)

Lemma skipn_nth_error {A} (l : list A) :
  forall i x, nth_error l i = Some x -> skipn i l = x :: skipn (S i) l.
Proof.
  induction l as [|a l IH]; intros [|i] x; simpl; try discriminate.
  - now intros [= ->].
  - intros H. now rewrite (IH i x H).
Qed.

Lemma flat_map_rev_map {A B C} (g : A -> B) (h : B -> list C) (l : list A) :
  flat_map h (rev (map g l)) = flat_map (fun x => h (g x)) (rev l).
Proof.
  rewrite <- map_rev. induction (rev l) as [|x r IH]; simpl; [reflexivity|].
  now rewrite IH.
Qed.

Lemma list_sum_map_const {A} (f : A -> nat) (c : nat) (l : list A) :
  (forall x, In x l -> f x = c) -> list_sum (map f l) = length l * c.
Proof.
  induction l as [|x l IH]; intros H; simpl; [reflexivity|].
  rewrite (H x (or_introl eq_refl)), IH; [reflexivity|].
  intros y Hy. apply H. now right.
Qed.

(** With turns enough the stack loop yields, for every entry of the
    stack from the top down, what [zip_up] enumerates below it. *)
Lemma zip_stack_is_zip_up (unzipped : list (list SubProduction)) :
  forall fuel stack,
    Forall (fun entry : SubProduction * nat =>
              snd entry <= length unzipped) stack ->
    list_sum (map (fun entry : SubProduction * nat =>
                     zip_size (skipn (snd entry) unzipped)) stack) < fuel ->
    zip_stack fuel unzipped stack
    = Ok (flat_map (fun entry : SubProduction * nat =>
                      zip_up (fst entry) (skipn (snd entry) unzipped))
                   stack).
Proof.
  induction fuel as [|fuel IH]; intros stack Hall Hfuel; [lia|].
  destruct stack as [|[curr i] stack]; [reflexivity|].
  inversion Hall as [|? ? Hi Hrest]; subst. simpl in Hi.
  cbn [zip_stack]. cbn [map list_sum fst snd flat_map] in *.
  destruct (Nat.eqb_spec i (length unzipped)) as [->|Hne].
  - rewrite skipn_all in *. simpl in Hfuel.
    rewrite IH; [reflexivity|assumption|lia].
  - destruct (nth_error unzipped i) as [choices|] eqn:En.
    + rewrite (skipn_nth_error _ _ _ En) in *. cbn [zip_size zip_up] in *.
      rewrite IH.
      * rewrite flat_map_app. f_equal. f_equal.
        now rewrite flat_map_rev_map.
      * apply Forall_app. split; [|assumption].
        apply Forall_rev, Forall_map, Forall_forall. intros t _. simpl.
        assert (i < length unzipped)
          by (apply nth_error_Some; congruence).
        lia.
      * rewrite map_app, list_sum_app, <- map_rev, map_map.
        rewrite (list_sum_map_const _ (zip_size (skipn (S i) unzipped)))
          by reflexivity.
        rewrite length_rev.
        apply (proj2 (Nat.succ_lt_mono _ _)). exact Hfuel.
    + apply nth_error_None in En. lia.
Qed.

(** ** The permutations of [_kfollow_permutations] *)






(** ** Complete and partial follow sets (C5) *)


(** ** Follow sets kept in the lookup *)

Lemma list_set_cons {A} (i : nat) (x a : A) (l : list A) :
  list_set (S i) x (a :: l) = a :: list_set i x l.
Proof. reflexivity. Qed.

Lemma nth_error_list_set_eq {A} (x : A) :
  forall i l, i < length l -> nth_error (list_set i x l) i = Some x.
Proof.
  induction i as [|i IH]; intros [|a l] Hlen; simpl in Hlen; try lia.
  - reflexivity.
  - rewrite list_set_cons. simpl. apply IH. lia.
Qed.

Lemma nth_error_list_set_ne {A} (x : A) :
  forall i j l, i <> j -> nth_error (list_set i x l) j = nth_error l j.
Proof.
  induction i as [|i IH]; intros j [|a l] Hne.
  - reflexivity.
  - destruct j; [contradiction|reflexivity].
  - reflexivity.
  - rewrite list_set_cons. destruct j; [reflexivity|].
    simpl. apply IH. lia.
Qed.

Lemma lookup_at_store_eq (lookup : Lookup) (symbol : string) (i : nat)
    (f0 f : FollowSet) :
  lookup_at lookup symbol i = Ok f0 ->
  lookup_at (lookup_store lookup symbol i f) symbol i = Ok f.
Proof.
  unfold lookup_at, lookup_store.
  destruct (dict_get String.eqb symbol lookup) as [l|] eqn:E; [|discriminate].
  destruct (nth_error l i) eqn:En; [|discriminate]. intros _.
  rewrite (dict_get_set_eq String.eqb String.eqb_eq).
  rewrite nth_error_list_set_eq; [reflexivity|].
  apply nth_error_Some. congruence.
Qed.

Lemma lookup_at_store_ne (lookup : Lookup) (symbol symbol' : string)
    (i i' : nat) (f : FollowSet) :
  (symbol, i) <> (symbol', i') ->
  lookup_at (lookup_store lookup symbol i f) symbol' i'
  = lookup_at lookup symbol' i'.
Proof.
  intros Hne. unfold lookup_at, lookup_store.
  destruct (dict_get String.eqb symbol lookup) as [l|] eqn:E; [|reflexivity].
  destruct (String.eqb_spec symbol symbol') as [<-|Hs].
  - rewrite (dict_get_set_eq String.eqb String.eqb_eq), E.
    rewrite nth_error_list_set_ne; [reflexivity|]. congruence.
  - now rewrite (dict_get_set_ne String.eqb String.eqb_eq).
Qed.




(** ** What the flattening keeps *)

Section SetFacts.
Context {A B : Type} (eqb : B -> B -> bool) (g : A -> B).
Hypothesis eqb_spec : forall a b, eqb a b = true <-> a = b.

Lemma set_add_mono (x y : B) (s : list B) :
  In y s -> In y (set_add eqb x s).
Proof.
  unfold set_add. destruct (existsb (eqb x) s); [auto|].
  intros H. apply in_or_app. now left.
Qed.

Lemma set_add_self (x : B) (s : list B) : In x (set_add eqb x s).
Proof.
  unfold set_add. destruct (existsb (eqb x) s) eqn:E.
  - apply existsb_exists in E as (z & Hz & Hxz).
    apply eqb_spec in Hxz. now subst.
  - apply in_or_app. right. now left.
Qed.

Lemma fold_set_add_mono (xs : list A) :
  forall s y, In y s ->
              In y (fold_left (fun s x => set_add eqb (g x) s) xs s).
Proof.
  induction xs as [|x xs IH]; intros s y H; simpl; [assumption|].
  apply IH. now apply set_add_mono.
Qed.

Lemma fold_set_add_self (xs : list A) :
  forall s x, In x xs ->
              In (g x) (fold_left (fun s x => set_add eqb (g x) s) xs s).
Proof.
  induction xs as [|y xs IH]; intros s x []; simpl.
  - subst. apply fold_set_add_mono. apply set_add_self.
  - now apply IH.
Qed.
End SetFacts.

Lemma sub_eqb_spec (a b : SubProduction) : sub_eqb a b = true <-> a = b.
Proof. apply (list_eqb_spec String.eqb String.eqb_eq). Qed.








(** ** The end marker follows the start symbol (C6) *)


(** ** The first line of the emitted source *)









(** ** [generate_parser] and the clock (C1) *)




(** ** The theorems of FOLLOW on [<S> ::= <A> <B>], [<A> ::= "a"],
    [<B> ::= "b"] *)




(** ** Terminals as [_is_term] sees them *)

Lemma startswith_char_split (c : ascii) (s : string) :
  startswith_char c s = true -> exists rest, s = String c rest.
Proof.
  destruct s as [|a s]; simpl; [discriminate|].
  intros H. apply Ascii.eqb_eq in H. subst. now exists s.
Qed.

Lemma is_term_quoted (body : string) : _is_term (quoted body) = true.
Proof.
  unfold _is_term, quoted. simpl.
  exact (endswith_char_app dquote (String dquote body)).
Qed.

Lemma is_term_epsilon : _is_term epsilon = false.
Proof. reflexivity. Qed.

(** X1: [_is_term] accepts the symbols that begin and end with a
    double quote.  These are the literals in double quotes, the empty
    one included, and the string that is one double quote alone, which
    is its own first and last character. *)
Theorem is_term_accepts_quoted_literals_and_the_lone_quote (symbol : string) :
  _is_term symbol = true
  <-> symbol = dq \/ exists body, symbol = quoted body.
Proof.
  split.
  - unfold _is_term. intros H. apply andb_true_iff in H as [Hs He].
    apply endswith_char_split in He as [p ->].
    destruct p as [|a p]; [now left|]. right.
    simpl in Hs. apply Ascii.eqb_eq in Hs. subst a.
    exists p. reflexivity.
  - intros [->|[body ->]]; [reflexivity|apply is_term_quoted].
Qed.

(** ** The three kinds of productions *)

Lemma production_kind (p : Production) :
  let e := Nat.eqb (length (snd p)) 1
           && String.eqb (hd EmptyString (snd p)) epsilon in
  let t := Nat.ltb 0 (length (snd p)) && _is_term (hd EmptyString (snd p)) in
  let n := Nat.ltb 0 (length (snd p))
           && negb (_is_term (hd EmptyString (snd p)))
           && negb (String.eqb (hd EmptyString (snd p)) epsilon) in
  (e, t, n, unclassified p) = (true, false, false, false)
  \/ (e, t, n, unclassified p) = (false, true, false, false)
  \/ (e, t, n, unclassified p) = (false, false, true, false)
  \/ (e, t, n, unclassified p) = (false, false, false, true).
Proof.
  destruct p as [lhs [|x rest]]; unfold unclassified; simpl; [tauto|].
  destruct (String.eqb_spec x epsilon) as [->|Hx].
  - rewrite is_term_epsilon. destruct rest; simpl; tauto.
  - destruct (_is_term x), rest; simpl; tauto.
Qed.

(** X2: [_eps], [_terms] and [_nonterms] sort the productions by the
    head of the right-hand side.  No production is yielded by two of
    them; a production of the grammar is yielded by none exactly when
    its right-hand side is empty, or starts with epsilon and goes on;
    and every production yielded is one of the grammar, as often as it
    stands there. *)
Theorem productions_are_sorted_by_their_head (grammar : list Production) :
  (forall p, In p (_eps grammar) ->
             ~ In p (_terms grammar) /\ ~ In p (_nonterms grammar))
  /\ (forall p, In p (_terms grammar) -> ~ In p (_nonterms grammar))
  /\ (forall p, In p grammar ->
                (In p (_eps grammar) \/ In p (_terms grammar)
                 \/ In p (_nonterms grammar))
                <-> unclassified p = false)
  /\ length (_eps grammar) + length (_terms grammar)
     + length (_nonterms grammar) + length (filter unclassified grammar)
     = length grammar.
Proof.
  unfold _eps, _terms, _nonterms. split; [|split; [|split]].
  - intros p H. split; intros H'; apply filter_In in H as [_ H];
      apply filter_In in H' as [_ H'];
      destruct (production_kind p) as [K|[K|[K|K]]]; simpl in K; congruence.
  - intros p H H'. apply filter_In in H as [_ H], H' as [_ H'].
    destruct (production_kind p) as [K|[K|[K|K]]]; simpl in K; congruence.
  - intros p Hp. rewrite !filter_In.
    destruct (production_kind p) as [K|[K|[K|K]]]; simpl in K;
      injection K as He Ht Hn Hu; rewrite ?He, ?Ht, ?Hn, ?Hu;
      intuition congruence.
  - induction grammar as [|p grammar IH]; [reflexivity|].
    cbn [filter length].
    destruct (production_kind p) as [K|[K|[K|K]]]; simpl in K;
      injection K as -> -> -> ->; cbn [length]; lia.
Qed.

(** ** The symbols after a needle *)

Lemma after_sound (needle : string) :
  forall n haystack,
    length haystack <= n ->
    Forall (fun yielded =>
              exists before rest,
                haystack = before ++ needle :: pair_symbols yielded ++ rest
                /\ (snd yielded = None -> rest = []))
           (_after needle haystack)
    /\ 3 * length (_after needle haystack) <= S (length haystack).
Proof.
  induction n as [|n IH]; intros haystack Hlen.
  - destruct haystack; [|simpl in Hlen; lia]. simpl. split; [constructor|lia].
  - destruct haystack as [|symbol gen]; [simpl; split; [constructor|lia]|].
    cbn [_after]. simpl in Hlen.
    destruct (String.eqb_spec symbol needle) as [->|Hne].
    + destruct gen as [|s1 [|s2 gen']].
      * simpl. split; [constructor|lia].
      * split; [|simpl; lia]. repeat constructor.
        exists [], []. split; [reflexivity|reflexivity].
      * simpl in Hlen. destruct (IH gen') as [Hall Hcount]; [lia|].
        split; [|simpl in *; lia]. constructor.
        -- exists [], gen'. split; [reflexivity|discriminate].
        -- revert Hall. apply Forall_impl.
           intros y (before & rest & -> & Hnone).
           exists (needle :: s1 :: s2 :: before), rest. auto.
    + destruct (IH gen) as [Hall Hcount]; [lia|].
      split; [|simpl; lia]. revert Hall. apply Forall_impl.
      intros y (before & rest & -> & Hnone).
      exists (symbol :: before), rest. auto.
Qed.

Lemma after_without_needle (needle : string) (haystack : list string) :
  ~ In needle haystack -> _after needle haystack = [].
Proof.
  induction haystack as [|symbol gen IH]; [reflexivity|].
  intros Hin. cbn [_after].
  destruct (String.eqb_spec symbol needle) as [->|Hne].
  - exfalso. apply Hin. now left.
  - apply IH. intros H. apply Hin. now right.
Qed.

(** X3: every pair [_after] yields holds the one or two symbols that
    stand right after an occurrence of the needle in the haystack; the
    second is [None] only when the haystack ends after the first.  The
    symbols of a pair are not searched for the needle, so that three
    yields take at least the length of the haystack plus one; a needle
    that only stands at the very end yields nothing, and neither does a
    haystack without the needle. *)
Theorem after_yields_what_follows_the_needle
    (needle : string) (haystack : list string) :
  Forall (fun yielded =>
            exists before rest,
              haystack = before ++ needle :: pair_symbols yielded ++ rest
              /\ (snd yielded = None -> rest = []))
         (_after needle haystack)
  /\ 3 * length (_after needle haystack) <= S (length haystack)
  /\ (forall before,
         ~ In needle before -> _after needle (before ++ [needle]) = [])
  /\ (~ In needle haystack -> _after needle haystack = []).
Proof.
  destruct (after_sound needle (length haystack) haystack (le_n _))
    as [Hall Hcount].
  repeat split; try assumption.
  - intros before Hin.
    induction before as [|symbol before IH]; simpl.
    + now rewrite String.eqb_refl.
    + destruct (String.eqb_spec symbol needle) as [->|Hne].
      * exfalso. apply Hin. now left.
      * apply IH. intros H. apply Hin. now right.
  - apply after_without_needle.
Qed.

(** ** Neighbours *)

Lemma two_iter_from (before rhs : list string) :
  mapM (fun i =>
          match nth_error (before ++ rhs) i, nth_error (before ++ rhs) (i + 1)
          with
          | Some a, Some b => Ok (a, b)
          | _, _ => Raise IndexError
          end)
       (seq (length before) (length rhs - 1))
  = Ok (combine rhs (tl rhs)).
Proof.
  revert before. induction rhs as [|a rhs IH]; intros before; [reflexivity|].
  destruct rhs as [|b rhs]; [reflexivity|].
  replace (length (a :: b :: rhs) - 1) with (S (length (b :: rhs) - 1))
    by (simpl; lia).
  cbn [seq mapM].
  rewrite nth_error_app2, Nat.sub_diag by lia.
  rewrite nth_error_app2 by lia.
  replace (length before + 1 - length before) with 1 by lia.
  cbn [nth_error bind].
  specialize (IH (before ++ [a])).
  rewrite <- app_assoc, length_app, Nat.add_1_r in IH. cbn [app] in IH.
  rewrite IH. reflexivity.
Qed.

(** X4: [two_iter] yields every symbol of the right-hand side but the
    last, each with its right neighbour, in order.  No subscript is out
    of range, so that it never raises; an empty right-hand side and one
    of a single symbol yield nothing. *)
Theorem two_iter_pairs_neighbours (rhs : list string) :
  two_iter rhs = Ok (combine rhs (tl rhs))
  /\ length (combine rhs (tl rhs)) = length rhs - 1
  /\ map fst (combine rhs (tl rhs)) = removelast rhs
  /\ map snd (combine rhs (tl rhs)) = tl rhs.
Proof.
  split; [exact (two_iter_from [] rhs)|]. split; [|split].
  - rewrite length_combine. destruct rhs; cbn [tl length]; lia.
  - induction rhs as [|a rhs IH]; [reflexivity|].
    destruct rhs as [|b rhs]; [reflexivity|].
    cbn [tl combine map fst] in *. rewrite IH. reflexivity.
  - induction rhs as [|a rhs IH]; [reflexivity|].
    destruct rhs as [|b rhs]; [reflexivity|].
    cbn [tl combine map snd] in *. rewrite IH. reflexivity.
Qed.

(** ** The nonterminals at the end of a right-hand side *)

Lemma reverse_nonterms_loop_spec (first : dict string (list string)) :
  forall reversed,
    match reverse_nonterms_loop first reversed with
    | Ok yielded =>
        Forall (fun s => _is_term s = false /\ s <> epsilon
                         /\ In s reversed) yielded
        /\ (forall s, In s (removelast yielded) -> nullable_in first s = true)
        /\ exists n,
            yielded = filter (fun s => negb (String.eqb s epsilon))
                             (firstn n reversed)
    | Raise e =>
        exists s, e = KeyError s /\ In s reversed
                  /\ dict_get String.eqb s first = None
    | Timeout => False
    end.
Proof.
  induction reversed as [|symbol reversed IH]; cbn [reverse_nonterms_loop].
  - split; [constructor|]. split; [intros s []|]. now exists 0.
  - destruct (_is_term symbol) eqn:Ht.
    { split; [constructor|]. split; [intros s []|]. now exists 0. }
    destruct (String.eqb_spec symbol epsilon) as [He|He].
    { destruct (reverse_nonterms_loop first reversed) as [yielded|e|].
      - destruct IH as (Hall & Hnull & n & Hn). split; [|split].
        + revert Hall. apply Forall_impl. intros s (H1 & H2 & H3).
          repeat split; try assumption. now right.
        + assumption.
        + exists (S n). cbn [firstn filter].
          destruct (String.eqb_spec symbol epsilon); [assumption|contradiction].
      - destruct IH as (s & -> & Hin & Hget). exists s.
        repeat split; try assumption. now right.
      - assumption. }
    destruct (dict_get String.eqb symbol first) as [first_set|] eqn:Hget.
    2:{ exists symbol. repeat split; [now left|assumption]. }
    destruct (existsb (String.eqb epsilon) first_set) eqn:Hnullable;
      cbn [negb].
    + destruct (reverse_nonterms_loop first reversed) as [yielded|e|];
        cbn [bind].
      * destruct IH as (Hall & Hnull & n & Hn). split; [|split].
        -- constructor; [repeat split; [assumption|assumption|now left]|].
           revert Hall. apply Forall_impl. intros s (H1 & H2 & H3).
           repeat split; try assumption. now right.
        -- intros s Hs. destruct yielded as [|y yielded]; [destruct Hs|].
           destruct Hs as [<-|Hs].
           ++ unfold nullable_in. now rewrite Hget.
           ++ apply Hnull. exact Hs.
        -- exists (S n). cbn [firstn filter].
           destruct (String.eqb_spec symbol epsilon); [contradiction|].
           cbn [negb]. now rewrite Hn.
      * destruct IH as (s & -> & Hin & Hs). exists s.
        repeat split; try assumption. now right.
      * assumption.
    + split; [|split].
      * constructor; [|constructor].
        repeat split; [assumption|assumption|now left].
      * intros s [].
      * exists 1. cbn [firstn filter].
        destruct (String.eqb_spec symbol epsilon); [contradiction|].
        reflexivity.
Qed.

(** X5: [reverse_nonterms] scans the right-hand side from its last
    symbol towards the first.  What it yields are the symbols other
    than epsilon of the part it scanned, in that order: none of them is
    a terminal, and each one but the last has epsilon in its first set;
    a right-hand side that ends with a terminal yields nothing.  The
    only exception is the [KeyError] of a scanned symbol that has no
    first set. *)
Theorem reverse_nonterms_yields_the_trailing_nonterminals
    (rhs : list string) (first : dict string (list string)) :
  match reverse_nonterms rhs first with
  | Ok yielded =>
      Forall (fun s => _is_term s = false /\ s <> epsilon /\ In s rhs) yielded
      /\ (forall s, In s (removelast yielded) -> nullable_in first s = true)
      /\ (exists n,
             yielded = filter (fun s => negb (String.eqb s epsilon))
                              (firstn n (rev rhs)))
      /\ (forall before t,
             rhs = before ++ [t] -> _is_term t = true -> yielded = [])
  | Raise e =>
      exists s, e = KeyError s /\ In s rhs
                /\ dict_get String.eqb s first = None
  | Timeout => False
  end.
Proof.
  unfold reverse_nonterms.
  pose proof (reverse_nonterms_loop_spec first (rev rhs)) as H.
  destruct (reverse_nonterms_loop first (rev rhs)) as [yielded|e|] eqn:E.
  - destruct H as (Hall & Hnull & Hn). repeat split; try assumption.
    + revert Hall. apply Forall_impl. intros s (H1 & H2 & H3).
      repeat split; try assumption. now apply in_rev.
    + intros before t -> Ht. rewrite rev_app_distr in E.
      cbn [rev app reverse_nonterms_loop] in E. rewrite Ht in E.
      now injection E as <-.
  - destruct H as (s & -> & Hin & Hget). exists s.
    repeat split; try assumption. now apply in_rev.
  - assumption.
Qed.

(** ** Keys in order of first appearance *)

Lemma dict_set_appends_key {V} (k : string) (v : V) (d : dict string V) :
  map fst (dict_set String.eqb k v d) = set_add String.eqb k (map fst d).
Proof.
  unfold set_add. induction d as [|[k' v'] d IH]; [reflexivity|].
  cbn [dict_set map fst existsb]. rewrite (String.eqb_sym k k').
  destruct (String.eqb k' k); cbn [map fst orb]; [reflexivity|].
  rewrite IH. destruct (existsb (String.eqb k) (map fst d)); reflexivity.
Qed.

Lemma set_add_present (k : string) (keys : list string) :
  existsb (String.eqb k) keys = true -> set_add String.eqb k keys = keys.
Proof. unfold set_add. now intros ->. Qed.

Lemma dict_mem_keys {V} (k : string) (d : dict string V) :
  dict_mem String.eqb k d = existsb (String.eqb k) (map fst d).
Proof.
  unfold dict_mem. induction d as [|[k' v'] d IH]; [reflexivity|].
  cbn [dict_get map fst existsb]. rewrite (String.eqb_sym k k').
  destruct (String.eqb k' k); [reflexivity|exact IH].
Qed.

(** ** The adjacency matrix *)

Lemma adjacency_step_get (acc : dict string (list (list string)))
    (lhs : string) (rhs : list string) (n : string) :
  let adj := if dict_mem String.eqb lhs acc then acc
             else dict_set String.eqb lhs [] acc in
  dict_get String.eqb n
    match dict_get String.eqb lhs adj with
    | Some l => dict_set String.eqb lhs (l ++ [rhs]) adj
    | None => adj
    end
  = if String.eqb lhs n
    then Some (match dict_get String.eqb lhs acc with
               | Some l => l
               | None => []
               end ++ [rhs])
    else dict_get String.eqb n acc.
Proof.
  unfold dict_mem. cbv zeta.
  destruct (dict_get String.eqb lhs acc) as [l|] eqn:E; cbv iota.
  - rewrite E. destruct (String.eqb_spec lhs n) as [<-|Hne].
    + apply (dict_get_set_eq String.eqb String.eqb_eq).
    + now apply (dict_get_set_ne String.eqb String.eqb_eq).
  - rewrite (dict_get_set_eq String.eqb String.eqb_eq).
    destruct (String.eqb_spec lhs n) as [<-|Hne].
    + apply (dict_get_set_eq String.eqb String.eqb_eq).
    + rewrite (dict_get_set_ne String.eqb String.eqb_eq) by assumption.
      now apply (dict_get_set_ne String.eqb String.eqb_eq).
Qed.

Lemma adjacency_step_keys (acc : dict string (list (list string)))
    (lhs : string) (rhs : list string) :
  let adj := if dict_mem String.eqb lhs acc then acc
             else dict_set String.eqb lhs [] acc in
  map fst
    match dict_get String.eqb lhs adj with
    | Some l => dict_set String.eqb lhs (l ++ [rhs]) adj
    | None => adj
    end
  = set_add String.eqb lhs (map fst acc).
Proof.
  cbv zeta.
  assert (Hadj : map fst (if dict_mem String.eqb lhs acc then acc
                          else dict_set String.eqb lhs [] acc)
                 = set_add String.eqb lhs (map fst acc)).
  { destruct (dict_mem String.eqb lhs acc) eqn:E.
    - rewrite dict_mem_keys in E. now rewrite set_add_present.
    - apply dict_set_appends_key. }
  set (adj := if dict_mem String.eqb lhs acc then acc
              else dict_set String.eqb lhs [] acc) in *.
  destruct (dict_get String.eqb lhs adj) as [l|] eqn:E; [|exact Hadj].
  rewrite dict_set_keys; [exact Hadj|]. unfold dict_mem. now rewrite E.
Qed.

Lemma adjacency_fold (n : string) :
  forall (l : list Production) (acc : dict string (list (list string))),
    let adj :=
      fold_left
        (fun adj (p : Production) =>
           let (lhs, rhs) := p in
           let adj := if dict_mem String.eqb lhs adj then adj
                      else dict_set String.eqb lhs [] adj in
           match dict_get String.eqb lhs adj with
           | Some l => dict_set String.eqb lhs (l ++ [rhs]) adj
           | None => adj
           end)
        l acc in
    dict_get String.eqb n adj
    = match dict_get String.eqb n acc,
            map snd (filter (fun p : Production => String.eqb (fst p) n) l)
      with
      | Some ps, r => Some (ps ++ r)
      | None, [] => None
      | None, r => Some r
      end
    /\ map fst adj
       = fold_left (fun keys (p : Production) =>
                      set_add String.eqb (fst p) keys) l (map fst acc).
Proof.
  cbv zeta. induction l as [|[lhs rhs] l IH]; intros acc.
  - cbn [fold_left filter map]. split; [|reflexivity].
    destruct (dict_get String.eqb n acc); [now rewrite app_nil_r|reflexivity].
  - cbn [fold_left filter fst].
    destruct (IH match
                  dict_get String.eqb lhs
                    (if dict_mem String.eqb lhs acc then acc
                     else dict_set String.eqb lhs [] acc)
                with
                | Some l0 =>
                    dict_set String.eqb lhs (l0 ++ [rhs])
                      (if dict_mem String.eqb lhs acc then acc
                       else dict_set String.eqb lhs [] acc)
                | None =>
                    if dict_mem String.eqb lhs acc then acc
                    else dict_set String.eqb lhs [] acc
                end) as [Hget Hkeys].
    split.
    + rewrite Hget. rewrite (adjacency_step_get acc lhs rhs n).
      destruct (String.eqb_spec lhs n) as [->|Hne].
      * cbn [map snd].
        destruct (dict_get String.eqb n acc) as [ps|].
        -- now rewrite <- app_assoc.
        -- reflexivity.
      * reflexivity.
    + rewrite Hkeys. f_equal. exact (adjacency_step_keys acc lhs rhs).
Qed.

Lemma productions_of_nonterminal (n : string) (grammar : list Production) :
  existsb (String.eqb n) (map fst grammar)
  = negb (is_nil (map snd (filter (fun p : Production =>
                                     String.eqb (fst p) n) grammar))).
Proof.
  induction grammar as [|[lhs rhs] grammar IH]; [reflexivity|].
  cbn [map fst existsb filter]. rewrite (String.eqb_sym n lhs).
  destruct (String.eqb lhs n); [reflexivity|exact IH].
Qed.

Lemma adjacency_matrix_lookup (grammar : list Production) (n : string) :
  dict_get String.eqb n (adjacency_matrix grammar)
  = if existsb (String.eqb n) (nonterminals grammar)
    then Some (map snd (filter (fun p : Production => String.eqb (fst p) n)
                               grammar))
    else None.
Proof.
  unfold adjacency_matrix, nonterminals.
  etransitivity; [exact (proj1 (adjacency_fold n grammar []))|].
  rewrite productions_of_nonterminal. cbn [dict_get].
  destruct (map snd _); reflexivity.
Qed.

(** X6: the adjacency matrix has one key for every left-hand side of
    the table, in the order in which they first appear, and under a
    key the right-hand sides of all the productions of that nonterminal,
    in the order of the table; a symbol that is no left-hand side has no
    key. *)
Theorem adjacency_matrix_lists_the_productions_of_each_nonterminal
    (grammar : list Production) :
  (forall n,
      dict_get String.eqb n (adjacency_matrix grammar)
      = if existsb (String.eqb n) (nonterminals grammar)
        then Some (map snd (filter (fun p : Production =>
                                      String.eqb (fst p) n) grammar))
        else None)
  /\ map fst (adjacency_matrix grammar) = lhs_keys grammar.
Proof.
  split; [apply adjacency_matrix_lookup|].
  unfold adjacency_matrix, lhs_keys.
  exact (proj2 (adjacency_fold EmptyString grammar [])).
Qed.

(** ** The rows of the production table *)

Lemma mapM_outcome {A B} (f : A -> result B) (xs : list A) :
  match mapM f xs with
  | Ok ys => Forall2 (fun x y => f x = Ok y) xs ys
  | Raise e => exists x, In x xs /\ f x = Raise e
  | Timeout => exists x, In x xs /\ f x = Timeout
  end.
Proof.
  induction xs as [|x xs IH]; cbn [mapM]; [constructor|].
  destruct (f x) as [y|e|] eqn:E; cbn [bind].
  - destruct (mapM f xs) as [ys|e|]; cbn [bind].
    + now constructor.
    + destruct IH as (x' & Hin & Hx). exists x'. split; [now right|exact Hx].
    + destruct IH as (x' & Hin & Hx). exists x'. split; [now right|exact Hx].
  - exists x. split; [now left|exact E].
  - exists x. split; [now left|exact E].
Qed.


(** ** The rows of the parse table *)

Lemma empty_table_keys_from (l : list Production) :
  forall acc : Table,
    map fst (fold_left (fun (t : Table) nonterm =>
                          dict_set String.eqb nonterm [] t)
                       (map fst l) acc)
    = fold_left (fun keys (p : Production) =>
                   set_add String.eqb (fst p) keys) l (map fst acc).
Proof.
  induction l as [|p l IH]; intros acc; [reflexivity|].
  cbn [map fold_left]. rewrite IH. now rewrite dict_set_appends_key.
Qed.

Lemma empty_table_keys (grammar : list Production) :
  map fst (empty_table grammar) = lhs_keys grammar.
Proof. exact (empty_table_keys_from grammar []). Qed.

Lemma ktable_cell_keys (grammar : list Production) (fuel : nat)
    (follow : dict string (list lookahead)) (table table' : Table)
    (nonterm : string) (term : lookahead) :
  ktable_cell grammar fuel follow table nonterm term = Ok table' ->
  map fst table' = map fst table.
Proof.
  unfold ktable_cell.
  destruct (get_production_leading_to_terminal grammar fuel nonterm term)
    as [ps| |]; cbn [bind]; try discriminate.
  destruct ps as [|p [|p' ps]]; try discriminate.
  destruct (lookahead_eqb term (LStr epsilon)).
  - destruct (dict_get String.eqb nonterm follow) as [terms2|];
      [|discriminate].
    apply (foldM_inv (fun tb : Table => map fst tb = map fst table));
      [|reflexivity].
    intros tb term2 tb' _ Htb.
    destruct (dict_get String.eqb nonterm tb) as [row|] eqn:Hrow;
      [|discriminate].
    destruct (dict_mem lookahead_eqb term2 row); intros [= <-];
      [assumption|].
    rewrite dict_set_keys; [assumption|]. unfold dict_mem. now rewrite Hrow.
  - destruct (dict_get String.eqb nonterm table) as [row|] eqn:Hrow;
      [|discriminate].
    intros [= <-]. apply dict_set_keys. unfold dict_mem. now rewrite Hrow.
Qed.

(** X8: the table that [generate_ktable] returns has one row for every
    nonterminal of the grammar, in the order in which the left-hand
    sides first appear, whatever FIRST and FOLLOW hold: a nonterminal
    without lookahead keeps its empty row, and no row is added. *)
Theorem ktable_has_a_row_for_every_nonterminal
    (grammar : list Production) (fuel : nat)
    (first follow : dict string (list lookahead)) (k : nat) (table : Table)
    (Hrun : generate_ktable grammar fuel first follow k = Ok table) :
  map fst table = lhs_keys grammar
  /\ forall n, In n (nonterminals grammar) ->
               exists row, dict_get String.eqb n table = Some row.
Proof.
  assert (Hkeys : map fst table = lhs_keys grammar).
  { rewrite <- empty_table_keys. revert Hrun. unfold generate_ktable.
    apply (foldM_inv
             (fun tb : Table => map fst tb = map fst (empty_table grammar)));
      [|reflexivity].
    intros tb entry tb' _ Htb. unfold ktable_row.
    apply (foldM_inv
             (fun tb : Table => map fst tb = map fst (empty_table grammar)));
      [|exact Htb].
    intros tb0 term tb1 _ H0 Hcell. apply ktable_cell_keys in Hcell.
    congruence. }
  split; [exact Hkeys|]. intros n Hn.
  apply empty_table_has_rows in Hn.
  rewrite dict_mem_keys, empty_table_keys, <- Hkeys, <- dict_mem_keys in Hn.
  unfold dict_mem in Hn.
  destruct (dict_get String.eqb n table) as [row|]; [eauto|discriminate].
Qed.

Lemma ktable_has_a_row_for_every_nonterminal_witness :
  map fst [("S", [(LStr (quoted "a"), ("S", [quoted "a"]))])]
  = lhs_keys single_terminal_grammar
  /\ forall n, In n (nonterminals single_terminal_grammar) ->
               exists row,
                 dict_get String.eqb n
                   [("S", [(LStr (quoted "a"), ("S", [quoted "a"]))])]
                 = Some row.
Proof.
  apply (ktable_has_a_row_for_every_nonterminal single_terminal_grammar 10
           [("S", [LStr (quoted "a")])] [("S", [LStr "$"])] 1).
  reflexivity.
Defined.

(** ** The keys of the emitted table *)

Lemma substring_prefix (s t : string) :
  substring 0 (String.length s) (s ++ t) = s.
Proof.
  induction s as [|c s IH]; simpl.
  - destruct t; reflexivity.
  - now rewrite IH.
Qed.

Lemma string_length_app (s t : string) :
  String.length (s ++ t) = String.length s + String.length t.
Proof. induction s as [|c s IH]; simpl; [reflexivity|now rewrite IH]. Qed.

Lemma strip_ends_quoted (body : string) : strip_ends (quoted body) = body.
Proof.
  unfold strip_ends, quoted. cbn [append dq String.length substring].
  rewrite string_length_app.
  replace (S (String.length body + String.length dq) - 2)
    with (String.length body) by (unfold dq; cbn [String.length]; lia).
  apply substring_prefix.
Qed.

Lemma normalize_str_quoted (repr : string -> string) (body : string) :
  normalize_str repr (quoted body) = body.
Proof.
  unfold normalize_str.
  change (startswith_char dquote (quoted body)
          && endswith_char dquote (quoted body))
    with (_is_term (quoted body)).
  rewrite is_term_quoted. apply strip_ends_quoted.
Qed.

(** X9: [normalize_for_table] takes the double quotes off a terminal
    and gives back what stands between them, nothing for the string
    that is one double quote alone; every other string goes through
    [repr]; a tuple is written as its members, each treated so,
    between parentheses and separated by a comma and a space. *)
Theorem normalize_for_table_unquotes_terminals (repr : string -> string) :
  (forall body, normalize_for_table repr (LStr (quoted body)) = body)
  /\ normalize_for_table repr (LStr dq) = EmptyString
  /\ (forall symbol,
         _is_term symbol = false ->
         normalize_for_table repr (LStr symbol) = repr symbol)
  /\ (forall bodies,
         normalize_for_table repr (LTup (map quoted bodies))
         = ("(" ++ join ", " bodies ++ ")")%string)
  /\ (forall symbols,
         Forall (fun s => _is_term s = false) symbols ->
         normalize_for_table repr (LTup symbols)
         = ("(" ++ join ", " (map repr symbols) ++ ")")%string).
Proof.
  split; [exact (normalize_str_quoted repr)|].
  split; [reflexivity|]. split; [|split].
  - intros symbol H. cbn [normalize_for_table]. unfold normalize_str.
    unfold _is_term in H. now rewrite H.
  - intros bodies. cbn [normalize_for_table]. rewrite map_map.
    rewrite (map_ext _ (fun x => x) (normalize_str_quoted repr)).
    now rewrite map_id.
  - intros symbols H. cbn [normalize_for_table]. f_equal. f_equal. f_equal.
    induction H as [|s symbols Hs _ IH]; [reflexivity|].
    cbn [map]. rewrite IH. f_equal. unfold normalize_str.
    unfold _is_term in Hs. now rewrite Hs.
Qed.

(** ** The answers of [_matches] *)

Lemma consume_stops :
  forall children remaining i,
    consume children remaining = Some i ->
    match skipn i children, skipn i remaining with
    | head :: _, _ :: _ => is_nonterm head = true
    | _, _ => True
    end.
Proof.
  intros cs. induction cs as [|c children IH]; intros remaining i.
  - intros [= <-]. exact I.
  - destruct remaining as [|r remaining].
    + intros [= <-]. exact I.
    + cbn [consume]. destruct (is_nonterm c) eqn:Hc.
      * intros [= <-]. exact Hc.
      * destruct (String.eqb c r); [|discriminate].
        destruct (consume children remaining) as [j|] eqn:E; [|discriminate].
        intros [= <-]. exact (IH remaining j E).
Qed.

Lemma matches_body_never_false (grammar : list Production)
    (children remaining : list string) :
  _matches_body grammar children remaining <> Ok (Ret false).
Proof.
  unfold _matches_body.
  destruct (is_nil children || is_nil remaining); [discriminate|].
  destruct (consume children remaining) as [i|] eqn:E; [|discriminate].
  apply consume_stops in E.
  destruct (is_nonterm (hd EmptyString children)) eqn:Hhd; cbn [negb].
  - destruct remaining as [|r rs]; [discriminate|].
    destruct children as [|head rest]; [discriminate|].
    cbn [hd] in Hhd. rewrite Hhd. cbn [negb].
    destruct (dict_get String.eqb head (adjacency_matrix grammar))
      as [ps|]; [|discriminate].
    destruct (mapM (expand rest (r :: rs)) ps); discriminate.
  - destruct (skipn i remaining) as [|r rs]; [discriminate|].
    destruct (skipn i children) as [|head rest]; [discriminate|].
    rewrite E. cbn [negb].
    destruct (dict_get String.eqb head (adjacency_matrix grammar))
      as [ps|]; [|discriminate].
    destruct (mapM (expand rest (r :: rs)) ps); discriminate.
Qed.

(** X10: [_matches] never answers [False].  Where its loop stops
    consuming literals, the right-hand side or the lookahead is used up,
    or a nonterminal stands at the head, so that the [return False] for
    a head that is no nonterminal is never reached: the answer is [True]
    or, when the queue runs empty, [None]. *)
Theorem matches_never_answers_false (grammar : list Production) :
  (forall children remaining,
      _matches_body grammar children remaining <> Ok (Ret false))
  /\ (forall fuel queue,
         _matches_loop grammar fuel queue <> Ok (Some false))
  /\ (forall fuel rhs terms,
         _matches grammar fuel rhs terms <> Ok (Some false)).
Proof.
  assert (Hloop : forall fuel queue,
             _matches_loop grammar fuel queue <> Ok (Some false)).
  { induction fuel as [|fuel IH]; intros queue; [discriminate|].
    cbn [_matches_loop].
    destruct queue as [|[children remaining] queue]; [discriminate|].
    pose proof (matches_body_never_false grammar children remaining) as Hb.
    destruct (_matches_body grammar children remaining) as [[pushed|[|]]|e|];
      try discriminate; [apply IH|congruence]. }
  split; [apply matches_body_never_false|].
  split; [exact Hloop|]. intros fuel rhs terms. apply Hloop.
Qed.

(** ** Literals at the head of a right-hand side *)

Lemma consume_literals (terms more : list string) :
  Forall (fun s => is_nonterm s = false) terms ->
  consume (terms ++ more) terms = Some (length terms).
Proof.
  induction 1 as [|t terms Ht _ IH]; cbn [app consume length].
  - destruct more; reflexivity.
  - now rewrite Ht, String.eqb_refl, IH.
Qed.

Lemma consume_whole (rhs more : list string) :
  Forall (fun s => is_nonterm s = false) rhs ->
  consume rhs (rhs ++ more) = Some (length rhs).
Proof.
  induction 1 as [|t rhs Ht _ IH]; cbn [app consume length].
  - reflexivity.
  - now rewrite Ht, String.eqb_refl, IH.
Qed.

Lemma matches_body_literal_prefix (grammar : list Production)
    (terms more : list string) :
  terms <> [] -> Forall (fun s => is_nonterm s = false) terms ->
  _matches_body grammar (terms ++ more) terms = Ok (Ret true).
Proof.
  intros Hsome Hlit. unfold _matches_body.
  rewrite (consume_literals terms more Hlit).
  destruct terms as [|t terms]; [contradiction|].
  inversion Hlit as [|? ? Ht _]; subst.
  cbn [app is_nil orb hd]. rewrite Ht. cbn [negb].
  now rewrite skipn_all.
Qed.

Lemma matches_body_mismatch (grammar : list Production)
    (c r : string) (rest more : list string) :
  is_nonterm c = false -> c <> r ->
  _matches_body grammar (c :: rest) (r :: more) = Ok (Next []).
Proof.
  intros Hc Hne. unfold _matches_body. cbn [is_nil orb consume].
  rewrite Hc. apply String.eqb_neq in Hne. now rewrite Hne.
Qed.

(** X11: a right-hand side that begins with the symbols of the
    lookahead, none of them a nonterminal, matches it: [_matches]
    answers [True] in the first turn of its loop, whatever follows in
    the right-hand side and whatever the grammar holds. *)
Theorem matches_accepts_a_literal_prefix
    (grammar : list Production) (fuel : nat) (terms more : list string)
    (Hsome : terms <> [])
    (Hliteral : Forall (fun s => is_nonterm s = false) terms) :
  _matches grammar (S fuel) (terms ++ more) terms = Ok (Some true).
Proof.
  unfold _matches. cbn [_matches_loop].
  now rewrite matches_body_literal_prefix.
Qed.

Lemma matches_accepts_a_literal_prefix_witness :
  _matches left_recursive_grammar 1
    ([quoted "a"; quoted "b"] ++ ["S"]) [quoted "a"; quoted "b"]
  = Ok (Some true).
Proof.
  apply (matches_accepts_a_literal_prefix left_recursive_grammar 0
           [quoted "a"; quoted "b"] ["S"]).
  - discriminate.
  - repeat constructor.
Defined.

(** X12: [_matches] finds nothing, and answers [None], when the
    lookahead is empty, when the right-hand side is empty, when the
    right-hand side begins with a literal other than the first symbol of
    the lookahead, and when the right-hand side is made of literals that
    are all found at the head of a lookahead that goes on after them. *)
Theorem matches_answers_none_without_a_match
    (grammar : list Production) (fuel : nat) :
  (forall rhs, _matches grammar (S (S fuel)) rhs [] = Ok None)
  /\ (forall terms, _matches grammar (S (S fuel)) [] terms = Ok None)
  /\ (forall c r rest more,
         is_nonterm c = false -> c <> r ->
         _matches grammar (S (S fuel)) (c :: rest) (r :: more) = Ok None)
  /\ (forall rhs more,
         Forall (fun s => is_nonterm s = false) rhs -> more <> [] ->
         _matches grammar (S (S fuel)) rhs (rhs ++ more) = Ok None).
Proof.
  unfold _matches. split; [|split; [|split]].
  - intros rhs. cbn [_matches_loop]. unfold _matches_body.
    cbn [is_nil]. now rewrite orb_true_r.
  - intros terms. reflexivity.
  - intros c r rest more Hc Hne. cbn [_matches_loop].
    now rewrite matches_body_mismatch.
  - intros rhs more Hlit Hmore.
    destruct rhs as [|c rhs]; [reflexivity|].
    destruct more as [|m more]; [contradiction|].
    cbn [_matches_loop]. unfold _matches_body.
    rewrite (consume_whole (c :: rhs) (m :: more) Hlit).
    inversion Hlit as [|? ? Hc _]; subst.
    cbn [app is_nil orb hd]. rewrite Hc. cbn [negb].
    rewrite skipn_all.
    change (c :: rhs ++ m :: more) with ((c :: rhs) ++ m :: more).
    rewrite skipn_app, skipn_all, Nat.sub_diag. reflexivity.
Qed.

(** ** The productions chosen for a lookahead *)

Lemma get_production_filter (grammar : list Production) (fuel : nat)
    (nonterm : string) (terms : list string) (sel : list string -> bool) :
  forall rhss,
    (forall rhs, In rhs rhss ->
                 _matches grammar fuel rhs terms
                 = Ok (if sel rhs then Some true else None)) ->
    forall acc,
      foldM (fun acc rhs =>
               m <- _matches grammar fuel rhs terms ;;
               Ok (if truthy m then acc ++ [(nonterm, rhs)] else acc))
            rhss acc
      = Ok (acc ++ map (pair nonterm) (filter sel rhss)).
Proof.
  induction rhss as [|rhs rhss IH]; intros Hsel acc; cbn [foldM filter map].
  - now rewrite app_nil_r.
  - rewrite (Hsel rhs (or_introl eq_refl)). cbn [bind].
    rewrite IH by (intros; apply Hsel; now right).
    destruct (sel rhs); cbn [truthy map]; [|reflexivity].
    now rewrite <- app_assoc.
Qed.

Lemma matches_terminal_head (grammar : list Production) (fuel : nat)
    (c t : string) (rest : list string) :
  is_term c = true ->
  _matches grammar (S (S fuel)) (c :: rest) [t]
  = Ok (if String.eqb c t then Some true else None).
Proof.
  intros Hc. apply is_term_not_nonterm in Hc. unfold _matches.
  destruct (String.eqb_spec c t) as [<-|Hne].
  - cbn [_matches_loop]. change (c :: rest) with ([c] ++ rest).
    now rewrite (matches_body_literal_prefix grammar [c] rest)
      by (try discriminate; repeat constructor; assumption).
  - cbn [_matches_loop]. now rewrite matches_body_mismatch.
Qed.

Lemma productions_by_head (n t : string) (grammar : list Production) :
  map (pair n)
      (filter (fun rhs => String.eqb (hd EmptyString rhs) t)
              (map snd (filter (fun p : Production => String.eqb (fst p) n)
                               grammar)))
  = filter (fun p : Production =>
              String.eqb (fst p) n
              && String.eqb (hd EmptyString (snd p)) t) grammar.
Proof.
  induction grammar as [|[lhs rhs] grammar IH]; [reflexivity|].
  cbn [filter fst snd]. destruct (String.eqb_spec lhs n) as [->|Hne].
  - cbn [map snd filter andb].
    destruct (String.eqb (hd EmptyString rhs) t); cbn [map];
      now rewrite IH.
  - exact IH.
Qed.

Lemma terminal_led_get_production
    (grammar : list Production) (fuel : nat) (nonterm t : string) :
  terminal_led grammar = true ->
  existsb (String.eqb nonterm) (nonterminals grammar) = true ->
  get_production_leading_to_terminal grammar (S (S fuel)) nonterm (LStr t)
  = Ok (filter (fun p : Production =>
                  String.eqb (fst p) nonterm
                  && String.eqb (hd EmptyString (snd p)) t) grammar).
Proof.
  intros Hled Hn. unfold get_production_leading_to_terminal.
  rewrite adjacency_matrix_lookup, Hn. cbn [as_tuple].
  rewrite (get_production_filter grammar (S (S fuel)) nonterm [t]
             (fun rhs => String.eqb (hd EmptyString rhs) t)).
  - cbn [app]. now rewrite productions_by_head.
  - intros rhs Hin. apply in_map_iff in Hin as ([lhs rhs'] & <- & Hin).
    apply filter_In in Hin as [Hin _].
    destruct (terminal_led_In grammar lhs rhs' Hled Hin)
      as (c & rest & -> & Hc).
    cbn [snd hd]. now apply matches_terminal_head.
Qed.

(** X13: in a grammar whose right-hand sides all begin with a
    terminal, the productions that lead a nonterminal to a lookahead of
    one symbol are the productions of that nonterminal whose right-hand
    side begins with this symbol, in the order of the table; a symbol
    that is no left-hand side raises [KeyError]. *)
Theorem terminal_led_productions_are_chosen_by_their_head
    (grammar : list Production) (fuel : nat) (nonterm t : string)
    (Hled : terminal_led grammar = true) :
  get_production_leading_to_terminal grammar (S (S fuel)) nonterm (LStr t)
  = if existsb (String.eqb nonterm) (nonterminals grammar)
    then Ok (filter (fun p : Production =>
                       String.eqb (fst p) nonterm
                       && String.eqb (hd EmptyString (snd p)) t) grammar)
    else Raise (KeyError nonterm).
Proof.
  destruct (existsb (String.eqb nonterm) (nonterminals grammar)) eqn:Hn.
  - now apply terminal_led_get_production.
  - unfold get_production_leading_to_terminal.
    now rewrite adjacency_matrix_lookup, Hn.
Qed.

Lemma terminal_led_productions_are_chosen_by_their_head_witness :
  terminal_led [("S", [quoted "a"; "S"]); ("S", [quoted "b"])] = true
  /\ get_production_leading_to_terminal
       [("S", [quoted "a"; "S"]); ("S", [quoted "b"])] 2 "S"
       (LStr (quoted "b"))
     = Ok [("S", [quoted "b"])].
Proof.
  split; [reflexivity|].
  apply (terminal_led_productions_are_chosen_by_their_head
           [("S", [quoted "a"; "S"]); ("S", [quoted "b"])] 0 "S"
           (quoted "b")).
  reflexivity.
Defined.

(** ** The rows of [kfirst] *)

Lemma set_add_NoDup (x : string) (s : list string) :
  NoDup s -> NoDup (set_add String.eqb x s).
Proof.
  intros H. unfold set_add.
  destruct (existsb (String.eqb x) s) eqn:E; [assumption|].
  apply NoDup_app; [assumption|repeat constructor; intros []|].
  intros y Hy [->|[]].
  assert (existsb (String.eqb y) s = true); [|congruence].
  apply existsb_exists. exists y. split; [assumption|apply String.eqb_refl].
Qed.

Lemma lhs_keys_NoDup (grammar : list Production) : NoDup (lhs_keys grammar).
Proof.
  unfold lhs_keys. generalize (NoDup_nil string).
  generalize (@nil string).
  induction grammar as [|p grammar IH]; intros s Hs; [assumption|].
  cbn [fold_left]. apply IH. now apply set_add_NoDup.
Qed.

Lemma lhs_keys_In (grammar : list Production) (n : string) :
  In n (lhs_keys grammar) <-> In n (nonterminals grammar).
Proof.
  unfold lhs_keys, nonterminals. split.
  - assert (G : forall (l : list Production) (s : list string),
               In n (fold_left (fun keys (p : Production) =>
                                  set_add String.eqb (fst p) keys) l s) ->
               In n s \/ In n (map fst l)).
    { induction l as [|p l IH]; intros s; cbn [fold_left map]; [auto|].
      intros H. apply IH in H as [H|H]; [|right; now right].
      apply set_add_In in H as [H| ->]; [auto|]. right. now left. }
    intros H. apply G in H as [[]|H]. exact H.
  - intros H. apply in_map_iff in H as (p & <- & Hp).
    now apply (fold_set_add_self String.eqb fst String.eqb_eq).
Qed.

Lemma dict_get_of_key {V} (k : string) (d : dict string V) :
  In k (map fst d) -> exists v, dict_get String.eqb k d = Some v.
Proof.
  intros H.
  assert (Hmem : dict_mem String.eqb k d = true).
  { rewrite dict_mem_keys. apply existsb_exists. exists k.
    split; [assumption|apply String.eqb_refl]. }
  unfold dict_mem in Hmem.
  destruct (dict_get String.eqb k d) as [v|]; [eauto|discriminate].
Qed.

Lemma dict_get_of_entry {V} (k : string) (v : V) (d : dict string V) :
  NoDup (map fst d) -> In (k, v) d -> dict_get String.eqb k d = Some v.
Proof.
  induction d as [|[k' v'] d IH]; intros Hnd Hin; [destruct Hin|].
  cbn [map fst] in Hnd. inversion Hnd as [|? ? Hk' Hd]; subst.
  cbn [dict_get]. destruct Hin as [[= -> ->]|Hin].
  - now rewrite String.eqb_refl.
  - destruct (String.eqb_spec k' k) as [->|Hne]; [|now apply IH].
    exfalso. apply Hk'. apply in_map_iff. now exists (k, v).
Qed.

Lemma kfirst_symbol_keys (grammar : list Production) (fuel i : nat)
    (F F' : dict string (list lookahead)) (symbol : string) :
  kfirst_symbol grammar fuel i F symbol = Ok F' -> map fst F' = map fst F.
Proof.
  unfold kfirst_symbol.
  destruct (_kfirst grammar fuel [] (Sym symbol) i true) as [yielded| |];
    cbn [bind]; try discriminate.
  apply (foldM_inv (fun F0 : dict string (list lookahead) =>
                      map fst F0 = map fst F)); [|reflexivity].
  intros F0 sub F1 _ HF0.
  destruct (dict_get String.eqb symbol F0) as [old|] eqn:E; [|discriminate].
  intros [= <-]. rewrite dict_set_keys; [assumption|].
  unfold dict_mem. now rewrite E.
Qed.

Lemma kfirst_keys (grammar : list Production) (fuel k : nat)
    (F : dict string (list lookahead)) :
  kfirst grammar fuel k = Ok F -> map fst F = lhs_keys grammar.
Proof.
  unfold kfirst.
  apply (foldM_inv (fun F0 : dict string (list lookahead) =>
                      map fst F0 = lhs_keys grammar)).
  - intros F0 i F1 _ HF0.
    apply (foldM_inv (fun F0 : dict string (list lookahead) =>
                        map fst F0 = lhs_keys grammar)); [|exact HF0].
    intros F2 symbol F3 _ HF2 Hs. apply kfirst_symbol_keys in Hs. congruence.
  - rewrite map_map. apply map_id.
Qed.

(** X14: the mapping that [kfirst] returns has one row for every
    nonterminal of the grammar, in the order in which the left-hand
    sides first appear and none twice, whatever [k] is: a nonterminal
    for which nothing is found has an empty row, not a missing one. *)
Theorem kfirst_has_a_row_for_every_nonterminal
    (grammar : list Production) (fuel k : nat)
    (F : dict string (list lookahead))
    (Hrun : kfirst grammar fuel k = Ok F) :
  map fst F = lhs_keys grammar
  /\ NoDup (map fst F)
  /\ forall n, In n (nonterminals grammar) ->
               exists entries, dict_get String.eqb n F = Some entries.
Proof.
  pose proof (kfirst_keys grammar fuel k F Hrun) as Hkeys.
  split; [exact Hkeys|]. split.
  - rewrite Hkeys. apply lhs_keys_NoDup.
  - intros n Hn. apply dict_get_of_key. rewrite Hkeys.
    now apply lhs_keys_In.
Qed.

Lemma kfirst_has_a_row_for_every_nonterminal_witness :
  map fst [("S", [LStr (quoted "a")])] = lhs_keys single_terminal_grammar
  /\ NoDup (map fst [("S", [LStr (quoted "a")])])
  /\ forall n, In n (nonterminals single_terminal_grammar) ->
               exists entries,
                 dict_get String.eqb n [("S", [LStr (quoted "a")])]
                 = Some entries.
Proof.
  apply (kfirst_has_a_row_for_every_nonterminal single_terminal_grammar
           10 1).
  reflexivity.
Defined.

(** ** [first] and [kfirst(1)] *)

Lemma kfirst_entries_from_members (grammar : list Production) (fuel k : nat)
    (F : dict string (list lookahead)) (N : string)
    (entries : list lookahead) (e : lookahead) :
  kfirst grammar fuel k = Ok F ->
  dict_get String.eqb N F = Some entries -> In e entries ->
  from_yielded_member grammar fuel k N e.
Proof.
  intros Hrun. revert N entries e. unfold kfirst in Hrun. revert Hrun.
  apply (foldM_inv
           (fun F0 => forall N entries e,
                dict_get String.eqb N F0 = Some entries ->
                In e entries -> from_yielded_member grammar fuel k N e)).
  - intros F0 i F1 Hi HF0.
    apply (foldM_inv
             (fun F0 => forall N entries e,
                  dict_get String.eqb N F0 = Some entries ->
                  In e entries -> from_yielded_member grammar fuel k N e));
      [|exact HF0].
    intros F2 symbol F3 _ HF2 Hs.
    eapply kfirst_symbol_entries; eauto.
  - intros N entries e H. apply initial_entries_empty in H. subst.
    intros [].
Qed.

Lemma kfirst_one_entries_are_bare (grammar : list Production) (fuel : nat)
    (F : dict string (list lookahead)) (N : string)
    (entries : list lookahead) (e : lookahead) :
  kfirst grammar fuel 1 = Ok F ->
  dict_get String.eqb N F = Some entries -> In e entries ->
  exists s, e = LStr s.
Proof.
  intros Hrun Hrow He.
  destruct (kfirst_entries_from_members grammar fuel 1 F N entries e
              Hrun Hrow He)
    as (i & yielded & fs & m & Hi & Hy & Hfs & Hm & Hcase).
  destruct Hcase as [(x & _ & ->)|[[Hlen _]|[_ ->]]]; eauto.
  exfalso. cbn [seq] in Hi. destruct Hi as [<-|[]].
  destruct (kfirst_members grammar fuel [] (Sym N) 1 true yielded Hy fs m
              Hfs Hm) as [Hreal _].
  unfold real_length in Hreal. lia.
Qed.

Lemma bare_entries_round_trip (entries : list lookahead) :
  (forall e, In e entries -> exists s, e = LStr s) ->
  map LStr (flat_map (fun x => match x with
                               | LStr s => [s]
                               | LTup _ => []
                               end) entries)
  = entries.
Proof.
  induction entries as [|e entries IH]; intros H; [reflexivity|].
  destruct (H e (or_introl eq_refl)) as [s ->]. cbn [flat_map app map].
  rewrite IH; [reflexivity|]. intros e He. apply H. now right.
Qed.

(** X15: [first] loses nothing of [kfirst(1)].  For [k = 1] every
    entry that [kfirst] adds is a bare string, a terminal or epsilon,
    and never a tuple, so that the strings [first] keeps are all the
    entries there are.  [generate_table] on what [first] returns
    therefore builds what [generate_ktable] builds on [kfirst(1)]. *)
Theorem first_keeps_every_entry_of_kfirst
    (grammar : list Production) (fuel : nat)
    (F1 : dict string (list string))
    (Hrun : first grammar fuel = Ok F1) :
  exists F,
    kfirst grammar fuel 1 = Ok F
    /\ F = map (fun kv : string * list string =>
                  (fst kv, map LStr (snd kv))) F1
    /\ forall follow,
        generate_table grammar fuel F1 follow
        = generate_ktable grammar fuel F
            (map (fun kv : string * list string =>
                    (fst kv, map LStr (snd kv))) follow) 1.
Proof.
  unfold first in Hrun.
  destruct (kfirst grammar fuel 1) as [F| |] eqn:E; cbn [bind] in Hrun;
    try discriminate.
  injection Hrun as <-. exists F. split; [reflexivity|].
  assert (HF : F = map (fun kv : string * list string =>
                          (fst kv, map LStr (snd kv)))
                       (map (fun kv : string * list lookahead =>
                               (fst kv,
                                flat_map (fun x => match x with
                                                   | LStr s => [s]
                                                   | LTup _ => []
                                                   end) (snd kv))) F)).
  { rewrite map_map. symmetry. rewrite <- (map_id F) at 2.
    apply map_ext_in. intros [N entries] Hin. cbn [fst snd]. f_equal.
    apply bare_entries_round_trip. intros e He.
    apply (kfirst_one_entries_are_bare grammar fuel F N entries e E);
      [|exact He].
    apply dict_get_of_entry; [|exact Hin].
    rewrite (kfirst_keys grammar fuel 1 F E). apply lhs_keys_NoDup. }
  split; [exact HF|]. intros follow. unfold generate_table.
  now rewrite <- HF.
Qed.

Lemma first_keeps_every_entry_of_kfirst_witness :
  exists F,
    kfirst nullable_grammar 10 1 = Ok F
    /\ F = map (fun kv : string * list string =>
                  (fst kv, map LStr (snd kv)))
               [("N", [epsilon; quoted "a"])]
    /\ forall follow,
        generate_table nullable_grammar 10 [("N", [epsilon; quoted "a"])]
          follow
        = generate_ktable nullable_grammar 10 F
            (map (fun kv : string * list string =>
                    (fst kv, map LStr (snd kv))) follow) 1.
Proof.
  apply (first_keeps_every_entry_of_kfirst nullable_grammar 10
           [("N", [epsilon; quoted "a"])]).
  reflexivity.
Defined.

(** ** What the stack loop yields *)

Lemma zip_up_length (unzipped : list (list SubProduction)) :
  forall curr,
    length (zip_up curr unzipped)
    = fold_right Nat.mul 1 (map (@length SubProduction) unzipped).
Proof.
  induction unzipped as [|choices unzipped IH]; intros curr; [reflexivity|].
  cbn [zip_up map fold_right].
  rewrite (flat_map_constant_length
             (c := fold_right Nat.mul 1
                     (map (@length SubProduction) unzipped)))
    by (intros; apply IH).
  now rewrite length_rev.
Qed.

Lemma zip_up_In (unzipped : list (list SubProduction)) :
  forall curr s,
    In s (zip_up curr unzipped)
    <-> exists picks,
        Forall2 (fun pick choices => In pick choices) picks unzipped
        /\ s = curr ++ concat picks.
Proof.
  induction unzipped as [|choices unzipped IH]; intros curr s.
  - cbn [zip_up In]. split.
    + intros [<-|[]]. exists []. split; [constructor|].
      cbn [concat]. now rewrite app_nil_r.
    + intros (picks & Hp & ->). inversion Hp; subst. left.
      cbn [concat]. now rewrite app_nil_r.
  - cbn [zip_up]. rewrite in_flat_map. split.
    + intros (t & Ht & Hs). apply in_rev in Ht.
      apply IH in Hs as (picks & Hp & ->).
      exists (t :: picks). split; [now constructor|].
      cbn [concat]. now rewrite app_assoc.
    + intros (picks & Hp & ->).
      inversion Hp as [|t c picks' l' Ht Hp']; subst.
      exists t. split; [now apply in_rev in Ht|].
      apply IH. exists picks'. split; [assumption|].
      cbn [concat]. now rewrite app_assoc.
Qed.

(** X16: the stack loop that ends [_kfollow_resolve_permutation] comes
    to an end and yields one sequence for every way of picking one
    derivation at every position: the concatenation of the picks.  It
    yields as many sequences as the product of the numbers of
    derivations, hence none when a position has none. *)
Theorem resolved_permutations_are_all_the_combinations
    (unzipped : list (list SubProduction)) :
  zip_stack (S (zip_size unzipped)) unzipped [([], 0)]
  = Ok (zip_up [] unzipped)
  /\ length (zip_up [] unzipped)
     = fold_right Nat.mul 1 (map (@length SubProduction) unzipped)
  /\ forall s,
      In s (zip_up [] unzipped)
      <-> exists picks,
          Forall2 (fun pick choices => In pick choices) picks unzipped
          /\ s = concat picks.
Proof.
  split; [|split].
  - rewrite (zip_stack_is_zip_up unzipped (S (zip_size unzipped)) [([], 0)]).
    + cbn [flat_map fst snd skipn]. now rewrite app_nil_r.
    + repeat constructor. cbn [snd]. lia.
    + unfold list_sum. cbn [map snd skipn fold_right]. lia.
  - apply zip_up_length.
  - intros s. apply (zip_up_In unzipped [] s).
Qed.

(** ** The exceptions of the enumeration *)

Section GuardedOutcome.
Context {St Y : Type}.
Variable message : string.
Variable running : St -> bool.
Variable body : St -> result (St * list Y).

Lemma guarded_while_raises (P : St -> Prop) :
  (forall s s' ys, P s -> running s = true -> body s = Ok (s', ys) -> P s') ->
  (forall s e, P s -> running s = true -> body s <> Raise e) ->
  forall guard s e,
    P s -> guarded_while message running body guard s = Raise e ->
    e = Exception message.
Proof.
  intros Hkeep Hbody.
  induction guard as [|guard IH]; intros s e HP; cbn [guarded_while].
  - destruct (running s); [|discriminate]. now intros [= <-].
  - destruct (running s) eqn:Hrun; [|discriminate].
    destruct (body s) as [[s1 ys1]|e1|] eqn:Eb; cbn [bind].
    + destruct (guarded_while message running body guard s1)
        as [[s2 ys2]|e2|] eqn:E; cbn [bind]; try discriminate.
      intros [= <-]. apply (IH s1 e2); [|exact E].
      exact (Hkeep s s1 ys1 HP Hrun Eb).
    + intros _. destruct (Hbody s e1 HP Hrun Eb).
    + discriminate.
Qed.
End GuardedOutcome.

Lemma mapM_never_raises {A B} (f : A -> result B) (xs : list A) (e : exn) :
  (forall x, In x xs -> f x <> Raise e) -> mapM f xs <> Raise e.
Proof.
  intros H Hraise. pose proof (mapM_outcome f xs) as Hout.
  rewrite Hraise in Hout. destruct Hout as (x & Hin & Hx).
  exact (H x Hin Hx).
Qed.

Lemma kfirst_never_raises (grammar : list Production) (e : exn) :
  forall fuel active symbol k allow_underflow,
    _kfirst grammar fuel active symbol k allow_underflow <> Raise e.
Proof.
  induction fuel as [|fuel IH]; intros active symbol k au; [discriminate|].
  cbn [_kfirst].
  destruct (existsb _ active); [discriminate|].
  set (act := (symbol, k, au) :: active). clearbody act.
  destruct symbol as [s|[|head tail]].
  - pose proof (mapM_never_raises
                  (fun subproduction =>
                     _kfirst grammar fuel act (Sub subproduction) k au)
                  (grammar_get grammar s) e) as Hm.
    destruct (mapM _ (grammar_get grammar s)) as [ys|e'|]; cbn [bind];
      try discriminate.
    intros [= ->]. apply Hm; [|reflexivity]. intros x _. apply IH.
  - discriminate.
  - destruct (initial_terminals k (head :: tail)) as [terms rest].
    destruct (Nat.eqb (length terms) 1 && is_epsilon (hd EmptyString terms)
              && Nat.eqb k 0); [discriminate|].
    destruct (negb (is_nil terms) && Nat.eqb (length terms) k
              && (au || is_nil rest)); [discriminate|].
    destruct (is_nil rest); [discriminate|].
    destruct (Nat.eqb (length terms) 0).
    + pose proof (IH act (Sym head) k au) as Hhead.
      destruct (_kfirst grammar fuel act (Sym head) k au)
        as [from_head|e'|]; cbn [bind]; [|congruence|discriminate].
      match goal with
      | |- context [mapM ?f (seq 1 k)] =>
          pose proof (mapM_never_raises f (seq 1 k) e) as Hm;
          destruct (mapM f (seq 1 k)) as [products|e'|]; cbn [bind];
          try discriminate
      end.
      intros [= ->]. apply Hm; [|reflexivity]. intros i _.
      pose proof (IH act (Sym head) (k - i) false) as Hff.
      destruct (_kfirst grammar fuel act (Sym head) (k - i) false)
        as [first_firsts|e'|]; cbn [bind]; [|congruence|discriminate].
      match goal with
      | |- context [mapM ?f first_firsts] =>
          pose proof (mapM_never_raises f first_firsts e) as Hm2;
          destruct (mapM f first_firsts) as [per_first|e'|]; cbn [bind];
          try discriminate
      end.
      intros [= ->]. apply Hm2; [|reflexivity]. intros first_first _.
      pose proof (IH act (Sub tail) i au) as Hsf.
      destruct (_kfirst grammar fuel act (Sub tail) i au)
        as [second_firsts|e'|]; cbn [bind]; [discriminate|congruence|
                                              discriminate].
    + pose proof (IH act (Sub rest) (k - length terms) au) as Hrest.
      destruct (_kfirst grammar fuel act (Sub rest) (k - length terms) au)
        as [rest_kfirst|e'|]; cbn [bind]; [discriminate|congruence|
                                            discriminate].
Qed.

Lemma unzip_never_raises (grammar : list Production)
    (get_exact : string -> nat -> list SubProduction) (fuel : nat)
    (rhs : list string) (base_index : nat) (permutation : list nat)
    (allow_firstset : bool) (e : exn) :
  forall indices,
    Forall (fun i => i + base_index < length rhs) indices ->
    unzip_permutations grammar get_exact fuel rhs base_index permutation
      allow_firstset indices <> Raise e.
Proof.
  induction indices as [|i indices IH]; intros Hall; [discriminate|].
  inversion Hall as [|? ? Hi Hrest]; subst.
  cbn [unzip_permutations]. unfold exact_length_productions.
  destruct (nth_error rhs (i + base_index)) as [symbol|] eqn:En.
  2:{ apply nth_error_None in En. lia. }
  destruct (is_index i (last_nonzero permutation) && negb (is_term symbol)
            && allow_firstset).
  - pose proof (kfirst_never_raises grammar e fuel [] (Sym symbol)
                  (nth i permutation 0) true) as Hk.
    destruct (_kfirst grammar fuel [] (Sym symbol) (nth i permutation 0) true)
      as [yielded|e'|]; cbn [bind]; [|congruence|discriminate].
    destruct (is_nil _); [discriminate|].
    specialize (IH Hrest).
    destruct (unzip_permutations grammar get_exact fuel rhs base_index
                permutation allow_firstset indices);
      cbn [bind]; [discriminate|congruence|discriminate].
  - cbn [bind]. destruct (is_nil _); [discriminate|].
    specialize (IH Hrest).
    destruct (unzip_permutations grammar get_exact fuel rhs base_index
                permutation allow_firstset indices);
      cbn [bind]; [discriminate|congruence|discriminate].
Qed.

Lemma resolve_never_raises (grammar : list Production)
    (get_exact : string -> nat -> list SubProduction) (fuel : nat)
    (lhs : string) (rhs : list string) (base_index : nat)
    (permutation : list nat) (allow_firstset : bool) (e : exn) :
  base_index < length rhs ->
  length permutation + base_index <= length rhs ->
  _kfollow_resolve_permutation grammar get_exact fuel (lhs, rhs) base_index
    permutation allow_firstset <> Raise e.
Proof.
  intros Hbase Hlen. unfold _kfollow_resolve_permutation.
  apply Nat.ltb_lt in Hbase. rewrite Hbase. cbn [negb].
  pose proof (unzip_never_raises grammar get_exact fuel rhs base_index
                permutation allow_firstset e
                (seq 0 (length permutation))) as Hu.
  destruct (unzip_permutations grammar get_exact fuel rhs base_index
              permutation allow_firstset (seq 0 (length permutation)))
    as [[unzipped|]|e'|]; cbn [bind]; try discriminate.
  intros [= ->]. apply Hu; [|reflexivity].
  apply Forall_forall. intros i Hi. apply in_seq in Hi. lia.
Qed.

Lemma permutations_never_raise_but_the_guard (grammar : list Production)
    (get_exact : string -> nat -> list SubProduction) (fuel : nat)
    (lhs : string) (rhs : list string) (base_index k : nat) (e : exn) :
  base_index <= length rhs ->
  _kfollow_permutations grammar get_exact fuel (lhs, rhs) base_index k
  = Raise e ->
  e = Exception "Reached max iteration.".
Proof.
  intros Hbase. unfold _kfollow_permutations.
  destruct (Nat.eqb_spec base_index (length rhs)) as [Heq|Hne];
    [discriminate|].
  assert (Hlt : base_index < length rhs) by lia.
  destruct (guarded_while _ _ _ 500 (initial_queue k))
    as [[queue yielded]|e'|] eqn:E; cbn [bind]; try discriminate.
  intros [= ->].
  apply (guarded_while_raises _ _ _
           (fun queue : list (list nat) =>
              Forall (fun p => length p + base_index <= length rhs) queue))
    in E; [exact E| | |].
  - intros queue queue' ys Hq _. unfold permutations_body.
    destruct queue as [|p queue]; [discriminate|].
    inversion Hq as [|? ? Hp Hrest]; subst.
    destruct (Nat.eqb (list_sum p) k).
    + destruct (_kfollow_resolve_permutation _ _ _ _ _ _ true);
        cbn [bind]; try discriminate. now intros [= <- <-].
    + destruct (Nat.leb_spec (length rhs - base_index) (length p)).
      * destruct (_kfollow_resolve_permutation _ _ _ _ _ _ false);
          cbn [bind]; try discriminate. now intros [= <- <-].
      * intros [= <- <-]. apply Forall_app. split; [|assumption].
        apply Forall_rev, Forall_map, Forall_forall. intros i _.
        rewrite length_app. cbn [length]. lia.
  - intros queue e0 Hq Hrun. unfold permutations_body.
    destruct queue as [|p queue]; [discriminate|].
    inversion Hq as [|? ? Hp Hrest]; subst.
    destruct (Nat.eqb (list_sum p) k).
    + pose proof (resolve_never_raises grammar get_exact fuel lhs rhs
                    base_index p true e0 Hlt Hp) as Hr.
      destruct (_kfollow_resolve_permutation _ _ _ _ _ _ true);
        cbn [bind]; [discriminate|congruence|discriminate].
    + destruct (Nat.leb (length rhs - base_index) (length p));
        [|discriminate].
      pose proof (resolve_never_raises grammar get_exact fuel lhs rhs
                    base_index p false e0 Hlt Hp) as Hr.
      destruct (_kfollow_resolve_permutation _ _ _ _ _ _ false);
        cbn [bind]; [discriminate|congruence|discriminate].
  - unfold initial_queue. apply Forall_rev, Forall_map, Forall_forall.
    intros i _. cbn [length]. lia.
Qed.

Lemma occurrences_In (symbol : string) (rhs : list string) :
  forall j i,
    In i (occurrences symbol j rhs) ->
    j <= i < j + length rhs /\ nth_error rhs (i - j) = Some symbol.
Proof.
  induction rhs as [|s rhs IH]; intros j i; cbn [occurrences];
    [intros []|].
  assert (Hrec : In i (occurrences symbol (S j) rhs) ->
                 j <= i < j + length (s :: rhs)
                 /\ nth_error (s :: rhs) (i - j) = Some symbol).
  { intros H. apply IH in H as [Hi Hn]. cbn [length]. split; [lia|].
    replace (i - j) with (S (i - S j)) by lia. exact Hn. }
  destruct (String.eqb_spec s symbol) as [->|Hne]; [|exact Hrec].
  intros [<-|H]; [|now apply Hrec].
  cbn [length]. split; [lia|]. now rewrite Nat.sub_diag.
Qed.

(** X17: the enumeration of the follow sets raises nothing but the
    error of its iteration guard.  The tuples of lengths that
    [_kfollow_permutations] takes from its queue are never longer than
    what is left of the right-hand side, so that no subscript is out of
    range and the assertion of [_kfollow_resolve_permutation] holds;
    [_kfollow] starts it right after an occurrence of the symbol, hence
    within the right-hand side or at its end. *)
Theorem follow_enumeration_raises_only_the_guard_error
    (grammar : list Production)
    (get_exact : string -> nat -> list SubProduction) (fuel : nat) :
  (forall lhs rhs base_index k e,
      base_index <= length rhs ->
      _kfollow_permutations grammar get_exact fuel (lhs, rhs) base_index k
      = Raise e ->
      e = Exception "Reached max iteration.")
  /\ (forall lhs rhs base_index permutation allow_firstset e,
         base_index < length rhs ->
         length permutation + base_index <= length rhs ->
         _kfollow_resolve_permutation grammar get_exact fuel (lhs, rhs)
           base_index permutation allow_firstset <> Raise e)
  /\ (forall symbol k e,
         _kfollow grammar get_exact fuel symbol k = Raise e ->
         e = Exception "Reached max iteration.").
Proof.
  split; [|split].
  - intros lhs rhs base_index k e.
    apply permutations_never_raise_but_the_guard.
  - intros lhs rhs base_index permutation allow_firstset e.
    apply resolve_never_raises.
  - intros symbol k e. unfold _kfollow.
    match goal with
    | |- context [mapM ?f grammar] =>
        pose proof (mapM_outcome f grammar) as Hout;
        destruct (mapM f grammar) as [yielded|e'|]; cbn [bind];
        try discriminate
    end.
    intros [= ->]. destruct Hout as ([lhs rhs] & _ & Hp). cbn [snd] in Hp.
    match type of Hp with
    | context [mapM ?f ?l] =>
        pose proof (mapM_outcome f l) as Hout;
        destruct (mapM f l) as [per_occurrence|e'|]; cbn [bind] in Hp;
        try discriminate
    end.
    injection Hp as ->. destruct Hout as (i & Hi & Hrun).
    apply occurrences_In in Hi as [Hi _].
    apply (permutations_never_raise_but_the_guard grammar get_exact fuel
             lhs rhs (i + 1) k e); [lia|exact Hrun].
Qed.

(** ** The follow sets of one symbol *)

Lemma occurrences_complete (symbol : string) (rhs : list string) :
  forall j i,
    nth_error rhs i = Some symbol -> In (j + i) (occurrences symbol j rhs).
Proof.
  induction rhs as [|s rhs IH]; intros j [|i]; cbn [nth_error occurrences];
    try discriminate.
  - intros [= ->]. rewrite String.eqb_refl, Nat.add_0_r. now left.
  - intros H. replace (j + S i) with (S j + i) by lia.
    destruct (String.eqb s symbol); [right|]; now apply IH.
Qed.

Lemma occurrences_absent (symbol : string) (rhs : list string) :
  ~ In symbol rhs -> forall j, occurrences symbol j rhs = [].
Proof.
  induction rhs as [|s rhs IH]; intros Hin j; [reflexivity|].
  cbn [occurrences]. destruct (String.eqb_spec s symbol) as [->|Hne].
  - exfalso. apply Hin. now left.
  - apply IH. intros H. apply Hin. now right.
Qed.

Lemma mapM_all_ok {A B} (f : A -> result B) (h : A -> B) (xs : list A) :
  (forall x, In x xs -> f x = Ok (h x)) -> mapM f xs = Ok (map h xs).
Proof.
  induction xs as [|x xs IH]; intros H; [reflexivity|].
  cbn [mapM map]. rewrite (H x (or_introl eq_refl)). cbn [bind].
  rewrite IH by (intros; apply H; now right). reflexivity.
Qed.

Lemma concat_of_nils {A B} (xs : list A) :
  concat (map (fun _ : A => @nil B) xs) = [].
Proof. induction xs as [|x xs IH]; [reflexivity|exact IH]. Qed.

Lemma permutations_built_for (grammar : list Production)
    (get_exact : string -> nat -> list SubProduction) (fuel : nat)
    (lhs : string) (rhs : list string) (base_index k : nat)
    (yielded : list FollowSet) :
  _kfollow_permutations grammar get_exact fuel (lhs, rhs) base_index k
  = Ok yielded ->
  Forall (built_for lhs k) yielded.
Proof.
  unfold _kfollow_permutations.
  destruct (Nat.eqb base_index (length rhs)).
  { intros [= <-]. repeat constructor. }
  destruct (guarded_while _ _ _ 500 (initial_queue k))
    as [[queue ys]| |] eqn:E; cbn [bind]; try discriminate.
  intros [= <-].
  apply (guarded_while_yields _ _ _ (fun _ => True) (built_for lhs k))
    in E; [exact E| |exact I].
  intros queue0 queue1 ys0 _. unfold permutations_body.
  destruct queue0 as [|p queue0]; [discriminate|].
  destruct (Nat.eqb (list_sum p) k).
  - destruct (_kfollow_resolve_permutation _ _ _ _ _ _ true) as [seqs| |];
      cbn [bind]; try discriminate.
    intros [= <- <-]. split; [exact I|]. repeat constructor.
  - destruct (Nat.leb (length rhs - base_index) (length p)).
    + destruct (_kfollow_resolve_permutation _ _ _ _ _ _ false)
        as [seqs| |]; cbn [bind]; try discriminate.
      intros [= <- <-]. split; [exact I|]. repeat constructor.
    + intros [= <- <-]. split; [exact I|constructor].
Qed.

(** X18: [_kfollow] builds the follow sets of a symbol from the
    places where it stands in a right-hand side.  A symbol that stands
    in none yields nothing; every follow set yielded is built for the
    left-hand side of a production in which the symbol stands and for
    the [k] that was asked, complete without pending prefixes or partial
    without resolved sequences; and where the symbol ends a right-hand
    side, the partial follow set of the empty sequence, which waits for
    the follow set of the left-hand side, is among those yielded. *)
Theorem kfollow_of_a_symbol_follows_its_occurrences
    (grammar : list Production)
    (get_exact : string -> nat -> list SubProduction) (fuel : nat)
    (symbol : string) (k : nat) :
  ((forall p, In p grammar -> ~ In symbol (snd p)) ->
   _kfollow grammar get_exact fuel symbol k = Ok [])
  /\ (forall yielded f,
         _kfollow grammar get_exact fuel symbol k = Ok yielded ->
         In f yielded ->
         exists lhs rhs,
           In (lhs, rhs) grammar /\ In symbol rhs /\ built_for lhs k f)
  /\ (forall yielded lhs before,
         _kfollow grammar get_exact fuel symbol k = Ok yielded ->
         In (lhs, before ++ [symbol]) grammar ->
         In (FollowSet_partial [[]] lhs k) yielded).
Proof.
  unfold _kfollow. split; [|split].
  - intros Habsent.
    rewrite (mapM_all_ok _ (fun _ => [])).
    + cbn [bind]. now rewrite concat_of_nils.
    + intros p Hp. now rewrite (occurrences_absent _ _ (Habsent p Hp)).
  - intros yielded f.
    match goal with
    | |- context [mapM ?g grammar] =>
        destruct (mapM g grammar) as [lists| |] eqn:Em; cbn [bind];
        try discriminate
    end.
    intros [= <-] Hf. apply in_concat in Hf as (l & Hl & Hf).
    destruct (mapM_ok_In _ _ _ Em _ Hl) as ([lhs rhs] & Hp & Hrun).
    cbn [snd] in Hrun.
    match type of Hrun with
    | context [mapM ?g ?xs] =>
        destruct (mapM g xs) as [per_occurrence| |] eqn:Eo;
        cbn [bind] in Hrun; try discriminate
    end.
    injection Hrun as <-. apply in_concat in Hf as (l' & Hl' & Hf).
    destruct (mapM_ok_In _ _ _ Eo _ Hl') as (i & Hi & Hperm).
    exists lhs, rhs. split; [assumption|]. split.
    + apply occurrences_In in Hi as [_ Hi].
      now apply nth_error_In in Hi.
    + apply permutations_built_for in Hperm.
      rewrite Forall_forall in Hperm. now apply Hperm.
  - intros yielded lhs before.
    match goal with
    | |- context [mapM ?g grammar] =>
        destruct (mapM g grammar) as [lists| |] eqn:Em; cbn [bind];
        try discriminate
    end.
    intros [= <-] Hp.
    destruct (mapM_ok_fwd _ _ _ Em _ Hp) as (l & Hrun & Hl).
    cbn [snd] in Hrun.
    match type of Hrun with
    | context [mapM ?g ?xs] =>
        destruct (mapM g xs) as [per_occurrence| |] eqn:Eo;
        cbn [bind] in Hrun; try discriminate
    end.
    injection Hrun as <-.
    assert (Hi : In (0 + length before)
                    (occurrences symbol 0 (before ++ [symbol]))).
    { apply occurrences_complete.
      rewrite nth_error_app2, Nat.sub_diag by lia. reflexivity. }
    destruct (mapM_ok_fwd _ _ _ Eo _ Hi) as (l' & Hperm & Hl').
    apply in_concat. exists (concat per_occurrence). split; [assumption|].
    apply in_concat. exists l'. split; [assumption|].
    unfold _kfollow_permutations in Hperm.
    replace (Nat.eqb (0 + length before + 1) (length (before ++ [symbol])))
      with true in Hperm
      by (symmetry; apply Nat.eqb_eq; rewrite length_app; simpl; lia).
    injection Hperm as <-. now left.
Qed.

(** ** The fixpoint and the shape of the lookup *)

Lemma length_list_set {A} (x : A) :
  forall i l, length (list_set i x l) = length l.
Proof.
  induction i as [|i IH]; intros [|a l]; try reflexivity.
  rewrite list_set_cons. cbn [length]. now rewrite IH.
Qed.

Lemma dict_set_shape (k : string) (v v0 : list FollowSet) (d : Lookup) :
  dict_get String.eqb k d = Some v0 -> length v = length v0 ->
  lookup_shape (dict_set String.eqb k v d) = lookup_shape d.
Proof.
  unfold lookup_shape.
  induction d as [|[k' v'] d IH]; cbn [dict_get dict_set]; [discriminate|].
  destruct (String.eqb k' k).
  - intros [= <-] Hlen. cbn [map fst snd]. now rewrite Hlen.
  - intros Hget Hlen. cbn [map]. now rewrite IH.
Qed.

Lemma lookup_store_shape (lookup : Lookup) (symbol : string) (i : nat)
    (f : FollowSet) :
  lookup_shape (lookup_store lookup symbol i f) = lookup_shape lookup.
Proof.
  unfold lookup_store.
  destruct (dict_get String.eqb symbol lookup) as [l|] eqn:E; [|reflexivity].
  apply (dict_set_shape symbol _ l); [assumption|apply length_list_set].
Qed.

(** X19: [_kfollow_fixpoint_solution] changes follow sets in place
    and nothing else: the lookup it returns has the keys of the one it
    was given, in the same order, and under every key as many follow
    sets as before. *)
Theorem fixpoint_keeps_the_shape_of_the_lookup
    (fs_append : FollowSet -> FollowSet -> FollowSet)
    (lookup lookup' : Lookup)
    (Hrun : _kfollow_fixpoint_solution fs_append lookup = Ok lookup') :
  lookup_shape lookup' = lookup_shape lookup.
Proof.
  unfold _kfollow_fixpoint_solution in Hrun.
  destruct (guarded_while _ _ _ 500 (lookup, true))
    as [[[lk c] ys]| |] eqn:E; cbn [bind] in Hrun; try discriminate.
  injection Hrun as <-.
  apply (guarded_while_inv _ _ _
           (fun st : Lookup * bool =>
              lookup_shape (fst st) = lookup_shape lookup))
    in E; [exact E| |reflexivity].
  clear. intros [lk c] st' ys Hk. unfold fixpoint_body.
  destruct (foldM _ (map fst lk) (lk, false)) as [st| |] eqn:E;
    cbn [bind]; try discriminate.
  intros [= <- <-]. revert E.
  apply (foldM_inv
           (fun st : Lookup * bool =>
              lookup_shape (fst st) = lookup_shape lookup));
    [|exact Hk].
  clear. intros [lk0 c0] symbol [lk2 c2] _ Hk. cbn [fst] in Hk.
  destruct (dict_get String.eqb symbol lk0) as [followsets|];
    [|discriminate].
  destruct (foldM _ (seq 0 (length followsets)) lk0) as [lk1| |] eqn:E;
    cbn [bind]; try discriminate.
  destruct (dict_get String.eqb symbol lk1); [|discriminate].
  intros [= <- _]. cbn [fst]. revert E.
  apply (foldM_inv (fun b : Lookup => lookup_shape b = lookup_shape lookup));
    [|exact Hk].
  clear. intros b i b' _ Hb. unfold fixpoint_followset.
  destruct (lookup_at b symbol i) as [followset| |]; cbn [bind];
    try discriminate.
  destruct (is_complete followset).
  - intros [= <-]. now rewrite lookup_store_shape.
  - destruct (dict_get String.eqb (follow followset) _) as [others|];
      [|discriminate].
    apply (foldM_inv
             (fun b : Lookup => lookup_shape b = lookup_shape lookup));
      [|now rewrite lookup_store_shape].
    intros lk j lk' _ Hlk.
    destruct (lookup_at lk (follow followset) j); cbn [bind];
      try discriminate.
    destruct (lookup_at lk symbol i); cbn [bind]; try discriminate.
    intros [= <-]. now rewrite lookup_store_shape.
Qed.

Lemma fixpoint_keeps_the_shape_of_the_lookup_witness :
  lookup_shape
    [("S", [initial_start "S"]); ("A", []);
     ("B", [{| owner := "S"; follow := "S"; fs_k := 1;
               partials := [[]]; completes := [["$"]]; additional := [];
               is_complete := false; changed := false |}])]
  = lookup_shape
      [("S", [initial_start "S"]); ("A", []);
       ("B", [FollowSet_partial [[]] "S" 1])].
Proof.
  apply (fixpoint_keeps_the_shape_of_the_lookup spec_append).
  vm_compute. reflexivity.
Defined.

(** ** The fixpoint and the complete follow sets *)

Lemma fixpoint_followset_keeps_complete
    (fs_append : FollowSet -> FollowSet -> FollowSet)
    (symbol0 : string) (i0 : nat) (f : FollowSet)
    (symbol : string) (lookup lookup' : Lookup) (i : nat) :
  is_complete f = true ->
  (exists g, lookup_at lookup symbol0 i0 = Ok g /\ same_but_changed f g) ->
  fixpoint_followset fs_append symbol lookup i = Ok lookup' ->
  exists g, lookup_at lookup' symbol0 i0 = Ok g /\ same_but_changed f g.
Proof.
  intros Hc (g & Hat & Hsame). unfold fixpoint_followset.
  destruct (lookup_at lookup symbol i) as [followset| |] eqn:Ef;
    cbn [bind]; try discriminate.
  assert (Hgc : is_complete g = true).
  { rewrite <- Hc. symmetry. exact (f_equal is_complete Hsame). }
  assert (Hfirst :
            (exists g', lookup_at (lookup_store lookup symbol i
                                     (set_changed false followset))
                                  symbol0 i0 = Ok g'
                        /\ same_but_changed f g')
            /\ (is_complete followset = false ->
                (symbol, i) <> (symbol0, i0))).
  { assert (Hdec : (symbol, i) = (symbol0, i0) \/ (symbol, i) <> (symbol0, i0)).
    { destruct (String.eqb_spec symbol symbol0) as [->|Hs];
        [|right; congruence].
      destruct (Nat.eq_dec i i0) as [->|Hi]; [now left|right; congruence]. }
    destruct Hdec as [[= -> ->]|Hne].
    - rewrite Hat in Ef. injection Ef as <-. split; [|congruence].
      exists (set_changed false g). split.
      + eapply lookup_at_store_eq; eauto.
      + unfold same_but_changed in *. rewrite Hsame. reflexivity.
    - split; [|auto]. exists g. split; [|assumption].
      now rewrite lookup_at_store_ne. }
  destruct Hfirst as [Hfirst Hother].
  destruct (is_complete followset); [now intros [= <-]|].
  specialize (Hother eq_refl).
  destruct (dict_get String.eqb (follow followset) _) as [others|];
    [|discriminate].
  apply (foldM_inv
           (fun lk : Lookup =>
              exists g', lookup_at lk symbol0 i0 = Ok g'
                         /\ same_but_changed f g')); [|assumption].
  intros lk j lk' _ (g' & Hg' & Hs').
  destruct (lookup_at lk (follow followset) j); cbn [bind];
    try discriminate.
  destruct (lookup_at lk symbol i); cbn [bind]; try discriminate.
  intros [= <-]. exists g'. split; [|assumption].
  now rewrite lookup_at_store_ne.
Qed.

(** X20: [_kfollow_fixpoint_solution] leaves a complete follow set
    alone.  After the fixpoint the follow set stands where it stood,
    complete, with its owner, its [follow], its [k] and its sequences
    as they were: nothing is appended to it, and at most its flag
    [changed] was reset. *)
Theorem fixpoint_leaves_complete_follow_sets_alone
    (fs_append : FollowSet -> FollowSet -> FollowSet)
    (lookup lookup' : Lookup) (symbol : string) (i : nat) (f : FollowSet)
    (Hat : lookup_at lookup symbol i = Ok f)
    (Hcomplete : is_complete f = true)
    (Hrun : _kfollow_fixpoint_solution fs_append lookup = Ok lookup') :
  exists g,
    lookup_at lookup' symbol i = Ok g
    /\ is_complete g = true
    /\ owner g = owner f /\ follow g = follow f /\ fs_k g = fs_k f
    /\ partials g = partials f /\ completes g = completes f
    /\ additional g = additional f.
Proof.
  assert (Hkept : exists g, lookup_at lookup' symbol i = Ok g
                            /\ same_but_changed f g).
  { unfold _kfollow_fixpoint_solution in Hrun.
    destruct (guarded_while _ _ _ 500 (lookup, true))
      as [[[lk c] ys]| |] eqn:E; cbn [bind] in Hrun; try discriminate.
    injection Hrun as <-.
    apply (guarded_while_inv _ _ _
             (fun st : Lookup * bool =>
                exists g, lookup_at (fst st) symbol i = Ok g
                          /\ same_but_changed f g))
      in E; [exact E| |exists f; split; [exact Hat|reflexivity]].
    clear - Hcomplete. intros [lk c] st' ys Hk. unfold fixpoint_body.
    destruct (foldM _ (map fst lk) (lk, false)) as [st| |] eqn:E;
      cbn [bind]; try discriminate.
    intros [= <- <-]. revert E.
    apply (foldM_inv
             (fun st : Lookup * bool =>
                exists g, lookup_at (fst st) symbol i = Ok g
                          /\ same_but_changed f g));
      [|exact Hk].
    clear - Hcomplete. intros [lk0 c0] symbol' [lk2 c2] _ Hk.
    cbn [fst] in Hk.
    destruct (dict_get String.eqb symbol' lk0) as [followsets|];
      [|discriminate].
    destruct (foldM _ (seq 0 (length followsets)) lk0) as [lk1| |] eqn:E;
      cbn [bind]; try discriminate.
    destruct (dict_get String.eqb symbol' lk1); [|discriminate].
    intros [= <- _]. cbn [fst]. revert E.
    apply (foldM_inv
             (fun b : Lookup =>
                exists g, lookup_at b symbol i = Ok g
                          /\ same_but_changed f g)); [|exact Hk].
    intros b j b' _ Hb.
    now apply fixpoint_followset_keeps_complete. }
  destruct Hkept as (g & Hg & Hsame). exists g. split; [exact Hg|].
  unfold same_but_changed in Hsame.
  pose proof (f_equal is_complete Hsame) as H1.
  pose proof (f_equal owner Hsame) as H2.
  pose proof (f_equal follow Hsame) as H3.
  pose proof (f_equal fs_k Hsame) as H4.
  pose proof (f_equal partials Hsame) as H5.
  pose proof (f_equal completes Hsame) as H6.
  pose proof (f_equal additional Hsame) as H7.
  cbn in H1, H2, H3, H4, H5, H6, H7.
  repeat split; congruence.
Qed.

Lemma fixpoint_leaves_complete_follow_sets_alone_witness :
  exists g,
    lookup_at
      [("S", [initial_start "S"]); ("A", []);
       ("B", [{| owner := "S"; follow := "S"; fs_k := 1;
                 partials := [[]]; completes := [["$"]]; additional := [];
                 is_complete := false; changed := false |}])]
      "S" 0 = Ok g
    /\ is_complete g = true
    /\ owner g = owner (initial_start "S")
    /\ follow g = follow (initial_start "S")
    /\ fs_k g = fs_k (initial_start "S")
    /\ partials g = partials (initial_start "S")
    /\ completes g = completes (initial_start "S")
    /\ additional g = additional (initial_start "S").
Proof.
  apply (fixpoint_leaves_complete_follow_sets_alone spec_append
           [("S", [initial_start "S"]); ("A", []);
            ("B", [FollowSet_partial [[]] "S" 1])]).
  - reflexivity.
  - reflexivity.
  - vm_compute. reflexivity.
Defined.

(** ** [kfollow] and the start symbol *)

Lemma dict_get_none_of_key {V} (k : string) (d : dict string V) :
  ~ In k (map fst d) -> dict_get String.eqb k d = None.
Proof.
  intros H. destruct (dict_get String.eqb k d) as [v|] eqn:E; [|reflexivity].
  exfalso. apply H. apply dict_get_In in E; [|exact String.eqb_eq].
  apply in_map_iff. now exists (k, v).
Qed.

Lemma initial_rows_get {A} (keys : list string) (k : string) :
  In k keys ->
  dict_get String.eqb k (map (fun x => (x, @nil A)) keys) = Some [].
Proof.
  induction keys as [|x keys IH]; intros Hin; [destruct Hin|].
  cbn [map dict_get]. destruct (String.eqb_spec x k) as [->|Hne];
    [reflexivity|].
  apply IH. destruct Hin; [contradiction|assumption].
Qed.

Lemma flatten_symbol_initial (start : string) :
  flatten_symbol [initial_start start] = Ok [LStr "$"].
Proof.
  unfold flatten_symbol, initial_start, FollowSet_complete.
  cbn. rewrite String.eqb_refl. reflexivity.
Qed.

Lemma flatten_empty_rows (keys : list string) :
  forall ret,
    foldM (fun ret (entry : string * list FollowSet) =>
             entries <- flatten_symbol (snd entry) ;;
             Ok (if is_nil entries then ret
                 else ret ++ [(fst entry, entries)]))
          (map (fun x => (x, [])) keys) ret
    = Ok ret.
Proof.
  induction keys as [|x keys IH]; intros ret; [reflexivity|].
  cbn [map foldM snd]. change (flatten_symbol []) with (Ok (@nil lookahead)).
  cbn [bind is_nil]. apply IH.
Qed.

Lemma flatten_start_row (start : string) (keys : list string) :
  In start keys ->
  forall ret,
    foldM (fun ret (entry : string * list FollowSet) =>
             entries <- flatten_symbol (snd entry) ;;
             Ok (if is_nil entries then ret
                 else ret ++ [(fst entry, entries)]))
          (dict_set String.eqb start [initial_start start]
             (map (fun x => (x, [])) keys))
          ret
    = Ok (ret ++ [(start, [LStr "$"])]).
Proof.
  induction keys as [|x keys IH]; intros Hin ret; [destruct Hin|].
  cbn [map dict_set]. destruct (String.eqb_spec x start) as [->|Hne].
  - cbn [foldM snd fst]. rewrite flatten_symbol_initial.
    cbn [bind is_nil]. apply flatten_empty_rows.
  - cbn [foldM snd]. change (flatten_symbol []) with (Ok (@nil lookahead)).
    cbn [bind is_nil]. apply IH.
    destruct Hin; [contradiction|assumption].
Qed.

(** X21: [kfollow] needs the start symbol among the left-hand sides
    of the table.  When it is none of them, the very first step, which
    puts the end marker into the list of the start symbol, raises
    [KeyError], whatever [k] is.  When it is one, [kfollow(0)] runs no
    round at all and returns the mapping with the one row of the start
    symbol, which holds the end marker. *)
Theorem kfollow_needs_the_start_symbol_among_the_nonterminals
    (grammar : list Production) (start : string)
    (get_exact : string -> nat -> list SubProduction)
    (fs_append : FollowSet -> FollowSet -> FollowSet) (fuel : nat) :
  (~ In start (nonterminals grammar) ->
   forall k,
     kfollow grammar start get_exact fs_append fuel k
     = Raise (KeyError start))
  /\ (In start (nonterminals grammar) ->
      kfollow grammar start get_exact fs_append fuel 0
      = Ok [(start, [LStr "$"])]).
Proof.
  unfold kfollow, lookup_append. split.
  - intros Hstart k. rewrite dict_get_none_of_key; [reflexivity|].
    rewrite map_map. cbn [fst]. rewrite map_id.
    now rewrite lhs_keys_In.
  - intros Hstart. apply lhs_keys_In in Hstart.
    rewrite (initial_rows_get (lhs_keys grammar) start Hstart).
    cbn [bind seq foldM app]. unfold flatten_lookup.
    now rewrite (flatten_start_row start (lhs_keys grammar) Hstart []).
Qed.

(** ** The rows of [kfollow] *)

Lemma flatten_rows_NoDup (F : Lookup) :
  forall ret0 ret,
    foldM (fun ret (entry : string * list FollowSet) =>
             entries <- flatten_symbol (snd entry) ;;
             Ok (if is_nil entries then ret
                 else ret ++ [(fst entry, entries)]))
          F ret0 = Ok ret ->
    NoDup (map fst ret0 ++ map fst F) -> NoDup (map fst ret).
Proof.
  induction F as [|[symbol followsets] F IH]; intros ret0 ret;
    cbn [foldM map fst snd].
  - intros [= <-]. now rewrite app_nil_r.
  - destruct (flatten_symbol followsets) as [entries| |]; cbn [bind];
      try discriminate.
    intros Hrun Hnd. apply (IH _ _ Hrun).
    destruct (is_nil entries).
    + now apply NoDup_remove_1 in Hnd.
    + rewrite map_app. cbn [map fst]. now rewrite <- app_assoc.
Qed.

Lemma kfollow_lookup_keys (grammar : list Production) (start : string)
    (get_exact : string -> nat -> list SubProduction)
    (fs_append : FollowSet -> FollowSet -> FollowSet) (fuel k : nat)
    (F1 F2 : Lookup) :
  lookup_append (map (fun x => (x, [])) (lhs_keys grammar)) start
    (initial_start start) = Ok F1 ->
  foldM (kfollow_round grammar get_exact fs_append fuel) (seq 1 k) F1
  = Ok F2 ->
  map fst F2 = lhs_keys grammar.
Proof.
  intros E1 E2.
  assert (Hkeys : map fst F1 = lhs_keys grammar).
  { apply lookup_append_keys in E1. rewrite E1, map_map. cbn [fst].
    apply map_id. }
  revert E2.
  apply (foldM_inv (fun F : Lookup => map fst F = lhs_keys grammar));
    [|exact Hkeys].
  intros b x b' _ Hb. unfold kfollow_round.
  destruct (collect_followsets grammar get_exact fuel x b)
    as [b1| |] eqn:Ec; cbn [bind]; try discriminate.
  intros Hfix. apply fixpoint_solution_keys in Hfix.
  apply collect_followsets_keys in Ec. congruence.
Qed.

(** X22: the mapping that [kfollow] returns has a row only for a
    nonterminal of the grammar for which at least one entry was found:
    no row is empty, no key stands twice, and a nonterminal without any
    entry has no key at all, unlike in the mapping of [kfirst]. *)
Theorem kfollow_has_rows_only_for_followed_nonterminals
    (grammar : list Production) (start : string)
    (get_exact : string -> nat -> list SubProduction)
    (fs_append : FollowSet -> FollowSet -> FollowSet) (fuel k : nat)
    (mapping : dict string (list lookahead))
    (Hrun : kfollow grammar start get_exact fs_append fuel k = Ok mapping) :
  Forall (fun kv : string * list lookahead =>
            In (fst kv) (nonterminals grammar) /\ snd kv <> []) mapping
  /\ NoDup (map fst mapping).
Proof.
  unfold kfollow in Hrun.
  destruct (lookup_append _ start (initial_start start)) as [F1| |] eqn:E1;
    cbn [bind] in Hrun; try discriminate.
  destruct (foldM (kfollow_round grammar get_exact fs_append fuel)
              (seq 1 k) F1) as [F2| |] eqn:E2;
    cbn [bind] in Hrun; try discriminate.
  pose proof (kfollow_lookup_keys grammar start get_exact fs_append fuel k
                F1 F2 E1 E2) as Hkeys.
  unfold flatten_lookup in Hrun. split.
  - revert Hrun.
    apply (foldM_inv
             (fun ret : dict string (list lookahead) =>
                Forall (fun kv : string * list lookahead =>
                          In (fst kv) (nonterminals grammar)
                          /\ snd kv <> []) ret)); [|constructor].
    intros ret entry ret' Hin Hret.
    destruct (flatten_symbol (snd entry)) as [entries| |]; cbn [bind];
      try discriminate.
    intros [= <-]. destruct entries as [|e entries]; [exact Hret|].
    cbn [is_nil]. apply Forall_app. split; [exact Hret|].
    constructor; [|constructor]. cbn [fst snd]. split; [|discriminate].
    apply lhs_keys_In. rewrite <- Hkeys. apply in_map_iff. now exists entry.
  - apply (flatten_rows_NoDup F2 [] mapping Hrun). cbn [map app].
    rewrite Hkeys. apply lhs_keys_NoDup.
Qed.

Lemma kfollow_has_rows_only_for_followed_nonterminals_witness :
  Forall (fun kv : string * list lookahead =>
            In (fst kv) (nonterminals sequence_grammar) /\ snd kv <> [])
         [("S", [LStr "$"]);
          ("A", [LStr (quoted "b"); LTup [quoted "b"; "$"]]);
          ("B", [LStr "$"])]
  /\ NoDup (map fst
              [("S", [LStr "$"]);
               ("A", [LStr (quoted "b"); LTup [quoted "b"; "$"]]);
               ("B", [LStr "$"])]).
Proof.
  apply (kfollow_has_rows_only_for_followed_nonterminals sequence_grammar "S"
           (spec_get_exact sequence_grammar) spec_append 30 2).
  vm_compute. reflexivity.
Defined.

(** ** [kfirst] for growing [k] *)

Lemma kfirst_symbol_keeps (grammar : list Production) (fuel i : nat)
    (F F' : dict string (list lookahead)) (symbol : string)
    (N : string) (e : lookahead) :
  (exists entries, dict_get String.eqb N F = Some entries /\ In e entries) ->
  kfirst_symbol grammar fuel i F symbol = Ok F' ->
  exists entries, dict_get String.eqb N F' = Some entries /\ In e entries.
Proof.
  intros HF. unfold kfirst_symbol.
  destruct (_kfirst grammar fuel [] (Sym symbol) i true) as [yielded| |];
    cbn [bind]; try discriminate.
  apply (foldM_inv
           (fun F0 : dict string (list lookahead) =>
              exists entries,
                dict_get String.eqb N F0 = Some entries /\ In e entries));
    [|exact HF].
  intros F0 sub F1 _ (entries & Hget & Hin).
  destruct (dict_get String.eqb symbol F0) as [old|] eqn:E; [|discriminate].
  intros [= <-]. destruct (String.eqb_spec symbol N) as [->|Hne].
  - rewrite (dict_get_set_eq String.eqb String.eqb_eq). eexists.
    split; [reflexivity|]. apply set_add_mono. congruence.
  - rewrite (dict_get_set_ne String.eqb String.eqb_eq) by assumption. eauto.
Qed.

(** X23: [kfirst(k + 1)] extends [kfirst(k)].  It first does all that
    [kfirst(k)] does and then adds the lookaheads found for [k + 1], so
    that it returns only if [kfirst(k)] does, and every entry of a row
    of [kfirst(k)] is an entry of the same row of [kfirst(k + 1)]: the
    mapping for [k] keeps the shorter lookaheads. *)
Theorem kfirst_keeps_the_shorter_lookaheads
    (grammar : list Production) (fuel k : nat)
    (F' : dict string (list lookahead))
    (Hrun : kfirst grammar fuel (S k) = Ok F') :
  exists F,
    kfirst grammar fuel k = Ok F
    /\ forall N entries e,
        dict_get String.eqb N F = Some entries -> In e entries ->
        exists entries',
          dict_get String.eqb N F' = Some entries' /\ In e entries'.
Proof.
  unfold kfirst in *. rewrite seq_S, foldM_app in Hrun.
  destruct (foldM _ (seq 1 k) _) as [F| |]; cbn [bind] in Hrun;
    try discriminate.
  exists F. split; [reflexivity|]. intros N entries e Hget Hin.
  cbn [foldM] in Hrun.
  destruct (foldM (kfirst_symbol grammar fuel (1 + k)) (lhs_keys grammar) F)
    as [F1| |] eqn:E; cbn [bind] in Hrun; try discriminate.
  injection Hrun as <-. revert E.
  apply (foldM_inv
           (fun F0 : dict string (list lookahead) =>
              exists entries',
                dict_get String.eqb N F0 = Some entries' /\ In e entries'));
    [|eauto].
  intros F0 symbol F2 _ HF0 Hs.
  exact (kfirst_symbol_keeps grammar fuel (1 + k) F0 F2 symbol N e HF0 Hs).
Qed.

Lemma kfirst_keeps_the_shorter_lookaheads_witness :
  exists F,
    kfirst sequence_grammar 30 1 = Ok F
    /\ forall N entries e,
        dict_get String.eqb N F = Some entries -> In e entries ->
        exists entries',
          dict_get String.eqb N
            [("S", [LStr (quoted "a"); LTup [quoted "a"; quoted "b"]]);
             ("A", [LStr (quoted "a")]);
             ("B", [LStr (quoted "b")])]
          = Some entries'
          /\ In e entries'.
Proof.
  apply (kfirst_keeps_the_shorter_lookaheads sequence_grammar 30 1).
  vm_compute. reflexivity.
Defined.

(** ** The token buffer of the emitted parser *)

Lemma fill_loop_closed {Token : Type} (k : nat)
    (token_buff : list (BuffToken Token)) :
  forall (tokens : list Token) (new_buff : list (BuffToken Token)),
    fill_loop k token_buff tokens new_buff
    = if Nat.leb (k - length new_buff) (length tokens)
      then (new_buff ++ map Some (firstn (k - length new_buff) tokens),
            skipn (k - length new_buff) tokens)
      else (new_buff ++ map Some tokens
              ++ (if has_none token_buff then [] else [None]),
            []).
Proof.
  induction tokens as [|token tokens IH]; intros new_buff;
    cbn [fill_loop].
  - destruct (Nat.ltb_spec (length new_buff) k) as [Hlt|Hge].
    + replace (Nat.leb (k - length new_buff) (length (@nil Token)))
        with false by (symmetry; apply Nat.leb_gt; cbn [length]; lia).
      cbn [map app]. destruct (has_none token_buff); cbn [negb];
        [now rewrite app_nil_r|reflexivity].
    + replace (k - length new_buff) with 0 by lia.
      cbn [Nat.leb firstn skipn map]. now rewrite app_nil_r.
  - destruct (Nat.ltb_spec (length new_buff) k) as [Hlt|Hge].
    + rewrite IH, length_app. cbn [length].
      replace (k - length new_buff) with (S (k - (length new_buff + 1)))
        by lia.
      cbn [Nat.leb firstn skipn map].
      destruct (Nat.leb (k - (length new_buff + 1)) (length tokens));
        now rewrite <- app_assoc.
    + replace (k - length new_buff) with 0 by lia.
      cbn [Nat.leb firstn skipn map]. now rewrite app_nil_r.
Qed.

(** X24: [_fill_buff] of the emitted parser tops the buffer up to [k]
    entries with the next tokens of the stream and leaves a buffer that
    is long enough as it is.  When the stream ends before that, it takes
    all the tokens that are left and appends the sentinel [None] once,
    unless the buffer it was given holds it already.  So the buffer it
    was given is kept at the head of the result, which is never longer
    than the larger of [k] and that buffer; after [_behead], a full
    buffer is full again as long as the stream has a token. *)
Theorem fill_buff_tops_the_buffer_up
    (Token : Type) (k : nat) (tokens : list Token)
    (token_buff : list (BuffToken Token)) :
  _fill_buff k tokens token_buff
  = (if Nat.leb (k - length token_buff) (length tokens)
     then (token_buff ++ map Some (firstn (k - length token_buff) tokens),
           skipn (k - length token_buff) tokens)
     else (token_buff ++ map Some tokens
             ++ (if has_none token_buff then [] else [None]),
           []))
  /\ length (fst (_fill_buff k tokens token_buff))
     <= Nat.max k (length token_buff)
  /\ (k <= length token_buff ->
      _fill_buff k tokens token_buff = (token_buff, tokens))
  /\ (forall head rest token tokens',
         token_buff = head :: rest -> length token_buff = k ->
         tokens = token :: tokens' ->
         _fill_buff k tokens (snd (_behead token_buff))
         = (rest ++ [Some token], tokens')).
Proof.
  unfold _fill_buff. rewrite !fill_loop_closed. split; [reflexivity|].
  split; [|split].
  - destruct (Nat.leb_spec (k - length token_buff) (length tokens))
      as [Hle|Hgt]; cbn [fst].
    + rewrite length_app, length_map, length_firstn. lia.
    + rewrite !length_app, length_map.
      destruct (has_none token_buff); cbn [length]; lia.
  - intros Hfull. replace (k - length token_buff) with 0 by lia.
    cbn [Nat.leb firstn skipn map]. now rewrite app_nil_r.
  - intros head rest token tokens' -> Hlen ->. cbn [_behead snd].
    cbn [length] in *.
    replace (k - length rest) with 1 by lia. reflexivity.
Qed.

(** ** FIRST of a grammar whose right-hand sides begin with terminals *)

Lemma grammar_get_In (grammar : list Production) (N : string)
    (rhs : list string) :
  In rhs (grammar_get grammar N) <-> In (N, rhs) grammar.
Proof.
  unfold grammar_get. rewrite in_map_iff. split.
  - intros ([lhs r] & Hr & Hin). apply filter_In in Hin as [Hin He].
    cbn [fst snd] in *. apply String.eqb_eq in He. now subst.
  - intros H. exists (N, rhs). split; [reflexivity|].
    apply filter_In. split; [assumption|apply String.eqb_refl].
Qed.

Lemma kfirst_of_terminal_head (grammar : list Production) (fuel : nat)
    (active : list first_key) (c : string) (rest : list string) :
  is_term c = true ->
  existsb (first_key_eqb (Sub (c :: rest), 1, true)) active = false ->
  _kfirst grammar (S fuel) active (Sub (c :: rest)) 1 true = Ok [[[c]]].
Proof.
  intros Hc Hactive. cbn [_kfirst]. rewrite Hactive.
  cbn [initial_terminals take_terminals]. rewrite Hc. cbn [orb].
  cbn [length hd Nat.eqb andb negb is_nil orb].
  now rewrite andb_false_r.
Qed.

Lemma kfirst_of_symbol (grammar : list Production) (fuel : nat)
    (active : list first_key) (s : string) (k : nat) (allow_underflow : bool) :
  _kfirst grammar (S fuel) active (Sym s) k allow_underflow
  = if existsb (first_key_eqb (Sym s, k, allow_underflow)) active then Ok []
    else
      yielded <- mapM (fun subproduction =>
                         _kfirst grammar fuel
                           ((Sym s, k, allow_underflow) :: active)
                           (Sub subproduction) k allow_underflow)
                      (grammar_get grammar s) ;;
      Ok (concat yielded).
Proof. reflexivity. Qed.

Lemma kfirst_of_terminal_led_symbol (grammar : list Production) (fuel : nat)
    (N : string) :
  terminal_led grammar = true ->
  _kfirst grammar (S (S fuel)) [] (Sym N) 1 true
  = Ok (concat (map (fun rhs => [[[hd EmptyString rhs]]])
                    (grammar_get grammar N))).
Proof.
  intros Hled. rewrite kfirst_of_symbol. cbn [existsb].
  rewrite (mapM_all_ok _ (fun rhs => [[[hd EmptyString rhs]]]));
    [reflexivity|].
  intros rhs Hin. apply grammar_get_In in Hin.
  destruct (terminal_led_In grammar N rhs Hled Hin) as (c & rest & -> & Hc).
  cbn [hd]. now apply kfirst_of_terminal_head.
Qed.

Lemma fs_or_complete (a b : FirstSet) (m : SubProduction) :
  In m a \/ In m b -> In m (fs_or a b).
Proof.
  unfold fs_or. intros [H|H].
  - now apply (fold_set_add_mono sub_eqb (fun x => x)).
  - now apply (fold_set_add_self sub_eqb (fun x => x) sub_eqb_spec).
Qed.

Lemma fold_fs_or_complete (yielded : list FirstSet) :
  forall acc m,
    In m acc \/ (exists fs, In fs yielded /\ In m fs) ->
    In m (fold_left fs_or yielded acc).
Proof.
  induction yielded as [|fs yielded IH]; intros acc m; cbn [fold_left].
  - intros [H|(fs & [] & _)]. exact H.
  - intros [H|(fs' & [<-|Hin] & Hm)]; apply IH.
    + left. apply fs_or_complete. now left.
    + left. apply fs_or_complete. now right.
    + right. eauto.
Qed.

Lemma first_set_of_terminal_led_symbol (grammar : list Production)
    (N : string) (m : SubProduction) :
  In m (fold_left fs_or
          (concat (map (fun rhs => [[[hd EmptyString rhs]]])
                       (grammar_get grammar N))) [])
  <-> exists rhs, In (N, rhs) grammar /\ m = [hd EmptyString rhs].
Proof.
  split.
  - intros H. apply fold_fs_or_In in H as [[]|(fs & Hfs & Hm)].
    apply in_concat in Hfs as (l & Hl & Hfs).
    apply in_map_iff in Hl as (rhs & <- & Hrhs).
    destruct Hfs as [<-|[]]. destruct Hm as [<-|[]].
    exists rhs. split; [now apply grammar_get_In|reflexivity].
  - intros (rhs & Hin & ->). apply fold_fs_or_complete. right.
    exists [[hd EmptyString rhs]]. split; [|now left].
    apply in_concat. exists [[[hd EmptyString rhs]]]. split; [|now left].
    apply in_map_iff. exists rhs. split; [reflexivity|].
    now apply grammar_get_In.
Qed.

Lemma set_add_In_iff (x y : lookahead) (s : list lookahead) :
  In y (set_add lookahead_eqb x s) <-> In y s \/ y = x.
Proof.
  split; [apply set_add_In|]. intros [H| ->].
  - now apply set_add_mono.
  - apply (set_add_self lookahead_eqb lookahead_eqb_spec).
Qed.

Lemma add_entries_spec (symbol : string) (entry : SubProduction -> lookahead) :
  forall (subs : list SubProduction) (F : dict string (list lookahead))
         (old : list lookahead),
    dict_get String.eqb symbol F = Some old ->
    exists F' new,
      foldM (fun F sub =>
               match dict_get String.eqb symbol F with
               | None => Raise (KeyError symbol)
               | Some entries =>
                   Ok (dict_set String.eqb symbol
                         (set_add lookahead_eqb (entry sub) entries) F)
               end)
            subs F = Ok F'
      /\ dict_get String.eqb symbol F' = Some new
      /\ (forall e, In e new
                    <-> In e old \/ exists sub, In sub subs /\ e = entry sub)
      /\ (forall M, M <> symbol ->
                    dict_get String.eqb M F' = dict_get String.eqb M F)
      /\ map fst F' = map fst F.
Proof.
  induction subs as [|sub subs IH]; intros F old Hget; cbn [foldM].
  - exists F, old. repeat split; try assumption; [tauto|].
    intros [H|(sub & [] & _)]. exact H.
  - rewrite Hget. cbn [bind].
    destruct (IH (dict_set String.eqb symbol
                    (set_add lookahead_eqb (entry sub) old) F)
                 (set_add lookahead_eqb (entry sub) old))
      as (F' & new & Hrun & Hnew & Hin & Hother & Hkeys).
    { apply (dict_get_set_eq String.eqb String.eqb_eq). }
    exists F', new. split; [exact Hrun|]. split; [exact Hnew|].
    split; [|split].
    + intros e. rewrite Hin, set_add_In_iff. split.
      * intros [[H| ->]|(s & Hs & ->)]; [now left| |].
        -- right. exists sub. split; [now left|reflexivity].
        -- right. exists s. split; [now right|reflexivity].
      * intros [H|(s & [<-|Hs] & ->)]; [left; now left|left; now right|].
        right. exists s. split; [assumption|reflexivity].
    + intros M HM. rewrite (Hother M HM).
      apply (dict_get_set_ne String.eqb String.eqb_eq). congruence.
    + rewrite Hkeys. apply dict_set_keys. unfold dict_mem. now rewrite Hget.
Qed.

Lemma kfirst_symbol_of_terminal_led (grammar : list Production) (fuel : nat)
    (F : dict string (list lookahead)) (N : string) (old : list lookahead) :
  terminal_led grammar = true ->
  dict_get String.eqb N F = Some old ->
  exists F' new,
    kfirst_symbol grammar (S (S fuel)) 1 F N = Ok F'
    /\ dict_get String.eqb N F' = Some new
    /\ (forall e, In e new
                  <-> In e old
                      \/ exists c rest, In (N, c :: rest) grammar
                                        /\ e = LStr c)
    /\ (forall M, M <> N ->
                  dict_get String.eqb M F' = dict_get String.eqb M F)
    /\ map fst F' = map fst F.
Proof.
  intros Hled Hget. unfold kfirst_symbol.
  rewrite (kfirst_of_terminal_led_symbol grammar fuel N Hled). cbn [bind].
  destruct (add_entries_spec N
              (fun sub => first_entry (normalized sub))
              (fold_left fs_or
                 (concat (map (fun rhs => [[[hd EmptyString rhs]]])
                              (grammar_get grammar N))) [])
              F old Hget)
    as (F' & new & Hrun & Hnew & Hin & Hother & Hkeys).
  exists F', new. split; [exact Hrun|]. split; [exact Hnew|].
  split; [|split; assumption].
  intros e. rewrite Hin. split.
  - intros [H|(sub & Hsub & ->)]; [now left|]. right.
    apply first_set_of_terminal_led_symbol in Hsub as (rhs & Hrhs & ->).
    destruct (terminal_led_In grammar N rhs Hled Hrhs)
      as (c & rest & -> & Hc).
    exists c, rest. split; [assumption|]. cbn [hd normalized filter].
    now rewrite (is_term_not_epsilon c Hc).
  - intros [H|(c & rest & Hrhs & ->)]; [now left|]. right.
    exists [c]. split.
    + apply first_set_of_terminal_led_symbol. exists (c :: rest).
      split; [assumption|reflexivity].
    + destruct (terminal_led_In grammar N (c :: rest) Hled Hrhs)
        as (c' & rest' & [= <- <-] & Hc).
      cbn [normalized filter]. now rewrite (is_term_not_epsilon c Hc).
Qed.

Lemma kfirst_symbols_of_terminal_led (grammar : list Production)
    (fuel : nat) :
  terminal_led grammar = true ->
  forall (todo done : list string) (F : dict string (list lookahead)),
    incl todo (lhs_keys grammar) ->
    map fst F = lhs_keys grammar ->
    (forall N entries,
        dict_get String.eqb N F = Some entries ->
        forall e, In e entries
                  <-> In N done
                      /\ exists c rest, In (N, c :: rest) grammar
                                        /\ e = LStr c) ->
    exists F',
      foldM (kfirst_symbol grammar (S (S fuel)) 1) todo F = Ok F'
      /\ map fst F' = lhs_keys grammar
      /\ forall N entries,
          dict_get String.eqb N F' = Some entries ->
          forall e, In e entries
                    <-> In N (done ++ todo)
                        /\ exists c rest, In (N, c :: rest) grammar
                                          /\ e = LStr c.
Proof.
  intros Hled. induction todo as [|s todo IH]; intros done F Hincl Hkeys HF.
  - exists F. split; [reflexivity|]. split; [assumption|].
    now rewrite app_nil_r.
  - assert (Hs : exists old, dict_get String.eqb s F = Some old).
    { apply dict_get_of_key. rewrite Hkeys. apply Hincl. now left. }
    destruct Hs as [old Hold].
    destruct (kfirst_symbol_of_terminal_led grammar fuel F s old Hled Hold)
      as (F1 & new & Hrun & Hnew & Hin & Hother & Hkeys1).
    destruct (IH (done ++ [s]) F1) as (F' & Hrest & Hkeys' & HF').
    + intros x Hx. apply Hincl. now right.
    + congruence.
    + intros N entries Hget e.
      destruct (String.eqb_spec N s) as [->|Hne].
      * rewrite Hnew in Hget. injection Hget as <-.
        rewrite Hin, (HF s old Hold e), in_app_iff. cbn [In]. tauto.
      * rewrite (Hother N Hne) in Hget.
        rewrite (HF N entries Hget e), in_app_iff. cbn [In].
        split; [tauto|]. intros [[H|[H|[]]] Hrest']; [tauto|congruence].
    + exists F'. cbn [foldM]. rewrite Hrun. cbn [bind].
      split; [exact Hrest|]. split; [exact Hkeys'|].
      intros N entries Hget e. rewrite (HF' N entries Hget e).
      now rewrite <- app_assoc.
Qed.

Lemma kfirst_of_terminal_led (grammar : list Production) (fuel : nat) :
  terminal_led grammar = true ->
  exists F,
    kfirst grammar (S (S fuel)) 1 = Ok F
    /\ map fst F = lhs_keys grammar
    /\ forall N entries,
        dict_get String.eqb N F = Some entries ->
        forall e, In e entries
                  <-> exists c rest, In (N, c :: rest) grammar /\ e = LStr c.
Proof.
  intros Hled. unfold kfirst. cbn [seq foldM].
  destruct (kfirst_symbols_of_terminal_led grammar fuel Hled
              (lhs_keys grammar) []
              (map (fun x => (x, [])) (lhs_keys grammar)))
    as (F & Hrun & Hkeys & HF).
  - apply incl_refl.
  - rewrite map_map. apply map_id.
  - intros N entries Hget e. apply initial_entries_empty in Hget. subst.
    cbn [In]. tauto.
  - exists F. rewrite Hrun. cbn [bind]. split; [reflexivity|].
    split; [exact Hkeys|]. intros N entries Hget e.
    rewrite (HF N entries Hget e). cbn [app]. split; [tauto|].
    intros H. split; [|exact H]. rewrite <- Hkeys.
    apply dict_get_In in Hget; [|exact String.eqb_eq].
    apply in_map_iff. now exists (N, entries).
Qed.

(** X25: in a grammar whose right-hand sides all begin with a
    terminal, [kfirst(1)] returns, and the row of a nonterminal holds
    the terminals with which its productions begin and nothing else:
    FIRST of a nonterminal is the set of the heads of its right-hand
    sides. *)
Theorem kfirst_of_terminal_led_grammars_is_the_set_of_heads
    (grammar : list Production) (fuel : nat)
    (Hled : terminal_led grammar = true) :
  exists F,
    kfirst grammar (S (S fuel)) 1 = Ok F
    /\ map fst F = lhs_keys grammar
    /\ forall N entries,
        dict_get String.eqb N F = Some entries ->
        forall e, In e entries
                  <-> exists c rest, In (N, c :: rest) grammar /\ e = LStr c.
Proof.
  destruct (kfirst_of_terminal_led grammar fuel Hled) as (F & H).
  exists F. exact H.
Qed.

Lemma kfirst_of_terminal_led_grammars_is_the_set_of_heads_witness :
  terminal_led simple_grammar = true
  /\ exists F,
      kfirst simple_grammar 2 1 = Ok F
      /\ map fst F = lhs_keys simple_grammar
      /\ forall N entries,
          dict_get String.eqb N F = Some entries ->
          forall e, In e entries
                    <-> exists c rest,
                        In (N, c :: rest) simple_grammar /\ e = LStr c.
Proof.
  split; [reflexivity|].
  apply (kfirst_of_terminal_led_grammars_is_the_set_of_heads
           simple_grammar 0).
  reflexivity.
Defined.

(** ** The LL(1) table of a simple grammar *)

Lemma singleton_of_member {A} (p : A) (l : list A) :
  length l = 1 -> In p l -> l = [p].
Proof.
  destruct l as [|a [|b l]]; cbn [length]; try discriminate.
  now intros _ [->|[]].
Qed.

Lemma single_headed_production (grammar : list Production) (fuel : nat)
    (N c : string) (rest : list string) :
  terminal_led grammar = true -> single_headed grammar = true ->
  In (N, c :: rest) grammar ->
  get_production_leading_to_terminal grammar (S (S fuel)) N (LStr c)
  = Ok [(N, c :: rest)].
Proof.
  intros Hled Hsingle Hin.
  rewrite terminal_led_get_production; [|assumption|].
  - f_equal. apply singleton_of_member.
    + unfold single_headed in Hsingle. rewrite forallb_forall in Hsingle.
      specialize (Hsingle _ Hin). cbn [fst snd hd] in Hsingle.
      now apply Nat.eqb_eq in Hsingle.
    + apply filter_In. split; [assumption|]. cbn [fst snd hd].
      now rewrite !String.eqb_refl.
  - apply existsb_exists. exists N. split; [|apply String.eqb_refl].
    apply in_map_iff. now exists (N, c :: rest).
Qed.

Lemma terminal_is_not_epsilon (c : string) :
  is_term c = true -> lookahead_eqb (LStr c) (LStr epsilon) = false.
Proof.
  intros Hc. apply is_term_not_epsilon in Hc. exact Hc.
Qed.

Lemma simple_cell_returns (grammar : list Production) (fuel : nat)
    (follow : dict string (list lookahead)) (table : Table)
    (N c : string) (rest : list string) :
  terminal_led grammar = true -> single_headed grammar = true ->
  In (N, c :: rest) grammar ->
  (forall m, In m (nonterminals grammar) ->
             dict_mem String.eqb m table = true) ->
  exists table',
    ktable_cell grammar (S (S fuel)) follow table N (LStr c) = Ok table'
    /\ (forall m, In m (nonterminals grammar) ->
                  dict_mem String.eqb m table' = true)
    /\ forall n t,
        table_cell table' n t
        = if String.eqb N n && lookahead_eqb (LStr c) t
          then Some (N, c :: rest) else table_cell table n t.
Proof.
  intros Hled Hsingle Hin Hrows.
  destruct (terminal_led_In grammar N (c :: rest) Hled Hin)
    as (c' & rest' & [= <- <-] & Hc).
  assert (HN : In N (nonterminals grammar))
    by (apply in_map_iff; now exists (N, c :: rest)).
  pose proof (Hrows N HN) as Hrow. unfold dict_mem in Hrow.
  destruct (dict_get String.eqb N table) as [row|] eqn:Er; [|discriminate].
  unfold ktable_cell.
  rewrite (single_headed_production grammar fuel N c rest Hled Hsingle Hin).
  cbn [bind]. rewrite (terminal_is_not_epsilon c Hc), Er.
  eexists. split; [reflexivity|]. split.
  - intros m Hm. apply dict_mem_set. now apply Hrows.
  - intros n t. now apply table_cell_write.
Qed.

(** X26: for a simple grammar, in which every right-hand side begins
    with a terminal and no two productions of a nonterminal begin with
    the same one, [kfirst(1)] and [generate_ktable] return, whatever
    FOLLOW holds, and the table is the one expected: the cell of a
    nonterminal and a terminal holds the production of the nonterminal
    that begins with the terminal, and there is no other cell. *)
Theorem simple_grammars_get_their_table
    (grammar : list Production) (fuel : nat)
    (follow : dict string (list lookahead))
    (Hled : terminal_led grammar = true)
    (Hsingle : single_headed grammar = true) :
  exists F table,
    kfirst grammar (S (S fuel)) 1 = Ok F
    /\ generate_ktable grammar (S (S fuel)) F follow 1 = Ok table
    /\ (forall N c rest,
           In (N, c :: rest) grammar ->
           table_cell table N (LStr c) = Some (N, c :: rest))
    /\ (forall N t p,
           table_cell table N t = Some p ->
           In p grammar /\ fst p = N
           /\ exists c rest, snd p = c :: rest /\ t = LStr c).
Proof.
  destruct (kfirst_of_terminal_led grammar fuel Hled)
    as (F & Hfirst & Hkeys & HF).
  exists F.
  assert (Hentry : forall N terms t,
             In (N, terms) F -> In t terms ->
             exists c rest, In (N, c :: rest) grammar /\ t = LStr c).
  { intros N terms t Hrow Ht. apply (HF N terms); [|exact Ht].
    apply dict_get_of_entry; [|exact Hrow].
    rewrite Hkeys. apply lhs_keys_NoDup. }
  set (good := fun tb : Table =>
                 (forall m, In m (nonterminals grammar) ->
                            dict_mem String.eqb m tb = true)
                 /\ forall N t p,
                     table_cell tb N t = Some p ->
                     In p grammar /\ fst p = N
                     /\ exists c rest, snd p = c :: rest /\ t = LStr c).
  assert (Hcell : forall tb N terms t,
             In (N, terms) F -> In t terms -> good tb ->
             exists tb',
               ktable_cell grammar (S (S fuel)) follow tb N t = Ok tb'
               /\ good tb').
  { intros tb N terms t Hrow Ht [Hrows Hsound].
    destruct (Hentry N terms t Hrow Ht) as (c & rest & Hin & ->).
    destruct (simple_cell_returns grammar fuel follow tb N c rest
                Hled Hsingle Hin Hrows) as (tb' & Hrun & Hrows' & Hwrite).
    exists tb'. split; [exact Hrun|]. split; [exact Hrows'|].
    intros n t p. rewrite Hwrite.
    destruct (String.eqb N n && lookahead_eqb (LStr c) t) eqn:E;
      [|apply Hsound].
    apply andb_true_iff in E as [En Et].
    apply String.eqb_eq in En. apply lookahead_eqb_spec in Et. subst.
    intros [= <-]. split; [assumption|]. split; [reflexivity|].
    exists c, rest. split; reflexivity. }
  assert (Hrun : exists table,
             generate_ktable grammar (S (S fuel)) F follow 1 = Ok table
             /\ good table).
  { unfold generate_ktable.
    destruct (foldM_outcome good (fun _ => False)
                (ktable_row grammar (S (S fuel)) follow) F)
      with (acc := empty_table grammar)
      as [(table & Htable & Hgood)|(e & _ & [])]; [| |eauto].
    - intros tb [N terms] Hrow Htb. left. unfold ktable_row. cbn [fst snd].
      destruct (foldM_outcome good (fun _ => False)
                  (fun table term =>
                     ktable_cell grammar (S (S fuel)) follow table N term)
                  terms)
        with (acc := tb) as [(tb' & Htb' & Hgood)|(e & _ & [])];
        [|exact Htb|eauto].
      intros b t Ht Hb. left. exact (Hcell b N terms t Hrow Ht Hb).
    - split.
      + intros m Hm. now apply empty_table_has_rows.
      + intros N t p. now rewrite empty_table_cell. }
  destruct Hrun as (table & Htable & Hrows & Hsound).
  exists table. split; [exact Hfirst|]. split; [exact Htable|].
  split; [|exact Hsound].
  intros N c rest Hin.
  assert (HN : In N (map fst F)).
  { rewrite Hkeys. apply lhs_keys_In. apply in_map_iff.
    now exists (N, c :: rest). }
  apply dict_get_of_key in HN as [terms Hterms].
  assert (Hterm : In (LStr c) terms).
  { apply (HF N terms Hterms). eauto. }
  assert (Hrow : In (N, terms) F).
  { apply dict_get_In in Hterms; [exact Hterms|exact String.eqb_eq]. }
  set (P := fun tb : Table =>
              table_cell tb N (LStr c) = Some (N, c :: rest)).
  assert (Hkeep : forall tb tb' n2 t2,
             P tb ->
             ktable_cell grammar (S (S fuel)) follow tb n2 t2 = Ok tb' ->
             P tb').
  { intros tb tb' n2 t2 HP Hc. unfold P in *.
    eapply ktable_cell_keeps; eauto.
    now apply single_headed_production. }
  unfold generate_ktable in Htable.
  refine (foldM_establish P (ktable_row grammar (S (S fuel)) follow) F
            (N, terms) Hrow _ _ (empty_table grammar) table Htable).
  - intros tb tb' Hr.
    refine (foldM_establish P
              (fun table term =>
                 ktable_cell grammar (S (S fuel)) follow table N term)
              terms (LStr c) Hterm _ _ tb tb' Hr).
    + intros b b' Hc. apply ktable_cell_spec in Hc as (p & Hget & Hc).
      rewrite (single_headed_production grammar fuel N c rest
                 Hled Hsingle Hin) in Hget.
      injection Hget as <-.
      destruct (terminal_led_In grammar N (c :: rest) Hled Hin)
        as (c' & rest' & [= <- <-] & Hterminal).
      rewrite (terminal_is_not_epsilon c Hterminal) in Hc.
      unfold P. rewrite Hc, String.eqb_refl.
      now rewrite (proj2 (lookahead_eqb_spec (LStr c) (LStr c)) eq_refl).
    + intros y b b' _. apply Hkeep.
  - intros [n2 terms2] tb tb' _ HP Hr. unfold ktable_row in Hr.
    cbn [fst snd] in Hr. revert Hr. apply (foldM_inv P); [|assumption].
    intros b y b' _. apply Hkeep.
Qed.

Lemma simple_grammars_get_their_table_witness :
  terminal_led simple_grammar = true
  /\ single_headed simple_grammar = true
  /\ exists F table,
      kfirst simple_grammar 2 1 = Ok F
      /\ generate_ktable simple_grammar 2 F [] 1 = Ok table
      /\ (forall N c rest,
             In (N, c :: rest) simple_grammar ->
             table_cell table N (LStr c) = Some (N, c :: rest))
      /\ (forall N t p,
             table_cell table N t = Some p ->
             In p simple_grammar /\ fst p = N
             /\ exists c rest, snd p = c :: rest /\ t = LStr c).
Proof.
  split; [reflexivity|]. split; [reflexivity|].
  apply (simple_grammars_get_their_table simple_grammar 0 []).
  - reflexivity.
  - reflexivity.
Defined.

(** ** What a match means *)

Lemma consume_leads (grammar : list Production) :
  forall cs remaining i,
    consume cs remaining = Some i ->
    leads grammar (skipn i cs) (skipn i remaining) ->
    leads grammar cs remaining.
Proof.
  induction cs as [|c cs IH]; intros remaining i.
  - intros [= <-]. now cbn [skipn].
  - destruct remaining as [|r remaining].
    + intros [= <-]. now cbn [skipn].
    + cbn [consume]. destruct (is_nonterm c) eqn:Hc.
      * intros [= <-]. now cbn [skipn].
      * destruct (String.eqb_spec c r) as [<-|Hne]; [|discriminate].
        destruct (consume cs remaining) as [j|] eqn:E; [|discriminate].
        intros [= <-]. cbn [skipn]. intros H.
        apply leads_literal; [assumption|]. now apply (IH remaining j).
Qed.

Lemma expansion_leads (grammar : list Production) (head : string)
    (rest remaining : list string) (productions : list (list string))
    (pushed : list item) :
  is_nonterm head = true ->
  dict_get String.eqb head (adjacency_matrix grammar) = Some productions ->
  mapM (expand rest remaining) productions = Ok pushed ->
  forall it, In it pushed -> leads grammar (fst it) (snd it) ->
             leads grammar (head :: rest) remaining.
Proof.
  intros Hhead Hget Hpushed it Hin Hleads.
  destruct (mapM_ok_In _ _ _ Hpushed it Hin) as (p & Hp & Hexpand).
  destruct (adjacency_matrix_sound grammar head productions Hget)
    as [_ Hsound].
  unfold expand in Hexpand. destruct p as [|p0 p]; [discriminate|].
  apply leads_expand with (production := p0 :: p);
    [assumption|now apply Hsound|discriminate|].
  cbn [hd]. destruct (is_epsilon p0); injection Hexpand as <-; exact Hleads.
Qed.

Lemma matches_body_leads (grammar : list Production)
    (cs remaining : list string) :
  match _matches_body grammar cs remaining with
  | Ok (Ret true) => leads grammar cs remaining
  | Ok (Next pushed) =>
      forall it, In it pushed -> leads grammar (fst it) (snd it) ->
                 leads grammar cs remaining
  | _ => True
  end.
Proof.
  unfold _matches_body.
  destruct (is_nil cs || is_nil remaining); [intros it []|].
  destruct (consume cs remaining) as [i|] eqn:E; [|intros it []].
  pose proof (consume_leads grammar cs remaining i E) as Hback.
  destruct (is_nonterm (hd EmptyString cs)) eqn:Hhd; cbn [negb].
  - destruct remaining as [|r rs]; [apply leads_end|].
    destruct cs as [|head rest]; [intros it []|].
    cbn [hd] in Hhd. rewrite Hhd. cbn [negb].
    destruct (dict_get String.eqb head (adjacency_matrix grammar))
      as [ps|] eqn:Hget; [|exact I].
    destruct (mapM (expand rest (r :: rs)) ps) as [pushed| |] eqn:Em;
      cbn [bind]; try exact I.
    exact (expansion_leads grammar head rest (r :: rs) ps pushed
             Hhd Hget Em).
  - destruct (skipn i remaining) as [|r rs] eqn:Er.
    { apply Hback. apply leads_end. }
    destruct (skipn i cs) as [|head rest] eqn:Ec; [intros it []|].
    destruct (is_nonterm head) eqn:Hhead; cbn [negb]; [|exact I].
    destruct (dict_get String.eqb head (adjacency_matrix grammar))
      as [ps|] eqn:Hget; [|exact I].
    destruct (mapM (expand rest (r :: rs)) ps) as [pushed| |] eqn:Em;
      cbn [bind]; try exact I.
    intros it Hin Hleads. apply Hback.
    exact (expansion_leads grammar head rest (r :: rs) ps pushed
             Hhead Hget Em it Hin Hleads).
Qed.

Lemma matches_loop_leads (grammar : list Production) :
  forall fuel queue,
    _matches_loop grammar fuel queue = Ok (Some true) ->
    exists it, In it queue /\ leads grammar (fst it) (snd it).
Proof.
  induction fuel as [|fuel IH]; intros queue; [discriminate|].
  cbn [_matches_loop]. destruct queue as [|[cs remaining] queue];
    [discriminate|].
  pose proof (matches_body_leads grammar cs remaining) as Hbody.
  destruct (_matches_body grammar cs remaining) as [[pushed|[|]]|e|];
    try discriminate.
  - intros H. apply IH in H as (it & Hin & Hleads).
    apply in_app_or in Hin as [Hin|Hin].
    + exists it. split; [now right|assumption].
    + exists (cs, remaining). split; [now left|]. cbn [fst snd]. eauto.
  - intros _. exists (cs, remaining). split; [now left|exact Hbody].
Qed.

Lemma matches_leads (grammar : list Production) (fuel : nat)
    (rhs terms : list string) :
  _matches grammar fuel rhs terms = Ok (Some true) -> leads grammar rhs terms.
Proof.
  unfold _matches. intros H.
  apply matches_loop_leads in H as (it & [<-|[]] & Hleads). exact Hleads.
Qed.

(** X27: a match is a derivation.  When [_matches] answers [True],
    the right-hand side leads to the lookahead: by replacing the
    nonterminal at the head by one of its right-hand sides in the
    table, again and again, it becomes a sequence that begins with the
    symbols of the lookahead. *)
Theorem a_match_is_a_derivation
    (grammar : list Production) (fuel : nat) (rhs terms : list string)
    (Hrun : _matches grammar fuel rhs terms = Ok (Some true)) :
  leads grammar rhs terms
  /\ rhs <> [] /\ terms <> [].
Proof.
  split; [exact (matches_leads grammar fuel rhs terms Hrun)|].
  unfold _matches in Hrun. destruct fuel as [|fuel]; [discriminate|].
  cbn [_matches_loop] in Hrun. unfold _matches_body in Hrun.
  destruct rhs as [|c rhs], terms as [|t terms]; cbn [is_nil orb] in Hrun;
    try (destruct fuel; discriminate).
  split; discriminate.
Qed.

Lemma a_match_is_a_derivation_witness :
  leads simple_grammar ["S"; quoted "c"] [quoted "a"; quoted "b"; quoted "c"]
  /\ ["S"; quoted "c"] <> []
  /\ [quoted "a"; quoted "b"; quoted "c"] <> [].
Proof.
  apply (a_match_is_a_derivation simple_grammar 10).
  vm_compute. reflexivity.
Defined.

(** ** Where the cells of the table come from *)

Lemma get_production_matches (grammar : list Production) (fuel : nat)
    (nonterm : string) (term : lookahead) (ps : list Production) :
  get_production_leading_to_terminal grammar fuel nonterm term = Ok ps ->
  forall p, In p ps ->
            _matches grammar fuel (snd p) (as_tuple term) = Ok (Some true).
Proof.
  unfold get_production_leading_to_terminal.
  destruct (dict_get String.eqb nonterm (adjacency_matrix grammar))
    as [rhss|]; [|discriminate].
  apply (foldM_inv
           (fun acc : list Production =>
              forall p, In p acc ->
                        _matches grammar fuel (snd p) (as_tuple term)
                        = Ok (Some true))); [|intros p []].
  intros acc rhs acc' _ Hacc.
  destruct (_matches grammar fuel rhs (as_tuple term)) as [m| |] eqn:Em;
    cbn [bind]; try discriminate.
  intros [= <-]. destruct m as [[|]|]; cbn [truthy]; try exact Hacc.
  intros p Hp. apply in_app_or in Hp as [Hp|[<-|[]]]; [now apply Hacc|].
  exact Em.
Qed.

Lemma ktable_cell_origin (grammar : list Production) (fuel : nat)
    (follow : dict string (list lookahead)) (table table' : Table)
    (nonterm : string) (term : lookahead) :
  ktable_cell grammar fuel follow table nonterm term = Ok table' ->
  forall n t q,
    table_cell table' n t = Some q ->
    table_cell table n t = Some q
    \/ (n = nonterm
        /\ get_production_leading_to_terminal grammar fuel nonterm term
           = Ok [q]
        /\ ((t = term /\ term <> LStr epsilon)
            \/ (term = LStr epsilon
                /\ exists terms2,
                    dict_get String.eqb nonterm follow = Some terms2
                    /\ In t terms2))).
Proof.
  unfold ktable_cell.
  destruct (get_production_leading_to_terminal grammar fuel nonterm term)
    as [ps| |]; cbn [bind]; try discriminate.
  destruct ps as [|p [|p' ps]]; try discriminate.
  destruct (lookahead_eqb term (LStr epsilon)) eqn:Eeps.
  - apply lookahead_eqb_spec in Eeps. subst term.
    destruct (dict_get String.eqb nonterm follow) as [terms2|];
      [|discriminate].
    apply (foldM_inv
             (fun tb : Table =>
                forall n t q,
                  table_cell tb n t = Some q ->
                  table_cell table n t = Some q
                  \/ (n = nonterm
                      /\ Ok [p] = Ok [q]
                      /\ ((t = LStr epsilon /\ LStr epsilon <> LStr epsilon)
                          \/ (LStr epsilon = LStr epsilon
                              /\ exists terms0,
                                  Some terms2 = Some terms0
                                  /\ In t terms0))))); [|auto].
    intros tb term2 tb' Hterm2 Htb.
    destruct (dict_get String.eqb nonterm tb) as [row|] eqn:Hrow;
      [|discriminate].
    destruct (dict_mem lookahead_eqb term2 row); intros [= <-];
      [exact Htb|].
    intros n t q. rewrite (table_cell_write _ _ _ _ _ _ _ Hrow).
    destruct (String.eqb nonterm n && lookahead_eqb term2 t) eqn:E;
      [|apply Htb].
    apply andb_true_iff in E as [En Et].
    apply String.eqb_eq in En. apply lookahead_eqb_spec in Et. subst.
    intros [= <-]. right. split; [reflexivity|]. split; [reflexivity|].
    right. split; [reflexivity|]. eauto.
  - destruct (dict_get String.eqb nonterm table) as [row|] eqn:Hrow;
      [|discriminate].
    intros [= <-] n t q. rewrite (table_cell_write _ _ _ _ _ _ _ Hrow).
    destruct (String.eqb nonterm n && lookahead_eqb term t) eqn:E;
      [|now left].
    apply andb_true_iff in E as [En Et].
    apply String.eqb_eq in En. apply lookahead_eqb_spec in Et. subst.
    intros [= <-]. right. split; [reflexivity|]. split; [reflexivity|].
    left. split; [reflexivity|]. intros ->.
    rewrite (proj2 (lookahead_eqb_spec _ _) eq_refl) in Eeps. discriminate.
Qed.

(** X28: every cell of the table that [generate_ktable] returns comes
    from a lookahead of FIRST and holds a production that leads to it.
    The production in the cell of a nonterminal is one of its
    productions in the table; either the lookahead of the cell is a
    lookahead of FIRST of the nonterminal, other than epsilon, and the
    right-hand side leads to it, or epsilon is in FIRST of the
    nonterminal, the right-hand side leads to epsilon, and the
    lookahead of the cell is one of FOLLOW of the nonterminal. *)
Theorem every_cell_holds_a_production_that_leads_to_its_lookahead
    (grammar : list Production) (fuel : nat)
    (first follow : dict string (list lookahead)) (k : nat) (table : Table)
    (N : string) (t : lookahead) (p : Production)
    (Hrun : generate_ktable grammar fuel first follow k = Ok table)
    (Hcell : table_cell table N t = Some p) :
  In p grammar /\ fst p = N
  /\ exists terms term,
      In (N, terms) first /\ In term terms
      /\ leads grammar (snd p) (as_tuple term)
      /\ ((t = term /\ term <> LStr epsilon)
          \/ (term = LStr epsilon
              /\ exists terms2,
                  dict_get String.eqb N follow = Some terms2
                  /\ In t terms2)).
Proof.
  set (origin := fun (N : string) (t : lookahead) (p : Production) =>
                   exists terms term,
                     In (N, terms) first /\ In term terms
                     /\ get_production_leading_to_terminal grammar fuel
                          N term = Ok [p]
                     /\ ((t = term /\ term <> LStr epsilon)
                         \/ (term = LStr epsilon
                             /\ exists terms2,
                                 dict_get String.eqb N follow = Some terms2
                                 /\ In t terms2))).
  assert (Hinv : forall N0 t0 p0,
             table_cell table N0 t0 = Some p0 -> origin N0 t0 p0).
  { clear Hcell. revert Hrun. unfold generate_ktable.
    apply (foldM_inv
             (fun tb : Table =>
                forall N0 t0 p0,
                  table_cell tb N0 t0 = Some p0 -> origin N0 t0 p0)).
    - intros tb [n terms] tb' Hrow Htb. unfold ktable_row. cbn [fst snd].
      apply (foldM_inv
               (fun tb : Table =>
                  forall N0 t0 p0,
                    table_cell tb N0 t0 = Some p0 -> origin N0 t0 p0));
        [|exact Htb].
      intros b term b' Hterm Hb Hc N0 t0 p0 Hp.
      destruct (ktable_cell_origin grammar fuel follow b b' n term Hc
                  N0 t0 p0 Hp) as [Hold|(-> & Hget & Hcase)];
        [now apply Hb|].
      exists terms, term. repeat split; assumption.
    - intros N0 t0 p0. now rewrite empty_table_cell. }
  destruct (Hinv N t p Hcell)
    as (terms & term & Hrow & Hterm & Hget & Hcase).
  destruct (get_production_sound grammar fuel N term [p] Hget p
              (or_introl eq_refl)) as [Hfst Hin].
  split; [exact Hin|]. split; [exact Hfst|].
  exists terms, term. repeat split; try assumption.
  apply (matches_leads grammar fuel).
  exact (get_production_matches grammar fuel N term [p] Hget p
           (or_introl eq_refl)).
Qed.

Lemma every_cell_holds_a_production_that_leads_to_its_lookahead_witness :
  In ("N", [epsilon]) nullable_grammar /\ fst ("N", [epsilon]) = "N"
  /\ exists terms term,
      In ("N", terms) [("N", [LStr epsilon; LStr (quoted "a")])]
      /\ In term terms
      /\ leads nullable_grammar (snd ("N", [epsilon])) (as_tuple term)
      /\ ((LStr "$" = term /\ term <> LStr epsilon)
          \/ (term = LStr epsilon
              /\ exists terms2,
                  dict_get String.eqb "N" [("N", [LStr "$"])] = Some terms2
                  /\ In (LStr "$") terms2)).
Proof.
  apply (every_cell_holds_a_production_that_leads_to_its_lookahead
           nullable_grammar 10 [("N", [LStr epsilon; LStr (quoted "a")])]
           [("N", [LStr "$"])] 1
           [("N", [(LStr "$", ("N", [epsilon]));
                   (LStr (quoted "a"), ("N", [quoted "a"]))])]
           "N" (LStr "$") ("N", [epsilon])).
  - vm_compute. reflexivity.
  - reflexivity.
Defined.

(** ** Every tuple of lengths is reached *)

Section GuardedYield.
Context {St Y : Type}.
Variable message : string.
Variable running : St -> bool.
Variable body : St -> result (St * list Y).

Lemma guarded_while_collects (J : St -> list Y -> Prop) :
  (forall s acc s' ys,
      J s acc -> running s = true -> body s = Ok (s', ys) ->
      J s' (acc ++ ys)) ->
  forall guard s acc s' ys,
    J s acc -> guarded_while message running body guard s = Ok (s', ys) ->
    J s' (acc ++ ys) /\ running s' = false.
Proof.
  intros Hstep.
  induction guard as [|guard IH]; intros s acc s' ys HJ;
    cbn [guarded_while].
  - destruct (running s) eqn:Hrun; [discriminate|].
    intros [= <- <-]. now rewrite app_nil_r.
  - destruct (running s) eqn:Hrun.
    + destruct (body s) as [[s1 ys1]| |] eqn:Eb; cbn [bind];
        try discriminate.
      destruct (guarded_while message running body guard s1)
        as [[s2 ys2]| |] eqn:E; cbn [bind]; try discriminate.
      intros [= <- <-]. rewrite app_assoc.
      apply (IH s1 (acc ++ ys1) s2 ys2); [|exact E].
      exact (Hstep s acc s1 ys1 HJ Hrun Eb).
    + intros [= <- <-]. now rewrite app_nil_r.
Qed.
End GuardedYield.

Lemma list_sum_prefix (q rest : list nat) :
  list_sum q <= list_sum (q ++ rest).
Proof. rewrite list_sum_app. lia. Qed.

Lemma prefix_of_same_length {A} (q rest : list A) :
  length (q ++ rest) <= length q -> rest = [].
Proof.
  rewrite length_app. destruct rest; [reflexivity|]. cbn [length]. lia.
Qed.

(** The turn of the loop for a tuple that the wanted tuple begins
    with: the wanted tuple is resolved, or a longer tuple it begins
    with is put on the queue. *)
Lemma permutations_body_reaches (grammar : list Production)
    (get_exact : string -> nat -> list SubProduction) (fuel : nat)
    (lhs : string) (rhs : list string) (base_index k : nat)
    (p q rest : list nat) (queue queue' : list (list nat))
    (ys : list FollowSet) :
  let n := length rhs - base_index in
  let resolve := _kfollow_resolve_permutation grammar get_exact fuel
                   (lhs, rhs) base_index in
  saturated k n p \/ unsaturated k n p ->
  p = q ++ rest -> q <> [] ->
  permutations_body grammar get_exact fuel (lhs, rhs) base_index k
    (q :: queue) = Ok (queue', ys) ->
  (q = p /\ reached resolve lhs k n p ys)
  \/ (exists x rest', rest = x :: rest' /\ In (q ++ [x]) queue').
Proof.
  intros n resolve Hp Hsplit Hq. unfold permutations_body.
  assert (Hsum : list_sum q <= list_sum p)
    by (subst p; apply list_sum_prefix).
  assert (Hlen : length q <= length p)
    by (subst p; rewrite length_app; lia).
  destruct (Nat.eqb_spec (list_sum q) k) as [Hk|Hk].
  - (* the tuple is saturated *)
    assert (Hrest : rest = []).
    { destruct Hp as [(_ & _ & _ & Hmin)|[_ Hlt]]; [|lia].
      destruct rest as [|x rest']; [reflexivity|].
      specialize (Hmin q (x :: rest') Hq).
      assert (list_sum q < k); [|lia]. apply Hmin; [discriminate|exact Hsplit]. }
    subst rest. rewrite app_nil_r in Hsplit. subst q.
    fold (resolve p true).
    destruct (resolve p true) as [seqs| |] eqn:Er; cbn [bind];
      try discriminate.
    intros [= <- <-]. left. split; [reflexivity|]. split.
    + intros _. exists seqs. split; [exact Er|now left].
    + intros [_ Hlt]. lia.
  - destruct (Nat.leb_spec (length rhs - base_index) (length q)) as [Hn|Hn].
    + (* every symbol has its length *)
      assert (Hpn : length p <= n).
      { destruct Hp as [(_ & H & _)|[H _]]; [exact H|]. fold n. lia. }
      assert (Hrest : rest = []).
      { apply (prefix_of_same_length q). rewrite <- Hsplit. fold n in Hn.
        lia. }
      subst rest. rewrite app_nil_r in Hsplit. subst q.
      fold (resolve p false).
      destruct (resolve p false) as [seqs| |] eqn:Er; cbn [bind];
        try discriminate.
      intros [= <- <-]. left. split; [reflexivity|]. split.
      * intros (_ & _ & Hsat & _). congruence.
      * intros _. exists seqs. split; [exact Er|now left].
    + (* the tuple is extended *)
      intros [= <- <-]. right.
      destruct rest as [|x rest'].
      { exfalso. rewrite app_nil_r in Hsplit. subst q.
        destruct Hp as [(_ & _ & Hsat & _)|[Hfull _]]; [congruence|].
        fold n in Hn. lia. }
      exists x, rest'. split; [reflexivity|].
      apply in_or_app. left. apply in_rev. rewrite rev_involutive.
      apply in_map_iff. exists x. split; [reflexivity|].
      apply in_seq.
      assert (list_sum p <= k).
      { destruct Hp as [(_ & _ & Hsat & _)|[_ Hlt]]; lia. }
      subst p. rewrite list_sum_app in *. cbn [list_sum fold_right] in *.
      change (fold_right Nat.add 0 rest') with (list_sum rest') in *.
      lia.
Qed.

Lemma permutations_body_keeps (grammar : list Production)
    (get_exact : string -> nat -> list SubProduction) (fuel : nat)
    (production : Production) (base_index k : nat)
    (q0 q : list nat) (queue queue' : list (list nat))
    (ys : list FollowSet) :
  In q queue ->
  permutations_body grammar get_exact fuel production base_index k
    (q0 :: queue) = Ok (queue', ys) ->
  In q queue'.
Proof.
  intros Hin. unfold permutations_body. destruct production as [lhs rhs].
  destruct (Nat.eqb (list_sum q0) k).
  - destruct (_kfollow_resolve_permutation _ _ _ _ _ _ true);
      cbn [bind]; try discriminate. now intros [= <- <-].
  - destruct (Nat.leb (length rhs - base_index) (length q0)).
    + destruct (_kfollow_resolve_permutation _ _ _ _ _ _ false);
        cbn [bind]; try discriminate. now intros [= <- <-].
    + intros [= <- <-]. apply in_or_app. now right.
Qed.

(** X29: the enumeration of [_kfollow_permutations] misses no tuple
    of lengths.  When it returns for a place within the right-hand
    side, then for every tuple of lengths for at most the symbols that
    are left whose sum is [k], no shorter tuple it begins with reaching
    [k] already, the complete follow set of its derivations is among
    those yielded; and for every tuple for all the symbols that are
    left whose sum stays below [k], the partial follow set of its
    derivations is among them. *)
Theorem every_tuple_of_lengths_is_resolved
    (grammar : list Production)
    (get_exact : string -> nat -> list SubProduction) (fuel : nat)
    (lhs : string) (rhs : list string) (base_index k : nat)
    (yielded : list FollowSet) (p : list nat)
    (Hbase : base_index < length rhs)
    (Hrun : _kfollow_permutations grammar get_exact fuel (lhs, rhs)
              base_index k = Ok yielded) :
  reached (_kfollow_resolve_permutation grammar get_exact fuel (lhs, rhs)
             base_index)
          lhs k (length rhs - base_index) p yielded.
Proof.
  set (n := length rhs - base_index).
  set (resolve := _kfollow_resolve_permutation grammar get_exact fuel
                    (lhs, rhs) base_index).
  assert (Hcases : saturated k n p \/ unsaturated k n p ->
                   reached resolve lhs k n p yielded).
  2:{ split; intros H.
      - apply Hcases; [now left|exact H].
      - apply Hcases; [now right|exact H]. }
  intros Hp.
  unfold _kfollow_permutations in Hrun.
  destruct (Nat.eqb_spec base_index (length rhs)) as [Heq|_]; [lia|].
  destruct (guarded_while _ _ _ 500 (initial_queue k))
    as [[queue ys]| |] eqn:E; cbn [bind] in Hrun; try discriminate.
  injection Hrun as <-.
  assert (Hnonempty : p <> [] /\ list_sum p <= k).
  { destruct Hp as [(H1 & _ & H2 & _)|[H1 H2]]; [split; [exact H1|lia]|].
    split; [|lia]. intros ->. cbn [length] in H1. unfold n in H1. lia. }
  destruct Hnonempty as [Hpne Hpsum].
  apply (guarded_while_collects _ _ _
           (fun (queue : list (list nat)) (acc : list FollowSet) =>
              reached resolve lhs k n p acc
              \/ exists q rest, q <> [] /\ p = q ++ rest /\ In q queue))
    with (acc := []) in E.
  - destruct E as [[Hdone|(q & rest & _ & _ & Hin)] Hstop];
      [exact Hdone|].
    destruct queue; [destruct Hin|discriminate].
  - intros queue0 acc queue1 ys0 HJ Hgo Hbody.
    destruct HJ as [[Hsat Huns]|(q & rest & Hq & Hsplit & Hin)].
    { left. split; intros H.
      - destruct (Hsat H) as (seqs & Hr & Hi). exists seqs.
        split; [exact Hr|]. apply in_or_app. now left.
      - destruct (Huns H) as (seqs & Hr & Hi). exists seqs.
        split; [exact Hr|]. apply in_or_app. now left. }
    destruct queue0 as [|q0 queue0]; [destruct Hin|].
    destruct Hin as [->|Hin].
    + destruct (permutations_body_reaches grammar get_exact fuel lhs rhs
                  base_index k p q rest queue0 queue1 ys0 Hp Hsplit Hq Hbody)
        as [[_ [Hsat Huns]]|(x & rest' & -> & Hpush)].
      * left. split; intros H.
        -- destruct (Hsat H) as (seqs & Hr & Hi). exists seqs.
           split; [exact Hr|]. apply in_or_app. now right.
        -- destruct (Huns H) as (seqs & Hr & Hi). exists seqs.
           split; [exact Hr|]. apply in_or_app. now right.
      * right. exists (q ++ [x]), rest'. split; [|split; [|exact Hpush]].
        -- destruct q; discriminate.
        -- rewrite Hsplit. now rewrite <- app_assoc.
    + right. exists q, rest. split; [exact Hq|]. split; [exact Hsplit|].
      exact (permutations_body_keeps grammar get_exact fuel (lhs, rhs)
               base_index k q0 q queue0 queue1 ys0 Hin Hbody).
  - right. destruct p as [|x rest]; [contradiction|].
    exists [x], rest. split; [discriminate|]. split; [reflexivity|].
    unfold initial_queue. apply in_rev. rewrite rev_involutive.
    apply in_map_iff. exists x. split; [reflexivity|].
    apply in_seq. cbn [list_sum fold_right] in Hpsum. lia.
Qed.

Lemma every_tuple_of_lengths_is_resolved_witness :
  reached (_kfollow_resolve_permutation sequence_grammar
             (spec_get_exact sequence_grammar) 30 ("S", ["A"; "B"]) 1)
          "S" 1 (length ["A"; "B"] - 1) [1]
          [FollowSet_complete [[quoted "b"]] "S" 1;
           FollowSet_partial [] "S" 1].
Proof.
  apply (every_tuple_of_lengths_is_resolved sequence_grammar
           (spec_get_exact sequence_grammar) 30 "S" ["A"; "B"] 1 1).
  - cbn [length]. lia.
  - vm_compute. reflexivity.
Defined.

(** ** [kfirst] raises nothing *)

Lemma foldM_never_raises {A B} (P : B -> Prop) (e : exn)
    (f : B -> A -> result B) (xs : list A) :
  (forall b x, In x xs -> P b ->
               f b x <> Raise e /\ forall b', f b x = Ok b' -> P b') ->
  forall acc, P acc -> foldM f xs acc <> Raise e.
Proof.
  induction xs as [|x xs IH]; intros Hstep acc Hacc; [discriminate|].
  cbn [foldM].
  destruct (Hstep acc x (or_introl eq_refl) Hacc) as [Hne Hkeep].
  destruct (f acc x) as [b|e'|]; cbn [bind]; [|congruence|discriminate].
  apply IH; [|now apply Hkeep].
  intros b0 y Hy. apply Hstep. now right.
Qed.

(** X30: [kfirst] raises no exception.  The keys it walks through are
    the keys of the mapping it fills, so that no row is missing when an
    entry is added, and neither [_kfirst] nor the union of what it
    yields raises: [kfirst] returns its mapping whenever the
    enumeration of [_kfirst] comes to an end. *)
Theorem kfirst_raises_nothing
    (grammar : list Production) (fuel k : nat) (e : exn) :
  kfirst grammar fuel k <> Raise e
  /\ (forall active symbol i allow_underflow,
         _kfirst grammar fuel active symbol i allow_underflow <> Raise e).
Proof.
  split; [|intros; apply kfirst_never_raises].
  unfold kfirst.
  apply (foldM_never_raises
           (fun F : dict string (list lookahead) =>
              map fst F = lhs_keys grammar));
    [|rewrite map_map; apply map_id].
  intros F i _ HF. split.
  - apply (foldM_never_raises
             (fun F : dict string (list lookahead) =>
                map fst F = lhs_keys grammar)); [|exact HF].
    intros F0 symbol Hsymbol HF0. split.
    + unfold kfirst_symbol.
      pose proof (kfirst_never_raises grammar e fuel [] (Sym symbol) i true)
        as Hk.
      destruct (_kfirst grammar fuel [] (Sym symbol) i true)
        as [yielded|e'|]; cbn [bind]; [|congruence|discriminate].
      apply (foldM_never_raises
               (fun F : dict string (list lookahead) =>
                  map fst F = lhs_keys grammar)); [|exact HF0].
      intros F1 sub _ HF1.
      destruct (dict_get_of_key symbol F1) as [entries Hget].
      { now rewrite HF1. }
      rewrite Hget. split; [discriminate|].
      intros F2 [= <-]. rewrite dict_set_keys; [exact HF1|].
      unfold dict_mem. now rewrite Hget.
    + intros F1 Hs. apply kfirst_symbol_keys in Hs. congruence.
  - intros F1.
    apply (foldM_inv (fun F : dict string (list lookahead) =>
                        map fst F = lhs_keys grammar)); [|exact HF].
    intros F2 symbol F3 _ HF2 Hs. apply kfirst_symbol_keys in Hs. congruence.
Qed.

(** ** The enumerations of a round, in the order in which they run *)

Lemma mapM_app {A B} (f : A -> result B) (xs ys : list A) :
  mapM f (xs ++ ys)
  = (a <- mapM f xs ;; b <- mapM f ys ;; Ok (a ++ b)).
Proof.
  induction xs as [|x xs IH]; cbn [app mapM bind].
  - destruct (mapM f ys); reflexivity.
  - destruct (f x) as [y| |]; cbn [bind]; try reflexivity.
    rewrite IH. destruct (mapM f xs) as [a| |]; cbn [bind]; try reflexivity.
    destruct (mapM f ys); reflexivity.
Qed.

Lemma mapM_map {A B C} (g : A -> B) (f : B -> result C) (xs : list A) :
  mapM f (map g xs) = mapM (fun x => f (g x)) xs.
Proof.
  induction xs as [|x xs IH]; [reflexivity|].
  cbn [map mapM]. now rewrite IH.
Qed.

Lemma mapM_returns {A B} (f : A -> result B) (xs : list A) :
  (forall x, In x xs -> exists y, f x = Ok y) ->
  exists ys, mapM f xs = Ok ys.
Proof.
  induction xs as [|x xs IH]; intros H; [now exists []|].
  destruct (H x (or_introl eq_refl)) as [y Hy].
  destruct IH as [ys Hys]; [intros; apply H; now right|].
  exists (y :: ys). cbn [mapM]. now rewrite Hy, Hys.
Qed.

(** The first call that raises ends a sequence of calls. *)
Lemma mapM_first_raise {A B} (f : A -> result B) (before : list A) (x : A)
    (after : list A) (e : exn) :
  (forall b, In b before -> exists y, f b = Ok y) -> f x = Raise e ->
  mapM f (before ++ x :: after) = Raise e.
Proof.
  intros Hbefore Hx. rewrite mapM_app.
  destruct (mapM_returns f before Hbefore) as [ys ->].
  cbn [bind mapM]. now rewrite Hx.
Qed.

Lemma nested_enumerations (grammar : list Production)
    (get_exact : string -> nat -> list SubProduction) (fuel : nat)
    (symbol : string) (i : nat) :
  forall productions : list Production,
    (yielded <-
       mapM (fun production : Production =>
               per_occurrence <-
                 mapM (fun j =>
                         _kfollow_permutations grammar get_exact fuel
                           production (j + 1) i)
                      (occurrences symbol 0 (snd production)) ;;
               Ok (concat per_occurrence))
            productions ;;
     Ok (concat yielded))
    = (yielded <-
         mapM (fun c : Production * nat =>
                 _kfollow_permutations grammar get_exact fuel
                   (fst c) (snd c) i)
              (flat_map (fun production : Production =>
                           map (fun j => (production, j + 1))
                               (occurrences symbol 0 (snd production)))
                        productions) ;;
       Ok (concat yielded)).
Proof.
  induction productions as [|p productions IH]; [reflexivity|].
  cbn [mapM flat_map]. rewrite mapM_app, mapM_map. cbn [fst snd].
  destruct (mapM (fun j =>
                    _kfollow_permutations grammar get_exact fuel p (j + 1) i)
                 (occurrences symbol 0 (snd p)))
    as [per| |]; cbn [bind]; try reflexivity.
  revert IH.
  match goal with
  | |- context [mapM ?g productions] => destruct (mapM g productions)
  end;
    match goal with
    | |- context [mapM ?g (flat_map ?h productions)] =>
        destruct (mapM g (flat_map h productions))
    end;
    cbn [bind concat]; intros IH; try congruence.
  rewrite concat_app. congruence.
Qed.

(** [_kfollow] runs the enumerations of its symbol one after the
    other. *)
Lemma kfollow_runs_enumerations (grammar : list Production)
    (get_exact : string -> nat -> list SubProduction) (fuel : nat)
    (symbol : string) (i : nat) :
  _kfollow grammar get_exact fuel symbol i
  = (yielded <-
       mapM (fun c : Production * nat =>
               _kfollow_permutations grammar get_exact fuel (fst c) (snd c) i)
            (enumerations_of grammar symbol) ;;
     Ok (concat yielded)).
Proof. apply nested_enumerations. Qed.

Lemma appends_return (symbol : string) :
  forall (followsets : list FollowSet) (F : Lookup),
    In symbol (map fst F) ->
    exists F',
      foldM (fun F f => lookup_append F symbol f) followsets F = Ok F'
      /\ map fst F' = map fst F.
Proof.
  induction followsets as [|f followsets IH]; intros F Hkey.
  - exists F. split; reflexivity.
  - cbn [foldM].
    destruct (dict_get_of_key symbol F Hkey) as [l Hl].
    assert (Happ : lookup_append F symbol f
                   = Ok (dict_set String.eqb symbol (l ++ [f]) F))
      by (unfold lookup_append; now rewrite Hl).
    rewrite Happ. cbn [bind].
    pose proof (lookup_append_keys _ _ _ _ Happ) as Hkeys.
    destruct (IH (dict_set String.eqb symbol (l ++ [f]) F)) as (F' & Hrun & HF');
      [now rewrite Hkeys|].
    exists F'. split; [exact Hrun|congruence].
Qed.

(** The loops of [kfollow] that collect the follow sets end as the
    enumerations do, taken in order: with the first error among them,
    or with a lookup when all of them return. *)
Lemma collect_runs_enumerations (grammar : list Production)
    (get_exact : string -> nat -> list SubProduction) (fuel i : nat) :
  forall (symbols : list string) (F : Lookup),
    incl symbols (map fst F) ->
    match mapM (fun c : Production * nat =>
                  _kfollow_permutations grammar get_exact fuel
                    (fst c) (snd c) i)
               (flat_map (enumerations_of grammar) symbols) with
    | Ok _ =>
        exists F',
          foldM (fun F symbol =>
                   followsets <- _kfollow grammar get_exact fuel symbol i ;;
                   foldM (fun F f => lookup_append F symbol f) followsets F)
                symbols F = Ok F'
    | Raise e =>
        foldM (fun F symbol =>
                 followsets <- _kfollow grammar get_exact fuel symbol i ;;
                 foldM (fun F f => lookup_append F symbol f) followsets F)
              symbols F = Raise e
    | Timeout =>
        foldM (fun F symbol =>
                 followsets <- _kfollow grammar get_exact fuel symbol i ;;
                 foldM (fun F f => lookup_append F symbol f) followsets F)
              symbols F = Timeout
    end.
Proof.
  induction symbols as [|symbol symbols IH]; intros F Hkeys.
  - cbn [flat_map mapM foldM]. now exists F.
  - cbn [flat_map foldM]. rewrite mapM_app, kfollow_runs_enumerations.
    destruct (mapM _ (enumerations_of grammar symbol)) as [yielded| |];
      cbn [bind]; try reflexivity.
    destruct (appends_return symbol (concat yielded) F) as (F1 & -> & HF1);
      [apply Hkeys; now left|].
    cbn [bind]. specialize (IH F1).
    destruct (mapM _ (flat_map (enumerations_of grammar) symbols));
      cbn [bind]; apply IH; rewrite HF1; intros x Hx; apply Hkeys;
      now right.
Qed.

Lemma collect_followsets_outcome (grammar : list Production)
    (get_exact : string -> nat -> list SubProduction) (fuel i : nat)
    (F : Lookup) :
  map fst F = lhs_keys grammar ->
  match mapM (fun c : Production * nat =>
                _kfollow_permutations grammar get_exact fuel
                  (fst c) (snd c) i)
             (enumerations grammar) with
  | Ok _ => exists F', collect_followsets grammar get_exact fuel i F = Ok F'
  | Raise e => collect_followsets grammar get_exact fuel i F = Raise e
  | Timeout => collect_followsets grammar get_exact fuel i F = Timeout
  end.
Proof.
  intros Hkeys. unfold collect_followsets, enumerations.
  rewrite <- Hkeys.
  exact (collect_runs_enumerations grammar get_exact fuel i (map fst F) F
           (incl_refl _)).
Qed.

(** ** The rounds of [kfollow] *)

Lemma seq_round (i k : nat) :
  In i (seq 1 k) -> seq 1 k = seq 1 (i - 1) ++ i :: seq (S i) (k - i).
Proof.
  intros Hi. apply in_seq in Hi.
  transitivity (seq 1 ((i - 1) + S (k - i))); [f_equal; lia|].
  rewrite seq_app. cbn [seq].
  replace (1 + (i - 1)) with i by lia. reflexivity.
Qed.

(** When [kfollow] returns, every round before returned: the
    collection of the follow sets and the fixpoint of the lookup it
    collected. *)
Lemma kfollow_rounds_return
    (grammar : list Production) (start : string)
    (get_exact : string -> nat -> list SubProduction)
    (fs_append : FollowSet -> FollowSet -> FollowSet)
    (fuel k : nat) (mapping : dict string (list lookahead)) :
  kfollow grammar start get_exact fs_append fuel k = Ok mapping ->
  forall i, In i (seq 1 k) ->
    exists seeded F collected solved,
      lookup_append (map (fun x => (x, [])) (lhs_keys grammar)) start
        (initial_start start) = Ok seeded
      /\ foldM (kfollow_round grammar get_exact fs_append fuel)
               (seq 1 (i - 1)) seeded = Ok F
      /\ collect_followsets grammar get_exact fuel i F = Ok collected
      /\ _kfollow_fixpoint_solution fs_append collected = Ok solved.
Proof.
  unfold kfollow. intros Hrun i Hi.
  destruct (lookup_append _ start (initial_start start)) as [seeded| |]
    eqn:Eseed; cbn [bind] in Hrun; try discriminate.
  rewrite (seq_round i k Hi), foldM_app in Hrun.
  destruct (foldM (kfollow_round grammar get_exact fs_append fuel)
              (seq 1 (i - 1)) seeded) as [F| |] eqn:Erounds;
    cbn [bind foldM] in Hrun; try discriminate.
  unfold kfollow_round at 1 in Hrun.
  destruct (collect_followsets grammar get_exact fuel i F)
    as [collected| |] eqn:Ecollect; cbn [bind] in Hrun; try discriminate.
  destruct (_kfollow_fixpoint_solution fs_append collected)
    as [solved| |] eqn:Esolved; cbn [bind] in Hrun; try discriminate.
  exists seeded, F, collected, solved. auto.
Qed.

(** An error of a round is the error of [kfollow]. *)
Lemma kfollow_aborts
    (grammar : list Production) (start : string)
    (get_exact : string -> nat -> list SubProduction)
    (fs_append : FollowSet -> FollowSet -> FollowSet)
    (fuel k i : nat) (seeded F : Lookup) (e : exn) :
  In i (seq 1 k) ->
  lookup_append (map (fun x => (x, [])) (lhs_keys grammar)) start
    (initial_start start) = Ok seeded ->
  foldM (kfollow_round grammar get_exact fs_append fuel) (seq 1 (i - 1))
        seeded = Ok F ->
  kfollow_round grammar get_exact fs_append fuel F i = Raise e ->
  kfollow grammar start get_exact fs_append fuel k = Raise e.
Proof.
  intros Hi Hseed Hrounds Hround. unfold kfollow.
  rewrite Hseed. cbn [bind].
  rewrite (seq_round i k Hi), foldM_app, Hrounds. cbn [bind foldM].
  now rewrite Hround.
Qed.

(** ** The iteration guards (C8) *)

(** C8: the loop of the permutation enumerator and the loop of the
    FOLLOW fixpoint run under a guard of 500 turns.  A loop that
    returns made at most 500 turns; a loop that is not over after 500
    turns raises the error of its guard; and a loop that is over within
    500 turns returns its result, the guard raising nothing.  An error
    of one of the loops aborts the generation.  When [kfollow] returns,
    every enumeration it asked for returned, and so did, in every
    round, the collection of the follow sets and the fixpoint of the
    lookup that the round collected.  When the rounds before round [i]
    have returned and, in round [i], an enumeration is not over after
    500 turns, the enumerations before it having returned, [kfollow]
    raises the error of the guard of the enumerator; when the
    enumerations of the round have returned and the fixpoint of the
    lookup collected is not over after 500 turns, [kfollow] raises the
    error of the guard of the fixpoint.  [generate_parser] raises what
    [kfollow] raises. *)
Theorem iteration_guards_bound_the_loops
    (grammar : list Production)
    (get_exact : string -> nat -> list SubProduction)
    (fs_append : FollowSet -> FollowSet -> FollowSet) (fuel : nat) :
  (forall lhs rhs base_index k,
      base_index <> length rhs ->
      let free := turns (fun queue => negb (is_nil queue))
                    (permutations_body grammar get_exact fuel
                       (lhs, rhs) base_index k) in
      let run := _kfollow_permutations grammar get_exact fuel
                   (lhs, rhs) base_index k in
      (forall yielded,
          run = Ok yielded ->
          exists n, n <= 500 /\ free n (initial_queue k) = Ok ([], yielded))
      /\ (forall p queue yielded,
             free 500 (initial_queue k) = Ok (p :: queue, yielded) ->
             run = Raise (Exception "Reached max iteration."))
      /\ (forall n yielded,
             n <= 500 -> free n (initial_queue k) = Ok ([], yielded) ->
             run = Ok yielded))
  /\ (forall followset_lookup : Lookup,
         let free := turns (fun state : Lookup * bool => snd state)
                       (fixpoint_body fs_append) in
         let run := _kfollow_fixpoint_solution fs_append followset_lookup in
         (forall solved,
             run = Ok solved ->
             exists n ys, n <= 500
                          /\ free n (followset_lookup, true)
                             = Ok ((solved, false), ys))
         /\ (forall lookup ys,
                free 500 (followset_lookup, true) = Ok ((lookup, true), ys) ->
                run = Raise (Exception
                               "Reached iteration limit during fixpoint solution."))
         /\ (forall n solved ys,
                n <= 500 ->
                free n (followset_lookup, true) = Ok ((solved, false), ys) ->
                run = Ok solved))
  /\ (forall start k mapping,
         kfollow grammar start get_exact fs_append fuel k = Ok mapping ->
         forall i, In i (seq 1 k) ->
           (forall symbol production j,
               In symbol (lhs_keys grammar) -> In production grammar ->
               In j (occurrences symbol 0 (snd production)) ->
               exists yielded,
                 _kfollow_permutations grammar get_exact fuel production
                   (j + 1) i = Ok yielded)
           /\ exists seeded F collected solved,
               lookup_append (map (fun x => (x, [])) (lhs_keys grammar))
                 start (initial_start start) = Ok seeded
               /\ foldM (kfollow_round grammar get_exact fs_append fuel)
                        (seq 1 (i - 1)) seeded = Ok F
               /\ collect_followsets grammar get_exact fuel i F
                  = Ok collected
               /\ _kfollow_fixpoint_solution fs_append collected
                  = Ok solved)
  /\ (forall start k i seeded F,
         In i (seq 1 k) ->
         lookup_append (map (fun x => (x, [])) (lhs_keys grammar))
           start (initial_start start) = Ok seeded ->
         foldM (kfollow_round grammar get_exact fs_append fuel)
               (seq 1 (i - 1)) seeded = Ok F ->
         (forall before lhs rhs base_index after p queue yielded,
             enumerations grammar
             = before ++ ((lhs, rhs), base_index) :: after ->
             (forall c, In c before ->
                        exists followsets,
                          _kfollow_permutations grammar get_exact fuel
                            (fst c) (snd c) i = Ok followsets) ->
             base_index <> length rhs ->
             turns (fun queue => negb (is_nil queue))
                   (permutations_body grammar get_exact fuel
                      (lhs, rhs) base_index i)
                   500 (initial_queue i)
             = Ok (p :: queue, yielded) ->
             kfollow grammar start get_exact fs_append fuel k
             = Raise (Exception "Reached max iteration."))
         /\ (forall collected lookup ys,
                collect_followsets grammar get_exact fuel i F
                = Ok collected ->
                turns (fun state : Lookup * bool => snd state)
                      (fixpoint_body fs_append) 500 (collected, true)
                = Ok ((lookup, true), ys) ->
                kfollow grammar start get_exact fs_append fuel k
                = Raise (Exception
                           "Reached iteration limit during fixpoint solution.")))
  /\ (forall (repr : string -> string) (parse : string -> result Node)
             (node_filter : (Node -> bool) -> Node -> list Node)
             (is_start : Node -> bool)
             (exact_of : list Production -> string -> nat
                         -> list SubProduction)
             (clock : datetime) (text : string) (imports : option string)
             (k : nat) (bnf node : Node) (nodes : list Node)
             (productions : list Production)
             (first_sets : dict string (list lookahead)) (e : exn),
         parse text = Ok bnf ->
         node_filter is_start bnf = node :: nodes ->
         table node_filter bnf = Ok productions ->
         kfirst productions fuel k = Ok first_sets ->
         kfollow productions (value node) (exact_of productions) fs_append
                 fuel k = Raise e ->
         generate_parser repr parse node_filter is_start exact_of fs_append
           fuel clock text imports k = Raise e).
Proof.
  split; [|split; [|split; [|split]]].
  - intros lhs rhs base_index k Hbase free run.
    assert (Hrun : run = ('(_, yielded) <-
                            guarded_while "Reached max iteration."
                              (fun queue => negb (is_nil queue))
                              (permutations_body grammar get_exact fuel
                                 (lhs, rhs) base_index k)
                              500 (initial_queue k) ;;
                          Ok yielded)).
    { unfold run, _kfollow_permutations.
      destruct (Nat.eqb_spec base_index (length rhs)); [contradiction|].
      reflexivity. }
    rewrite Hrun. clear Hrun. split; [|split].
    + intros yielded H.
      destruct (guarded_while _ _ _ 500 (initial_queue k))
        as [[q ys]| |] eqn:E; simpl in H; try discriminate.
      injection H as ->.
      apply guarded_while_bounded in E as (n & Hn & Hfree & Hstop).
      exists n. split; [assumption|].
      destruct q; [assumption|discriminate].
    + intros p queue yielded Hfree.
      now rewrite (guarded_while_exhausted _ _ _ _ _ _ _ Hfree eq_refl).
    + intros n yielded Hn Hfree.
      now rewrite (guarded_while_under_bound _ _ _ n _ _ _ _ Hn Hfree eq_refl).
  - intros followset_lookup free run. unfold run, _kfollow_fixpoint_solution.
    split; [|split].
    + intros solved H.
      destruct (guarded_while _ _ _ 500 (followset_lookup, true))
        as [[[lookup c] ys]| |] eqn:E; simpl in H; try discriminate.
      injection H as ->.
      apply guarded_while_bounded in E as (n & Hn & Hfree & Hstop).
      simpl in Hstop. subst c. exists n, ys. auto.
    + intros lookup ys Hfree.
      now rewrite (guarded_while_exhausted _ _ _ _ _ _ _ Hfree eq_refl).
    + intros n solved ys Hn Hfree.
      now rewrite (guarded_while_under_bound _ _ _ n _ _ _ _ Hn Hfree eq_refl).
  - intros start k mapping Hrun i Hi. split.
    + exact (proj1 (kfollow_returns_only_if_its_loops_return grammar start
                      get_exact fs_append fuel k mapping Hrun i Hi)).
    + exact (kfollow_rounds_return grammar start get_exact fs_append fuel k
               mapping Hrun i Hi).
  - intros start k i seeded F Hi Hseed Hrounds.
    pose proof (kfollow_lookup_keys grammar start get_exact fs_append fuel
                  (i - 1) seeded F Hseed Hrounds) as Hkeys.
    split.
    + intros before lhs rhs base_index after p queue yielded Hsplit Hbefore
             Hbase Hfree.
      apply (kfollow_aborts grammar start get_exact fs_append fuel k i
               seeded F _ Hi Hseed Hrounds).
      assert (Hraise : _kfollow_permutations grammar get_exact fuel
                         (lhs, rhs) base_index i
                       = Raise (Exception "Reached max iteration.")).
      { unfold _kfollow_permutations.
        destruct (Nat.eqb_spec base_index (length rhs)); [contradiction|].
        now rewrite (guarded_while_exhausted _ _ _ _ _ _ _ Hfree eq_refl). }
      pose proof (collect_followsets_outcome grammar get_exact fuel i F
                    Hkeys) as Hcollect.
      assert (Hall : mapM (fun c : Production * nat =>
                             _kfollow_permutations grammar get_exact fuel
                               (fst c) (snd c) i)
                          (enumerations grammar)
                     = Raise (Exception "Reached max iteration.")).
      { rewrite Hsplit. apply mapM_first_raise; assumption. }
      rewrite Hall in Hcollect.
      unfold kfollow_round. now rewrite Hcollect.
    + intros collected lookup ys Hcollect Hfree.
      apply (kfollow_aborts grammar start get_exact fs_append fuel k i
               seeded F _ Hi Hseed Hrounds).
      unfold kfollow_round. rewrite Hcollect. cbn [bind].
      unfold _kfollow_fixpoint_solution.
      now rewrite (guarded_while_exhausted _ _ _ _ _ _ _ Hfree eq_refl).
  - intros repr parse node_filter is_start exact_of clock text imports k bnf
           node nodes productions first_sets e Hparse Hstart Htable Hfirst
           Hfollow.
    unfold generate_parser. rewrite Hparse. cbn [bind].
    rewrite Hstart. cbn [bind]. rewrite Htable. cbn [bind].
    rewrite Hfirst. cbn [bind]. now rewrite Hfollow.
Qed.

Lemma iteration_guards_bound_the_loops_witness :
  _kfollow_permutations sequence_grammar (spec_get_exact sequence_grammar) 30
    ("S", ["A"; "B"]) 1 1
  = Ok [FollowSet_complete [[quoted "b"]] "S" 1; FollowSet_partial [] "S" 1]
  /\ _kfollow_permutations sequence_grammar
       (spec_get_exact sequence_grammar) 30 ("S", ["A"; "B"]) 1 500
     = Raise (Exception "Reached max iteration.")
  /\ exists solved,
      _kfollow_fixpoint_solution spec_append
        [("S", [initial_start "S"]);
         ("A", []);
         ("B", [FollowSet_partial [[]] "S" 1])]
      = Ok solved.
Proof.
  pose proof (iteration_guards_bound_the_loops sequence_grammar
                (spec_get_exact sequence_grammar) spec_append 30)
    as (Hperm & Hfix & _).
  split; [|split].
  - assert (Hbase : 1 <> length ["A"; "B"]) by (simpl; lia).
    destruct (Hperm "S" ["A"; "B"] 1 1 Hbase) as (_ & _ & Hunder).
    apply (Hunder 2); [lia|]. vm_compute. reflexivity.
  - assert (Hbase : 1 <> length ["A"; "B"]) by (simpl; lia).
    destruct (Hperm "S" ["A"; "B"] 1 500 Hbase) as (_ & Hover & _).
    eapply Hover. vm_compute. reflexivity.
  - destruct (Hfix [("S", [initial_start "S"]);
                    ("A", []);
                    ("B", [FollowSet_partial [[]] "S" 1])])
      as (_ & _ & Hunder).
    eexists. eapply (Hunder 3); [lia|]. vm_compute. reflexivity.
Defined.

(** ** [_matches] on a left-recursive grammar *)

Lemma is_nonterm_not_epsilon (x : string) :
  is_nonterm x = true -> is_epsilon x = false.
Proof.
  unfold is_nonterm. intros H. apply negb_true_iff in H.
  now apply orb_false_iff in H as [_ H].
Qed.

Lemma all_away_app (grammar : list Production) (a b : list string) :
  all_away grammar a -> all_away grammar b -> all_away grammar (a ++ b).
Proof.
  intros Ha Hb. induction a as [|y a IH]; [exact Hb|].
  inversion Ha as [|? ? Hy Hk Hrest]; subst.
  cbn [app]. constructor; auto.
Qed.

Lemma all_away_head (grammar : list Production) (vs : list string)
    (M : string) (rest : list string) :
  all_away grammar vs -> is_nonterm M = true ->
  is_nonterm (hd EmptyString (vs ++ M :: rest)) = true.
Proof.
  intros Hvs HM. destruct vs as [|y vs]; [exact HM|].
  now inversion Hvs.
Qed.

Lemma reaches_target (grammar : list Production) (A B : string) :
  reaches (left_corner grammar) A B ->
  is_nonterm B = true /\ In A (nonterminals grammar).
Proof.
  intros H. induction H as [A B (before & after & Hin & _ & HB)
                           |A B C (before & after & Hin & _ & _) _ [IH _]].
  - split; [exact HB|]. apply in_map_iff.
    now exists (A, before ++ B :: after).
  - split; [exact IH|]. apply in_map_iff.
    now exists (A, before ++ B :: after).
Qed.

(** On the way back to [N], which reaches itself, there is always a
    next left corner. *)
Lemma reaches_next (grammar : list Production) (M N : string) :
  reaches (left_corner grammar) N N -> reaches (left_corner grammar) M N ->
  exists M', left_corner grammar M M' /\ reaches (left_corner grammar) M' N.
Proof.
  intros Hcycle H. inversion H as [? ? Hstep|? M' ? Hstep Hrest]; subst.
  - now exists N.
  - now exists M'.
Qed.

Lemma well_formed_In (grammar : list Production) (lhs : string)
    (rhs : list string) :
  well_formed grammar = true -> In (lhs, rhs) grammar ->
  rhs <> []
  /\ forall x, In x rhs -> is_nonterm x = true ->
               In x (nonterminals grammar).
Proof.
  unfold well_formed. rewrite forallb_forall. intros H Hin.
  specialize (H _ Hin). cbn [snd] in H.
  apply andb_true_iff in H as [Hne Hdef]. split.
  - intros ->. discriminate Hne.
  - intros x Hx Hn. rewrite forallb_forall in Hdef.
    specialize (Hdef x Hx). rewrite Hn in Hdef. cbn [implb] in Hdef.
    apply existsb_exists in Hdef as (y & Hy & Heq).
    apply String.eqb_eq in Heq. now subst.
Qed.

Lemma productions_of_defined (grammar : list Production) (c : string) :
  In c (nonterminals grammar) ->
  dict_get String.eqb c (adjacency_matrix grammar)
  = Some (grammar_get grammar c).
Proof.
  intros Hc. rewrite adjacency_matrix_lookup.
  replace (existsb (String.eqb c) (nonterminals grammar)) with true;
    [reflexivity|].
  symmetry. apply existsb_exists. exists c.
  split; [assumption|apply String.eqb_refl].
Qed.

(** A turn of the search on an unmatched item answers nothing and
    raises nothing: it pushes unmatched items, and one that comes back
    to [N] if the item does. *)
Lemma matches_body_unmatched (grammar : list Production) (N t : string)
    (ts : list string) (children remaining : list string) :
  well_formed grammar = true -> foreign grammar t ->
  reaches (left_corner grammar) N N ->
  unmatched grammar (t :: ts) (children, remaining) ->
  exists pushed,
    _matches_body grammar children remaining = Ok (Next pushed)
    /\ Forall (unmatched grammar (t :: ts)) pushed
    /\ (returning grammar N (children, remaining) ->
        Exists (returning grammar N) pushed).
Proof.
  intros Hwf Hforeign Hcycle [Hrem Hsym]. cbn [fst snd hd] in *. subst.
  unfold _matches_body. destruct children as [|c cs].
  { exists []. split; [reflexivity|]. split; [constructor|].
    intros (vs & M & rest & Heq & _). cbn [fst] in Heq.
    now destruct vs. }
  cbn [is_nil orb consume]. pose proof (Hsym c (or_introl eq_refl)) as Hc.
  destruct (is_nonterm c) eqn:Hn.
  - (* the head is a nonterminal: all its productions are pushed *)
    cbn [hd]. rewrite Hn. cbn [negb].
    rewrite (productions_of_defined grammar c Hc).
    set (expansion := fun p : list string =>
                        if is_epsilon (hd EmptyString p)
                        then (cs, t :: ts) else (p ++ cs, t :: ts)).
    assert (Hexpand : forall p, In p (grammar_get grammar c) ->
                                expand cs (t :: ts) p = Ok (expansion p)).
    { intros p Hp. apply grammar_get_In in Hp.
      destruct (well_formed_In grammar c p Hwf Hp) as [Hne _].
      destruct p as [|p0 p]; [contradiction|].
      unfold expansion, expand. cbn [hd].
      destruct (is_epsilon p0); reflexivity. }
    rewrite Hn. cbn [negb].
    rewrite (mapM_all_ok (expand cs (t :: ts)) expansion
               (grammar_get grammar c) Hexpand).
    cbn [bind].
    exists (map expansion (grammar_get grammar c)).
    split; [reflexivity|]. split.
    + apply Forall_forall. intros it Hit.
      apply in_map_iff in Hit as (p & <- & Hp).
      apply grammar_get_In in Hp.
      destruct (well_formed_In grammar c p Hwf Hp) as [_ Hdef].
      assert (Hcs : forall x, In x cs ->
                              if is_nonterm x
                              then In x (nonterminals grammar) else x <> t)
        by (intros x Hx; apply Hsym; now right).
      unfold expansion.
      destruct (is_epsilon (hd EmptyString p)); split; cbn [fst snd hd];
        try reflexivity; try exact Hcs.
      intros x Hx. apply in_app_or in Hx as [Hx|Hx]; [|now apply Hcs].
      destruct (is_nonterm x) eqn:Hxn; [now apply Hdef|].
      exact (Hforeign c p x Hp Hx Hxn).
    + intros (vs & M & rest & Heq & Hvs & HM & Hback). cbn [fst] in Heq.
      apply Exists_exists. destruct vs as [|y vs]; cbn [app] in Heq;
        injection Heq as -> ->.
      * (* the head is on the way back to [N] *)
        destruct (reaches_next grammar M N Hcycle Hback)
          as (M' & (before & after & Hin & Hbefore & HM') & Hback').
        exists (expansion (before ++ M' :: after)). split.
        -- apply in_map. now apply grammar_get_In.
        -- unfold expansion.
           rewrite (is_nonterm_not_epsilon _
                      (all_away_head grammar before M' after Hbefore HM')).
           exists before, M', (after ++ rest). cbn [fst].
           rewrite <- app_assoc. cbn [app]. auto.
      * (* the head can be expanded away *)
        inversion Hvs as [|? ? Hy Haway Hrest]; subst.
        inversion Haway as [? x r Hin Heps|? x r Hin Hall]; subst.
        -- exists (expansion (x :: r)). split.
           ++ apply in_map. now apply grammar_get_In.
           ++ unfold expansion. cbn [hd]. rewrite Heps.
              exists vs, M, rest. auto.
        -- exists (expansion (x :: r)). split.
           ++ apply in_map. now apply grammar_get_In.
           ++ unfold expansion. cbn [hd].
              assert (Hx : is_nonterm x = true) by now inversion Hall.
              rewrite (is_nonterm_not_epsilon x Hx).
              exists ((x :: r) ++ vs), M, rest. cbn [fst].
              rewrite <- app_assoc. repeat split; try assumption.
              now apply all_away_app.
  - (* the head is no nonterminal: it is not the lookahead *)
    replace (String.eqb c t) with false
      by (symmetry; now apply String.eqb_neq).
    exists []. split; [reflexivity|]. split; [constructor|].
    intros (vs & M & rest & Heq & Hvs & HM & _). cbn [fst] in Heq.
    pose proof (all_away_head grammar vs M rest Hvs HM) as Hhead.
    rewrite <- Heq in Hhead. cbn [hd] in Hhead. congruence.
Qed.

Lemma matches_loop_never_ends (grammar : list Production) (N t : string)
    (ts : list string) :
  well_formed grammar = true -> foreign grammar t ->
  reaches (left_corner grammar) N N ->
  forall fuel queue,
    Forall (unmatched grammar (t :: ts)) queue ->
    Exists (returning grammar N) queue ->
    _matches_loop grammar fuel queue = Timeout.
Proof.
  intros Hwf Hforeign Hcycle.
  induction fuel as [|fuel IH]; intros queue Hall Hex; [reflexivity|].
  destruct queue as [|[children remaining] queue]; [inversion Hex|].
  inversion Hall as [|? ? Hhead Htail]; subst. cbn [_matches_loop].
  destruct (matches_body_unmatched grammar N t ts children remaining
              Hwf Hforeign Hcycle Hhead) as (pushed & -> & Hpushed & Hlive).
  apply IH.
  - apply Forall_app. now split.
  - apply Exists_app. inversion Hex as [? ? Hit|? ? Hq]; subst.
    + right. now apply Hlive.
    + now left.
Qed.

(** Left recursion keeps [_matches] from returning: on a well-formed
    grammar in which [N] reaches itself through left corners, the
    search from [N] for a lookahead that begins with a symbol that is
    none of the terminals of the grammar runs for ever. *)
Lemma matches_runs_forever_with_left_recursion
    (grammar : list Production) (N t : string) (ts : list string) :
  well_formed grammar = true ->
  reaches (left_corner grammar) N N ->
  foreign grammar t ->
  ~ matches_terminates grammar [N] (t :: ts).
Proof.
  intros Hwf Hcycle Hforeign (fuel & answer & Hanswer & H).
  apply Hanswer. rewrite <- (H fuel (le_n fuel)). unfold _matches.
  destruct (reaches_target grammar N N Hcycle) as [HN Hdef].
  apply (matches_loop_never_ends grammar N t ts Hwf Hforeign Hcycle).
  - constructor; [|constructor]. split; [reflexivity|].
    intros x [<-|[]]. now rewrite HN.
  - constructor. exists [], N, [].
    split; [reflexivity|]. split; [constructor|]. split; assumption.
Qed.

(** On a well-formed grammar, [_matches] returns on every right-hand
    side and every lookahead exactly when the grammar is not
    left-recursive. *)
Lemma left_recursion_is_what_keeps_matches_from_returning
    (grammar : list Production) :
  well_formed grammar = true ->
  (forall rhs terms, matches_terminates grammar rhs terms)
  <-> ~ left_recursive grammar.
Proof.
  intros Hwf. split.
  - intros Hall [N Hcycle].
    destruct (reaches_target grammar N N Hcycle) as [HN _].
    apply (matches_runs_forever_with_left_recursion grammar N N []
             Hwf Hcycle); [|apply Hall].
    intros lhs rhs x _ _ Hx ->. congruence.
  - intros Hfree rhs terms.
    apply (matches_terminates_on_ranked_grammars grammar
             (nullable_of grammar) (left_depth grammar)).
    now apply grammars_without_left_recursion_are_ranked.
Qed.

(** The grammar [<S> ::= <A> <S> | "b"], [<A> ::= ε] is left-recursive
    through [<A>], and the search for ["c"] from [<S>] runs for ever. *)
Lemma hidden_left_recursion_runs_forever :
  left_recursive hidden_left_recursive_grammar
  /\ ~ matches_terminates hidden_left_recursive_grammar ["S"] [quoted "c"].
Proof.
  assert (Hcycle : reaches (left_corner hidden_left_recursive_grammar)
                           "S" "S").
  { apply reaches_step. exists ["A"], [].
    split; [now left|]. split; [|reflexivity].
    constructor; [reflexivity| |constructor].
    apply away_epsilon with (x := epsilon) (rest := []);
      [right; right; now left|reflexivity]. }
  split; [now exists "S"|].
  apply matches_runs_forever_with_left_recursion;
    [reflexivity|exact Hcycle|].
  intros lhs rhs x Hin Hx Hn ->.
  destruct Hin as [[= <- <-]|[[= <- <-]|[[= <- <-]|[]]]];
    cbn [In] in Hx; intuition (subst; discriminate).
Qed.
